(** * Wordle entropy/rank solver: the constraint-and-recommendation engine

    A shallow embedding of the engine of [wordle_solver.cpp] (feedback
    evaluation, entropy scoring, constraint update, candidate filtering,
    risk assessment, admissible picks and the final-pick policy), with
    the properties of the specification stated and proved over it.
    The last part adds the pieces around the engine (the sort
    comparators, [trim], the reading loop of the dictionary, the
    validation of the typed result and the solved test of the game
    loop) and further properties of the engine itself.

    Conventions of the embedding.
    - A C [char] is an [ascii]; a NUL-terminated C string is the
      [list ascii] of its characters before the terminator; reading a
      string at its length yields NUL ([char_at]).
    - An [int t[26]] is a [list Z] of length 26 ([arr_get], [arr_set]).
      The program indexes these tables with [c - 'A']; outside 0..25 the
      C program has undefined behaviour, the model reads 0 and ignores
      the write, and every theorem that depends on a table carries the
      hypothesis that the letters involved are upper case.
    - [int]/[long] counters are [Z]; no counter of the program can reach
      the 32-bit limit (they count letters of 5-letter words, characters
      of short strings or indices of the candidate array).
    - A [double] is a binary64 [float]; the arithmetic, [fabs] and the
      comparisons are the IEEE operations of [PrimFloat].  The C
      library's [log] is a parameter of the entropy scorer.
    - The functions update their arguments in place; the model passes
      the state explicitly and returns the new state.
    - The constraint buffers are modelled by their contents, one list
      each.  The updater knows no capacity; where a statement about the
      contents after an update would be false of a run that overflows
      the buffers of [main], it carries [fits_buffers]. *)

From Stdlib Require Import PrimFloat Uint63.
From Stdlib Require Import Reals Lra.
From Stdlib Require Import ZArith List Ascii String Bool Lia.
From stdpp Require Import base list strings.

Set Default Proof Using "Type".

Local Open Scope char_scope.

(** * The program *)

(** ** Characters, strings and letter tables *)

Definition WORD_SIZE : nat := 5.
Definition LOW_POSSIBLE_ANSWER_COUNT : Z := 25.
Definition ENTROPY_RANK_THRESHOLD : float := 0.5%float.

(** A word literal. *)
Definition w (s : string) : list ascii := list_ascii_of_string s.

(** [s[i]] for a C string. *)
Definition char_at (s : list ascii) (i : nat) : ascii := nth i s Ascii.zero.

(** [c - 'A']. *)
Definition letter_index (c : ascii) : Z := (Z.of_nat (nat_of_ascii c) - 65)%Z.

(** ['A' + i] for [0 <= i < 26]. *)
Definition letter_of_index (i : nat) : ascii := ascii_of_nat (65 + i).

Definition is_upper (c : ascii) : bool :=
  ((0 <=? letter_index c) && (letter_index c <? 26))%Z.

Definition is_lower (c : ascii) : bool :=
  ((97 <=? nat_of_ascii c) && (nat_of_ascii c <=? 122))%nat.

(** [toupper] of the C locale. *)
Definition toupper (c : ascii) : ascii :=
  if is_lower c then ascii_of_nat (nat_of_ascii c - 32) else c.

Definition zero_table : list Z := replicate 26 0%Z.

Definition arr_get (t : list Z) (i : Z) : Z :=
  if (0 <=? i)%Z then default 0%Z (t !! Z.to_nat i) else 0%Z.

Definition arr_set (t : list Z) (i : Z) (v : Z) : list Z :=
  if (0 <=? i)%Z then <[Z.to_nat i := v]> t else t.

(** [t[i]++] and [t[i]--]. *)
Definition arr_inc (t : list Z) (i : Z) : list Z := arr_set t i (arr_get t i + 1)%Z.
Definition arr_dec (t : list Z) (i : Z) : list Z := arr_set t i (arr_get t i - 1)%Z.

(** [for (i = 0; i < n; i++) body], the state threaded through. *)
Definition for_loop {S : Type} (n : nat) (body : S -> nat -> S) (s0 : S) : S :=
  fold_left body (seq 0 n) s0.

(** [for (p = s; *p != '\0'; p++) t[*p - 'A']++]. *)
Definition tally (s : list ascii) : list Z :=
  fold_left (fun t c => arr_inc t (letter_index c)) s zero_table.

(** [strchr(s, c) != NULL]: the terminator itself is found when [c] is NUL. *)
Definition strchr (s : list ascii) (c : ascii) : bool :=
  if Ascii.eqb c Ascii.zero then true else existsb (Ascii.eqb c) s.

(** [s[len] = c; s[len + 1] = '\0'] with [len = strlen(s)]. *)
Definition str_push (s : list ascii) (c : ascii) : list ascii :=
  if Ascii.eqb c Ascii.zero then s else s ++ [c].

(** [strcmp(a, b) == 0]. *)
Definition str_eqb (a b : list ascii) : bool := bool_decide (a = b).

(** ** Feedback pattern evaluator *)

Module Feedback.

(** The state of both loops: [result_pattern] and [answer_char_counts].
    ([guess_used] is written by the first loop and never read.) *)
Definition state : Type := list ascii * list Z.

Definition green_step (guess answer : list ascii) (st : state) (i : nat) : state :=
  let '(result_pattern, answer_char_counts) := st in
  if Ascii.eqb (char_at guess i) (char_at answer i)
  then (<[i := "G"]> result_pattern, answer_char_counts)
  else (result_pattern, arr_inc answer_char_counts (letter_index (char_at answer i))).

Definition yellow_step (guess : list ascii) (st : state) (i : nat) : state :=
  let '(result_pattern, answer_char_counts) := st in
  if negb (Ascii.eqb (char_at result_pattern i) "G") then
    let letter_index := letter_index (char_at guess i) in
    if (0 <? arr_get answer_char_counts letter_index)%Z
    then (<[i := "Y"]> result_pattern, arr_dec answer_char_counts letter_index)
    else st
  else st.

Definition get_feedback_pattern (guess answer : list ascii) : list ascii :=
  let st0 : state := (replicate WORD_SIZE "B", zero_table) in
  let st1 := for_loop WORD_SIZE (green_step guess answer) st0 in
  fst (for_loop WORD_SIZE (yellow_step guess) st1).

End Feedback.

Export Feedback.

(** ** Entropy scorer *)

Module Entropy.

(** A [WORD_NODE] of the pattern list: the pattern and its count. *)
Definition node : Type := (list ascii * Z)%type.

(** The search of the list for [pattern]: the count of its node is
    incremented, or a node with count 1 is linked at the tail. *)
Fixpoint count_pattern (pattern : list ascii) (pPatternCounts : list node) : list node :=
  match pPatternCounts with
  | [] => [(pattern, 1%Z)]
  | (word0, rank0) :: pNxt =>
      if str_eqb word0 pattern then (word0, (rank0 + 1)%Z) :: pNxt
      else (word0, rank0) :: count_pattern pattern pNxt
  end.

(** Step 1 of [calculate_entropy_score]: the histogram of the feedback
    patterns of [guess] against the candidate answers.  (Allocation of a
    node is assumed to succeed.) *)
Definition pattern_counts (guess : list ascii) (possibleAnswers : list (list ascii))
    (numPossibleAnswers : Z) : list node :=
  for_loop (Z.to_nat numPossibleAnswers)
    (fun pPatternCounts i =>
       count_pattern (get_feedback_pattern guess (nth i possibleAnswers [])) pPatternCounts)
    [].


Section Score.

(** The natural logarithm of the C library. *)
Variable log : float -> float.



End Score.

End Entropy.

Export Entropy.

(** ** Constraint state *)

(** The four buffers the game loop owns and passes to the engine:
    the green mask, the positional exclusions [notMask[6][5]], the
    required letters and the excluded letters.  The functions receive
    pointers and know no capacity; the buffers are modelled by their
    contents. *)
Record ConstraintState : Type := mkState {
  pMask : list ascii;
  notMask : list (list ascii);
  pGood : list ascii;
  pBad : list ascii
}.

(** The state [main] starts from: mask and exclusions filled with ['*'],
    both letter strings empty. *)
Definition initial_state : ConstraintState :=
  {| pMask := replicate WORD_SIZE "*";
     notMask := replicate 6 (replicate WORD_SIZE "*");
     pGood := [];
     pBad := [] |}.

(** [notMask[r][c]]. *)
Definition cell (m : list (list ascii)) (r : Z) (c : nat) : ascii :=
  if (0 <=? r)%Z then char_at (default [] (m !! Z.to_nat r)) c else Ascii.zero.

(** [notMask[r][c] = x]. *)
Definition set_cell (m : list (list ascii)) (r : Z) (c : nat) (x : ascii) : list (list ascii) :=
  if (0 <=? r)%Z
  then <[Z.to_nat r := <[c := x]> (default [] (m !! Z.to_nat r))]> m
  else m.

(** ** Candidate filter *)

Module Filter.

(** The inner loop of [is_good_fit]: occurrences of [required_char]
    among the five letters of [pWord]. *)
Definition word_count (pWord : list ascii) (required_char : ascii) : Z :=
  for_loop WORD_SIZE
    (fun word_count wordIdx =>
       if Ascii.eqb (char_at pWord wordIdx) required_char
       then (word_count + 1)%Z else word_count)
    0%Z.

(** Part 1 of [is_good_fit]: no letter falls short of its required count. *)
Definition required_counts_ok (pGood pWord : list ascii) : bool :=
  let required_counts := tally pGood in
  forallb
    (fun i =>
       if (0 <? arr_get required_counts (Z.of_nat i))%Z
       then negb (word_count pWord (letter_of_index i) <? arr_get required_counts (Z.of_nat i))%Z
       else true)
    (seq 0 26).

(** One round of the positional loop of [is_good_fit]; [false] is an
    early [return 0]. *)
Definition position_ok (st : ConstraintState) (pWord : list ascii) (idx : nat) : bool :=
  let theChar := char_at pWord idx in
  if strchr (pBad st) theChar then false
  else if negb (Ascii.eqb (char_at (pMask st) idx) "*")
          && negb (Ascii.eqb (char_at (pMask st) idx) theChar) then false
  else forallb
         (fun notIdx => negb (Ascii.eqb (cell (notMask st) (Z.of_nat notIdx) idx) theChar))
         (seq 0 6).

Definition is_good_fit (st : ConstraintState) (pWord : list ascii) : Z :=
  if negb (required_counts_ok (pGood st) pWord) then 0%Z
  else if forallb (position_ok st pWord) (seq 0 WORD_SIZE) then 1%Z
  else 0%Z.

(** The candidate array and the running [numNewAnswers]. *)
Definition filter_step (st : ConstraintState)
    (acc : list (list ascii) * Z) (i : nat) : list (list ascii) * Z :=
  let '(pPossibleAnswers, numNewAnswers) := acc in
  let pWord := nth i pPossibleAnswers [] in
  if (is_good_fit st pWord =? 0)%Z then acc
  else (<[Z.to_nat numNewAnswers := pWord]> pPossibleAnswers, (numNewAnswers + 1)%Z).

(** [filter_possible_answers]: compacts the array in place and returns
    the array together with the new count. *)
Definition filter_possible_answers (pPossibleAnswers : list (list ascii))
    (numCurrentAnswers : Z) (st : ConstraintState) : list (list ascii) * Z :=
  for_loop (Z.to_nat numCurrentAnswers) (filter_step st) (pPossibleAnswers, 0%Z).

End Filter.

Export Filter.

(** ** Risk assessor *)

Definition is_guess_word_risky (guess pGood : list ascii) : bool :=
  let guess_counts :=
    for_loop WORD_SIZE
      (fun t i => arr_inc t (letter_index (char_at guess i))) zero_table in
  let required_counts := tally pGood in
  existsb
    (fun i =>
       (1 <? arr_get guess_counts (Z.of_nat i))%Z
       && (arr_get required_counts (Z.of_nat i) <? arr_get guess_counts (Z.of_nat i))%Z)
    (seq 0 26).

(** ** Constraint updater *)

Module Update.

(** Step 1: confirmed minimum count per letter for this guess. *)
Definition confirmed_counts (guess result_pattern : list ascii) : list Z :=
  for_loop WORD_SIZE
    (fun t idx =>
       let current_char := toupper (char_at guess idx) in
       if Ascii.eqb (char_at result_pattern idx) "G"
          || Ascii.eqb (char_at result_pattern idx) "Y"
       then arr_inc t (letter_index current_char) else t)
    zero_table.

(** Occurrences of [c] in [pGood], as counted by the loop over [strlen(pGood)]. *)
Definition required_count (pGood : list ascii) (c : ascii) : Z :=
  fold_left (fun n x => if Ascii.eqb x c then (n + 1)%Z else n) pGood 0%Z.

(** The required letters after a Green or Yellow at [current_char]. *)
Definition raise_required (confirmed : list Z) (pGood : list ascii)
    (current_char : ascii) : list ascii :=
  if (required_count pGood current_char <? arr_get confirmed (letter_index current_char))%Z
  then str_push pGood current_char else pGood.

(** Step 2, one position. *)
Definition update_step (guess result_pattern : list ascii) (confirmed : list Z)
    (tryIdx : Z) (st : ConstraintState) (idx : nat) : ConstraintState :=
  let current_char := toupper (char_at guess idx) in
  let current_required_count := required_count (pGood st) current_char in
  if Ascii.eqb (char_at result_pattern idx) "G" then
    {| pMask := <[idx := current_char]> (pMask st);
       notMask := notMask st;
       pGood := raise_required confirmed (pGood st) current_char;
       pBad := pBad st |}
  else if Ascii.eqb (char_at result_pattern idx) "Y" then
    {| pMask := pMask st;
       notMask := set_cell (notMask st) (tryIdx - 1) idx current_char;
       pGood := raise_required confirmed (pGood st) current_char;
       pBad := pBad st |}
  else if Ascii.eqb (char_at result_pattern idx) "B" then
    {| pMask := pMask st;
       notMask := set_cell (notMask st) (tryIdx - 1) idx current_char;
       pGood := pGood st;
       pBad := if (current_required_count =? 0)%Z
               then (if strchr (pBad st) current_char then pBad st
                     else str_push (pBad st) current_char)
               else pBad st |}
  else st.

Definition update_game_constraints (guess result_pattern : list ascii)
    (st : ConstraintState) (tryIdx : Z) : ConstraintState :=
  let confirmed := confirmed_counts guess result_pattern in
  for_loop WORD_SIZE (update_step guess result_pattern confirmed tryIdx) st.

End Update.

Export Update.

(** ** Metrics, admissible picks and the final pick *)

Record GUESS_METRICS : Type := mkMetric {
  word : list ascii;
  entropy : float;
  rank : Z;
  is_risky : bool;
  nounType : ascii;
  verbType : ascii
}.

Record PICK_DATA : Type := mkPick {
  pick_word : list ascii;
  alternate_word : list ascii
}.

Definition NONE : list ascii := w "NONE".

(** A zero-filled record, read when an index is outside the array. *)
Definition no_metric : GUESS_METRICS :=
  {| word := []; entropy := 0%float; rank := 0; is_risky := false;
     nounType := Ascii.zero; verbType := Ascii.zero |}.

(** [pArray[i]]. *)
Definition metric_at (pArray : list GUESS_METRICS) (i : nat) : GUESS_METRICS :=
  nth i pArray no_metric.

Module Picks.

(** The filter of [find_top_linguistic_picks]: not a plural noun, not a
    past-tense or third-person verb, not risky. *)
Definition admissible (pMetric : GUESS_METRICS) : bool :=
  negb (Ascii.eqb (nounType pMetric) "P")
  && negb (Ascii.eqb (verbType pMetric) "T")
  && negb (Ascii.eqb (verbType pMetric) "S")
  && negb (is_risky pMetric).

(** The search loop over the indices still to visit, with its [break]
    once the alternate is found. *)
Fixpoint scan_picks (pSortedMetrics : list GUESS_METRICS) (todo : list nat)
    (pResult : PICK_DATA) (found_count : Z) : PICK_DATA * Z :=
  match todo with
  | [] => (pResult, found_count)
  | i :: todo' =>
      let pMetric := metric_at pSortedMetrics i in
      if admissible pMetric then
        if (found_count =? 0)%Z then
          scan_picks pSortedMetrics todo'
            {| pick_word := word pMetric; alternate_word := alternate_word pResult |}
            (found_count + 1)%Z
        else if (found_count =? 1)%Z then
          ({| pick_word := pick_word pResult; alternate_word := word pMetric |},
           (found_count + 1)%Z)
        else scan_picks pSortedMetrics todo' pResult found_count
      else scan_picks pSortedMetrics todo' pResult found_count
  end.

(** The fallback block after the search loop. *)
Definition backfill (pSortedMetrics : list GUESS_METRICS) (numMetrics : Z)
    (pResult : PICK_DATA) (found_count : Z) : PICK_DATA :=
  if (found_count <? 2)%Z && (0 <? numMetrics)%Z then
    let '(pResult, found_count) :=
      if (found_count =? 0)%Z
      then ({| pick_word := word (metric_at pSortedMetrics 0);
               alternate_word := alternate_word pResult |}, 1%Z)
      else (pResult, found_count) in
    if (found_count =? 1)%Z && (1 <? numMetrics)%Z then
      if str_eqb (alternate_word pResult) NONE then
        if negb (str_eqb (word (metric_at pSortedMetrics 1)) (pick_word pResult))
        then {| pick_word := pick_word pResult;
                alternate_word := word (metric_at pSortedMetrics 1) |}
        else pResult
      else pResult
    else if (numMetrics =? 1)%Z then
      {| pick_word := pick_word pResult; alternate_word := NONE |}
    else pResult
  else pResult.

Definition find_top_linguistic_picks (pSortedMetrics : list GUESS_METRICS)
    (numMetrics : Z) : PICK_DATA :=
  let '(pResult, found_count) :=
    scan_picks pSortedMetrics (seq 0 (Z.to_nat numMetrics))
      {| pick_word := NONE; alternate_word := NONE |} 0%Z in
  backfill pSortedMetrics numMetrics pResult found_count.

End Picks.

Export Picks.

Module FinalPick.

(** [find_metric_by_word]: the first entry of the array carrying the
    word, [None] for the sentinel and for a word that is not there. *)
Definition find_metric_by_word (word0 : list ascii) (pArray : list GUESS_METRICS)
    (num : Z) : option GUESS_METRICS :=
  if str_eqb word0 NONE then None
  else
    match List.find (fun i => str_eqb (word (metric_at pArray i)) word0)
                    (seq 0 (Z.to_nat num)) with
    | Some i => Some (metric_at pArray i)
    | None => None
    end.

(** [fabs(pE_Pick->entropy - pR_Pick->entropy)]. *)
Definition entropy_diff (pE_Pick pR_Pick : GUESS_METRICS) : float :=
  PrimFloat.abs (PrimFloat.sub (entropy pE_Pick) (entropy pR_Pick)).

(** The recommendation printed in the banner: word, rank and entropy. *)
Record final_pick : Type := mkFinal {
  final_word : list ascii;
  final_rank : Z;
  final_entropy : float
}.

Definition of_metric (m : GUESS_METRICS) : final_pick :=
  {| final_word := word m; final_rank := rank m; final_entropy := entropy m |}.

Definition determine_final_pick (pRankSorted pEntropySorted : list GUESS_METRICS)
    (numPossibleAnswers : Z) (rankPicks entropyPicks : PICK_DATA) : final_pick :=
  let pR_Pick := find_metric_by_word (pick_word rankPicks) pRankSorted numPossibleAnswers in
  let pE_Pick := find_metric_by_word (pick_word entropyPicks) pEntropySorted numPossibleAnswers in
  let default_pick :=
    {| final_word := pick_word rankPicks;
       final_rank := match pR_Pick with Some m => rank m | None => 0%Z end;
       final_entropy := match pR_Pick with Some m => entropy m | None => 0%float end |} in
  match pR_Pick, pE_Pick with
  | Some r, Some e =>
      if (LOW_POSSIBLE_ANSWER_COUNT <? numPossibleAnswers)%Z then
        if PrimFloat.ltb ENTROPY_RANK_THRESHOLD (entropy_diff e r)
        then of_metric e
        else default_pick
      else of_metric (metric_at pRankSorted 0)
  | _, _ =>
      if (0 <? numPossibleAnswers)%Z
      then of_metric (metric_at pRankSorted 0)
      else default_pick
  end.

End FinalPick.

Export FinalPick.

(** ** Sort comparators *)

(** [EPSILON], the binary64 value of the literal [1e-9]. *)
Definition EPSILON : float := 0x1.12e0be826d695p-30%float.

(** [FLOAT_GREATER(a, b)]: [(a) > (b) + EPSILON]. *)
Definition FLOAT_GREATER (a b : float) : bool :=
  PrimFloat.ltb (PrimFloat.add b EPSILON) a.

(** Entropy descending, rank descending as tie-breaker.  (Ranks come
    from three characters of a dictionary line, so the subtraction does
    not overflow.) *)
Definition sortMetricsByEntropyDescending (p1 p2 : GUESS_METRICS) : Z :=
  if FLOAT_GREATER (entropy p1) (entropy p2) then (-1)%Z
  else if FLOAT_GREATER (entropy p2) (entropy p1) then 1%Z
  else (rank p2 - rank p1)%Z.

(** Rank descending, entropy descending as tie-breaker. *)
Definition sortMetricsByRankDescending (p1 p2 : GUESS_METRICS) : Z :=
  if (rank p1 <? rank p2)%Z then 1%Z
  else if (rank p2 <? rank p1)%Z then (-1)%Z
  else if FLOAT_GREATER (entropy p1) (entropy p2) then (-1)%Z
  else if FLOAT_GREATER (entropy p2) (entropy p1) then 1%Z
  else 0%Z.

(** ** Input lines *)

(** The characters [trim] skips: space, tab, line feed, carriage return. *)
Definition is_blank (ch : ascii) : bool :=
  Ascii.eqb ch " " || Ascii.eqb ch "009" || Ascii.eqb ch "010" || Ascii.eqb ch "013".

(** The scan of [trim]: [current] is the offset of [currentPtr], [keep]
    the offset of [ptrToWhereNullCharShouldGo]. *)
Fixpoint trim_scan (rest : list ascii) (current keep : nat) : nat :=
  match rest with
  | [] => keep
  | ch :: rest' =>
      let current := S current in
      trim_scan rest' current (if negb (is_blank ch) then current else keep)
  end.

(** [trim]: the terminator is written at the offset the scan kept. *)
Definition trim (str : list ascii) : list ascii := take (trim_scan str 0 0) str.

(** ** Dictionary lines *)

Module Dictionary.

(** A [WORD_ENTRY] of the dictionary table. *)
Record WORD_ENTRY : Type := mkEntry {
  word : list ascii;
  rank : Z;
  nounType : ascii;
  verbType : ascii
}.

(** [isspace] and [isdigit] of the C locale. *)
Definition is_space (c : ascii) : bool :=
  Ascii.eqb c " " || ((9 <=? nat_of_ascii c) && (nat_of_ascii c <=? 13))%nat.

Definition is_digit (c : ascii) : bool :=
  ((48 <=? nat_of_ascii c) && (nat_of_ascii c <=? 57))%nat.

(** The digits of [atoi], most significant first, up to the first
    character that is not a digit. *)
Fixpoint atoi_digits (s : list ascii) (acc : Z) : Z :=
  match s with
  | [] => acc
  | c :: s' =>
      if is_digit c
      then atoi_digits s' (10 * acc + (Z.of_nat (nat_of_ascii c) - 48))%Z
      else acc
  end.

(** [atoi] of the C library on a short string: leading white space, an
    optional sign, then digits. *)
Fixpoint atoi (s : list ascii) : Z :=
  match s with
  | [] => 0%Z
  | c :: s' =>
      if is_space c then atoi s'
      else if Ascii.eqb c "-" then (- atoi_digits s' 0)%Z
      else if Ascii.eqb c "+" then atoi_digits s' 0%Z
      else atoi_digits s 0%Z
  end.

(** The body of the reading loop of [get_dictionary_table] for one line
    read by [fgets]: the line is trimmed and, if at least ten characters
    are left, cut into word (upper-cased), three-character rank and the
    two type letters. *)
Definition parse_line (buffer : list ascii) : option WORD_ENTRY :=
  let buffer := trim buffer in
  if (10 <=? length buffer)%nat then
    Some {| word := map toupper (take WORD_SIZE buffer);
            rank := atoi (take 3 (drop 5 buffer));
            nounType := char_at buffer 8;
            verbType := char_at buffer 9 |}
  else None.

(** The reading loop over the lines of the file, up to [maxDictionary]
    entries (before the table is sorted). *)
Definition read_lines (lines : list (list ascii)) (maxDictionary : Z) : list WORD_ENTRY :=
  fold_left
    (fun table buffer =>
       if (Z.of_nat (length table) <? maxDictionary)%Z then
         match parse_line buffer with
         | Some pEntry => table ++ [pEntry]
         | None => table
         end
       else table)
    lines [].

End Dictionary.

(** ** One turn of the game loop *)

(** Steps 3 and 5 of [analyze_and_print_recommendations]: the picks of
    both axes from the two sorted buffers, then the final pick. *)
Definition recommendation (pRankSorted pEntropySorted : list GUESS_METRICS)
    (numPossibleAnswers : Z) : final_pick :=
  let rankPicks := find_top_linguistic_picks pRankSorted numPossibleAnswers in
  let entropyPicks := find_top_linguistic_picks pEntropySorted numPossibleAnswers in
  determine_final_pick pRankSorted pEntropySorted numPossibleAnswers rankPicks entropyPicks.

(** The validation loop of the game loop over the result typed in:
    each character is upper-cased in place and the loop stops at the
    first one that is not B, G or Y. *)
Fixpoint validate_from (result_input : list ascii) (todo : list nat)
    : list ascii * bool :=
  match todo with
  | [] => (result_input, true)
  | i :: todo' =>
      let result_input := <[i := toupper (char_at result_input i)]> result_input in
      let c := char_at result_input i in
      if negb (Ascii.eqb c "B") && negb (Ascii.eqb c "G") && negb (Ascii.eqb c "Y")
      then (result_input, false)
      else validate_from result_input todo'
  end.

Definition validate_result (result_input : list ascii) : list ascii * bool :=
  validate_from result_input (seq 0 WORD_SIZE).

(** The test of the game loop after each turn:
    [strchr(mask, '*') == NULL]. *)
Definition solved (st : ConstraintState) : bool := negb (strchr (pMask st) "*").

(** * Specification vocabulary

    Multiplicities, the reference definitions the program is compared
    with, and the predicates the theorems are stated in. *)

(** ** Letters, words and tables *)

(** Multiplicity of a letter in a string. *)
Fixpoint occurrences (c : ascii) (s : list ascii) : nat :=
  match s with
  | [] => 0
  | x :: s' => (if Ascii.eqb x c then 1 else 0) + occurrences c s'
  end.

(** A table of the program agrees with a counting function on the
    upper-case letters. *)
Definition represents (t : list Z) (f : ascii -> nat) : Prop :=
  length t = 26 /\ forall c, is_upper c = true -> arr_get t (letter_index c) = Z.of_nat (f c).

Definition upper_word (s : list ascii) : Prop := Forall (fun c => is_upper c = true) s.

(** A word of the game: five upper-case letters. *)
Definition wordle_word (s : list ascii) : Prop := length s = WORD_SIZE /\ upper_word s.

Definition is_letter (c : ascii) : bool := is_upper c || is_lower c.

(** ** The two-pass reference definition of the feedback pattern *)

Module FeedbackSpec.

Inductive mark : Type := Green | Yellow | Black.

Definition mark_char (m : mark) : ascii :=
  match m with Green => "G" | Yellow => "Y" | Black => "B" end.

(** Pass 1: a position is Green iff guess and answer agree there. *)
Fixpoint greens (guess answer : list ascii) : list bool :=
  match guess, answer with
  | g :: guess', a :: answer' => Ascii.eqb g a :: greens guess' answer'
  | _, _ => []
  end.

(** Pass 1: the letters of the answer that were not matched. *)
Fixpoint unmatched (guess answer : list ascii) : list ascii :=
  match guess, answer with
  | g :: guess', a :: answer' =>
      if Ascii.eqb g a then unmatched guess' answer' else a :: unmatched guess' answer'
  | _, _ => []
  end.

(** The count table with one occurrence of [c] used up. *)
Definition take_one (c : ascii) (remaining : ascii -> nat) : ascii -> nat :=
  fun x => if Ascii.eqb c x then (remaining x - 1)%nat else remaining x.

(** Pass 2: over the non-Green positions, Yellow iff the guessed letter
    still has a remaining count, which is then decremented; else Black. *)
Fixpoint yellows (guess : list ascii) (green : list bool) (remaining : ascii -> nat)
    : list mark :=
  match guess, green with
  | g :: guess', true :: green' => Green :: yellows guess' green' remaining
  | g :: guess', false :: green' =>
      if (0 <? remaining g)%nat
      then Yellow :: yellows guess' green' (take_one g remaining)
      else Black :: yellows guess' green' remaining
  | _, _ => []
  end.

Definition reference_pattern (guess answer : list ascii) : list mark :=
  yellows guess (greens guess answer) (fun c => occurrences c (unmatched guess answer)).

End FeedbackSpec.

Export FeedbackSpec.

(** The mark a position carries after pass 1. *)
Definition green_char (b : bool) : ascii := if b then "G" else "B".

(** The postcondition of the first loop. *)
Definition green_post (rpre gs ans : list ascii) (f : ascii -> nat)
    (st : Feedback.state) : Prop :=
  fst st = rpre ++ map green_char (greens gs ans)
  /\ represents (snd st) (fun x => (occurrences x (unmatched gs ans) + f x)%nat).

(** ** The four conditions of the candidate filter *)

Module FilterSpec.

(** (a) every required letter occurs at least as often as required. *)
Definition meets_required (pGood pWord : list ascii) : Prop :=
  forall c, (0 < occurrences c pGood)%nat ->
            (occurrences c pGood <= occurrences c pWord)%nat.

(** (b) no letter of the word is excluded. *)
Definition avoids_excluded (pBad pWord : list ascii) : Prop :=
  forall c, In c pWord -> ~ In c pBad.

(** (c) every fixed slot of the green mask is matched. *)
Definition matches_mask (pMask pWord : list ascii) : Prop :=
  forall idx, (idx < WORD_SIZE)%nat ->
              char_at pMask idx <> "*" -> char_at pWord idx = char_at pMask idx.

(** A letter recorded as forbidden at position [idx] in some turn. *)
Definition forbidden_at (notMask : list (list ascii)) (idx : nat) (c : ascii) : Prop :=
  c <> "*" /\ exists turn, (turn < 6)%nat /\ cell notMask (Z.of_nat turn) idx = c.

(** (d) no letter of the word stands where it was recorded as forbidden. *)
Definition avoids_forbidden (notMask : list (list ascii)) (pWord : list ascii) : Prop :=
  forall idx, (idx < WORD_SIZE)%nat -> ~ forbidden_at notMask idx (char_at pWord idx).

Definition passes (st : ConstraintState) (pWord : list ascii) : Prop :=
  meets_required (pGood st) pWord
  /\ avoids_excluded (pBad st) pWord
  /\ matches_mask (pMask st) pWord
  /\ avoids_forbidden (notMask st) pWord.

End FilterSpec.

Export FilterSpec.

(** The test of [filter_possible_answers] on one word. *)
Definition kept (st : ConstraintState) (pWord : list ascii) : bool :=
  negb (is_good_fit st pWord =? 0)%Z.

(** The flag in terms of multiplicities: some letter occurs more than
    once in the guess and more often than it is required. *)
Definition unconfirmed_repeat (guess pGood : list ascii) : Prop :=
  exists c, (1 < occurrences c guess)%nat
            /\ (occurrences c pGood < occurrences c guess)%nat.

(** ** Turns and the order on constraint states *)

(** One turn of the game loop: the guess, the feedback typed in and the
    turn number. *)
Record turn : Type := mkTurn {
  turn_guess : list ascii;
  turn_feedback : list ascii;
  turn_index : Z
}.

(** What the boundary layer lets through: a 5-letter guess, five
    symbols over B, G, Y, a turn number from 1 to 6. *)
Definition valid_turn (t : turn) : Prop :=
  length (turn_guess t) = WORD_SIZE
  /\ Forall (fun c => is_letter c = true) (turn_guess t)
  /\ length (turn_feedback t) = WORD_SIZE
  /\ Forall (fun c => c = "B" \/ c = "G" \/ c = "Y") (turn_feedback t)
  /\ (1 <= turn_index t <= 6)%Z.

(** Repeated calls of [update_game_constraints], the state threaded
    through as the game loop does. *)
Definition play (turns : list turn) (st : ConstraintState) : ConstraintState :=
  fold_left
    (fun st t => update_game_constraints (turn_guess t) (turn_feedback t) st (turn_index t))
    turns st.

(** The later state requires every letter at least as often and has
    every fixed slot still fixed. *)
Definition extends (st st' : ConstraintState) : Prop :=
  (forall c, (occurrences c (pGood st) <= occurrences c (pGood st'))%nat)
  /\ (forall idx, char_at (pMask st) idx <> "*" -> char_at (pMask st') idx <> "*").

(** The invariant of the specification: an excluded letter is not
    required. *)
Definition excluded_not_required (st : ConstraintState) : Prop :=
  forall c, In c (pBad st) -> occurrences c (pGood st) = 0%nat.

(** The states the claim of the invariant ranges over: from the initial
    state, any number of turns whose feedback the evaluator produces for
    the guess against some answer. *)
Inductive reachable : ConstraintState -> Prop :=
| reachable_initial : reachable initial_state
| reachable_turn st guess answer tryIdx :
    reachable st -> wordle_word guess -> wordle_word answer ->
    (1 <= tryIdx <= 6)%Z ->
    reachable (update_game_constraints guess (get_feedback_pattern guess answer) st tryIdx).

(** ** The entropy sum in exact arithmetic *)



(** ** Counting marks of a feedback pattern *)

(** Positions where the guess has the letter [c] and the pattern has
    Green or Yellow. *)
Fixpoint marked (c : ascii) (guess pattern : list ascii) : nat :=
  match guess, pattern with
  | g :: guess', p :: pattern' =>
      (if Ascii.eqb g c && (Ascii.eqb p "G" || Ascii.eqb p "Y") then 1 else 0)
      + marked c guess' pattern'
  | _, _ => 0
  end.

(** Positions of the letter [c] in the guess that pass 1 marked Green,
    and those it did not. *)
Fixpoint green_count (c : ascii) (guess : list ascii) (green : list bool) : nat :=
  match guess, green with
  | g :: guess', b :: green' =>
      (if Ascii.eqb g c && b then 1 else 0) + green_count c guess' green'
  | _, _ => 0
  end.

Fixpoint open_count (c : ascii) (guess : list ascii) (green : list bool) : nat :=
  match guess, green with
  | g :: guess', b :: green' =>
      (if Ascii.eqb g c && negb b then 1 else 0) + open_count c guess' green'
  | _, _ => 0
  end.

(** The symbols of a feedback pattern. *)
Definition feedback_symbol (c : ascii) : Prop := c = "B" \/ c = "G" \/ c = "Y".

(** ** Reading a pattern list *)

(** The count recorded for [pattern], 0 when it has no node. *)
Fixpoint node_count (pattern : list ascii) (l : list node) : Z :=
  match l with
  | [] => 0%Z
  | (word0, rank0) :: l' =>
      if str_eqb word0 pattern then rank0 else node_count pattern l'
  end.

(** The candidate answers among the first [n] whose feedback against
    [guess] is [pattern]. *)
Definition answers_with (guess pattern : list ascii)
    (possibleAnswers : list (list ascii)) (n : nat) : list (list ascii) :=
  List.filter (fun answer => str_eqb (get_feedback_pattern guess answer) pattern)
              (take n possibleAnswers).

(** All strings of [n] feedback symbols. *)
Fixpoint all_patterns (n : nat) : list (list ascii) :=
  match n with
  | 0 => [[]]
  | S n' => flat_map (fun s => ["B" :: s; "G" :: s; "Y" :: s]) (all_patterns n')
  end.

(** ** What one turn records *)

(** The required letters after one position of the guess: the letter
    [g] of the guess, its feedback symbol [p]. *)
Definition good_step (confirmed : list Z) (pGood : list ascii) (g p : ascii) : list ascii :=
  if Ascii.eqb p "G" || Ascii.eqb p "Y"
  then raise_required confirmed pGood (toupper g) else pGood.

(** The shape of the contents: a mask of five slots, six rows of five
    exclusions, upper-case required and excluded letters, no excluded
    letter listed twice.  This says nothing about the room the two
    letter strings have in memory: that is [fits_buffers] below. *)
Definition well_formed (st : ConstraintState) : Prop :=
  length (pMask st) = WORD_SIZE
  /\ length (notMask st) = 6%nat
  /\ Forall (fun row => length row = WORD_SIZE) (notMask st)
  /\ upper_word (pGood st)
  /\ upper_word (pBad st)
  /\ NoDup (pBad st).

(** The capacity of the buffers [main] passes for the two letter
    strings, terminator included:
    [char goodButDontKnowWhere[WORD_SIZE + 1]] holds five required
    letters and [char cannotHave[26]] twenty-five excluded ones.  The
    updater appends without looking at these sizes; a longer string is
    written past its buffer in the C program (into whatever lies behind
    it, the mask for one), which the model, with its separate lists,
    does not show.  Both strings only grow, so a run whose last state
    fits has stayed inside the buffers all along, and on such a run the
    model and the program agree. *)
Definition fits_buffers (st : ConstraintState) : Prop :=
  (length (pGood st) <= WORD_SIZE)%nat /\ (length (pBad st) <= 25)%nat.

(** A letter of the guess marked Black at a position to the left of a
    position where the same letter is marked Green. *)
Definition black_before_green (guess pattern : list ascii) : Prop :=
  exists i j, (i < j)%nat /\ (j < WORD_SIZE)%nat
              /\ char_at guess i = char_at guess j
              /\ char_at pattern i = "B" /\ char_at pattern j = "G".

(** A game against a fixed answer: each guess is answered by the
    evaluator, turn numbers counting up from [tryIdx]. *)
Fixpoint play_against (answer : list ascii) (tryIdx : Z) (st : ConstraintState)
    (guesses : list (list ascii)) : ConstraintState :=
  match guesses with
  | [] => st
  | guess :: guesses' =>
      play_against answer (tryIdx + 1)
        (update_game_constraints guess (get_feedback_pattern guess answer) st tryIdx)
        guesses'
  end.

(** The feedback symbols for which the updater records a positional
    exclusion: Yellow and Black. *)
Definition excludes (p : ascii) : bool :=
  negb (Ascii.eqb p "G") && (Ascii.eqb p "Y" || Ascii.eqb p "B").

(** The mask and the exclusion table after the first [n] positions of
    a turn that started in [st]. *)
Definition recorded (guess result_pattern : list ascii) (tryIdx : Z)
    (st : ConstraintState) (n : nat) (s : ConstraintState) : Prop :=
  (forall idx, (idx < WORD_SIZE)%nat ->
     char_at (pMask s) idx
     = if (idx <? n)%nat && Ascii.eqb (char_at result_pattern idx) "G"
       then toupper (char_at guess idx) else char_at (pMask st) idx)
  /\ (forall r idx, (idx < WORD_SIZE)%nat ->
        cell (notMask s) r idx
        = if (idx <? n)%nat && (r =? tryIdx - 1)%Z && excludes (char_at result_pattern idx)
          then toupper (char_at guess idx) else cell (notMask st) r idx).

(** A guess that cannot trip the exclusion of a required letter against
    [answer]: a word of the game without a repeated letter, or one whose
    feedback has no Black before a Green of the same letter. *)
Definition safe_guess (answer guess : list ascii) : Prop :=
  wordle_word guess
  /\ (NoDup guess \/ ~ black_before_green guess (get_feedback_pattern guess answer)).

(** From [k] occurrences, [m] Green or Yellow positions of a letter
    confirmed [F] times bring the requirement to this number. *)
Definition raised (F k m : nat) : nat :=
  if (k <? F)%nat then Nat.min F (k + m) else k.

(** The shape of the exclusion table. *)
Definition table_shape (m : list (list ascii)) : Prop :=
  length m = 6%nat /\ Forall (fun row => length row = WORD_SIZE) m.

(** After the first [n] positions: every letter marked Green or Yellow
    so far is required, and no letter of the answer is excluded. *)
Definition kept_so_far (guess fb answer : list ascii) (n : nat) (s : ConstraintState) : Prop :=
  (forall j, (j < n)%nat -> char_at fb j = "G" \/ char_at fb j = "Y" ->
             (1 <= occurrences (char_at guess j) (pGood s))%nat)
  /\ avoids_excluded (pBad s) answer.

(** ** The picks in terms of the admissible entries *)

(** The alternate the fallback block supplies for a primary word: the
    second entry of the list, unless there is none or it is the primary
    word itself. *)
Definition fallback_alternate (pSortedMetrics : list GUESS_METRICS) (numMetrics : Z)
    (primary : list ascii) : list ascii :=
  if (1 <? numMetrics)%Z && negb (str_eqb (word (metric_at pSortedMetrics 1)) primary)
  then word (metric_at pSortedMetrics 1) else NONE.

(** The picks read off the indices of the admissible entries: the first
    two of them; with one, that entry and the fallback alternate; with
    none, the first entry of the list and the fallback alternate. *)
Definition picks_by_admissible (pSortedMetrics : list GUESS_METRICS) (numMetrics : Z)
    : PICK_DATA :=
  match List.filter (fun i => admissible (metric_at pSortedMetrics i))
                    (seq 0 (Z.to_nat numMetrics)) with
  | i :: j :: _ =>
      {| pick_word := word (metric_at pSortedMetrics i);
         alternate_word := word (metric_at pSortedMetrics j) |}
  | [i] =>
      {| pick_word := word (metric_at pSortedMetrics i);
         alternate_word :=
           fallback_alternate pSortedMetrics numMetrics (word (metric_at pSortedMetrics i)) |}
  | [] =>
      if (0 <? numMetrics)%Z
      then {| pick_word := word (metric_at pSortedMetrics 0);
              alternate_word :=
                fallback_alternate pSortedMetrics numMetrics
                                   (word (metric_at pSortedMetrics 0)) |}
      else {| pick_word := NONE; alternate_word := NONE |}
  end.

(** The first [num] entries carry five-character words. *)
Definition five_letter_words (pArray : list GUESS_METRICS) (num : Z) : Prop :=
  forall i, (i < Z.to_nat num)%nat -> length (word (metric_at pArray i)) = WORD_SIZE.

(** ** The end of the game and repeated turns *)

(** No slot of the mask is open. *)
Definition mask_filled (st : ConstraintState) : Prop :=
  forall idx, (idx < WORD_SIZE)%nat -> char_at (pMask st) idx <> "*".

(** After the first [n] positions of a turn: the letter of every Black
    position is excluded, unless it is required. *)
Definition blacks_excluded (guess result_pattern : list ascii) (n : nat)
    (s : ConstraintState) : Prop :=
  forall j, (j < n)%nat -> char_at result_pattern j = "B" ->
            occurrences (toupper (char_at guess j)) (pGood s) = 0%nat ->
            In (toupper (char_at guess j)) (pBad s).

(** The character of a decimal digit. *)
Definition digit (d : nat) : ascii := ascii_of_nat (48 + d).

(** ** Sample data and tactics for literal inputs *)

(** Sample records. *)
Definition metric (s : string) (h : float) (r : Z) (n v : ascii) (risky : bool) :=
  {| word := w s; entropy := h; rank := r; is_risky := risky;
     nounType := n; verbType := v |}.

(** Thirty candidates, of which the first two matter. *)
Definition thirty (a b : GUESS_METRICS) : list GUESS_METRICS :=
  a :: b :: replicate 28 (metric "ZZZZZ" 0%float 0 "N" "N" false).

(** The state after guessing CRANE against TRACE in turn 1. *)
Definition state_crane_trace : ConstraintState :=
  update_game_constraints (w "CRANE") (w "YGGBG") initial_state 1.

(** Closes [wordle_word] goals on literal words. *)
Ltac literal_word := split; [reflexivity | repeat constructor].

(** Closes [valid_turn] goals on literal turns. *)
Ltac literal_turn :=
  repeat first
    [ reflexivity | lia
    | left; reflexivity | right; left; reflexivity | right; right; reflexivity
    | apply List.Forall_nil | apply List.Forall_cons | split ].



(** * Evaluation on sample inputs *)

Example feedback_llama_alarm :
  get_feedback_pattern (w "LLAMA") (w "ALARM") = w "BGGYY".
Proof. reflexivity. Qed.

Example feedback_crane_trace :
  get_feedback_pattern (w "CRANE") (w "TRACE") = w "YGGBG".
Proof. reflexivity. Qed.

(** Duplicate letters: only as many Yellows as the answer has unmatched
    occurrences. *)
Example feedback_abbey_bobby :
  get_feedback_pattern (w "ABBEY") (w "BOBBY") = w "BYGBG".
Proof. reflexivity. Qed.

Example feedback_llama_below :
  get_feedback_pattern (w "LLAMA") (w "BELOW") = w "YBBBB".
Proof. reflexivity. Qed.

Example risky_daddy :
  is_guess_word_risky (w "DADDY") (w "D") = true
  /\ is_guess_word_risky (w "DADDY") (w "DDD") = false
  /\ is_guess_word_risky (w "CRANE") [] = false.
Proof. vm_compute. auto. Qed.

Example update_llama_alarm :
  let st := update_game_constraints (w "LLAMA") (w "BGGYY") initial_state 1 in
  pMask st = w "*LA**" /\ pGood st = w "LAMA" /\ pBad st = w "L"
  /\ is_good_fit st (w "ALARM") = 0%Z.
Proof. vm_compute. auto. Qed.

Example filter_crane_trace :
  filter_possible_answers [w "CRANE"; w "SLATE"; w "TRACE"] 3 state_crane_trace
  = ([w "TRACE"; w "SLATE"; w "TRACE"], 1%Z).
Proof. vm_compute. reflexivity. Qed.

(** The scenarios of the specification: a gap of 0.75 bits among thirty
    candidates, a gap of 0.25 bits among thirty, and ten candidates. *)
Example final_pick_large_gap :
  let slate := metric "SLATE" 2%float 80 "S" "N" false in
  let crane := metric "CRANE" 2.75%float 50 "S" "N" false in
  final_word
    (determine_final_pick (thirty slate crane) (thirty crane slate) 30
       {| pick_word := w "SLATE"; alternate_word := w "CRANE" |}
       {| pick_word := w "CRANE"; alternate_word := w "SLATE" |})
  = w "CRANE".
Proof. vm_compute. reflexivity. Qed.

Example final_pick_small_gap :
  let slate := metric "SLATE" 2%float 80 "S" "N" false in
  let crane := metric "CRANE" 2.25%float 50 "S" "N" false in
  final_word
    (determine_final_pick (thirty slate crane) (thirty crane slate) 30
       {| pick_word := w "SLATE"; alternate_word := w "CRANE" |}
       {| pick_word := w "CRANE"; alternate_word := w "SLATE" |})
  = w "SLATE".
Proof. vm_compute. reflexivity. Qed.

Example final_pick_small_set :
  let cakes := metric "CAKES" 1%float 90 "P" "N" false in
  let slate := metric "SLATE" 2%float 80 "S" "N" false in
  let crane := metric "CRANE" 2.75%float 50 "S" "N" false in
  let rest := replicate 7 (metric "ZZZZZ" 0%float 0 "N" "N" false) in
  final_word
    (determine_final_pick (cakes :: slate :: crane :: rest) (crane :: slate :: cakes :: rest) 10
       {| pick_word := w "SLATE"; alternate_word := w "CRANE" |}
       {| pick_word := w "CRANE"; alternate_word := w "SLATE" |})
  = w "CAKES".
Proof. vm_compute. reflexivity. Qed.

(** * Properties *)

(** ** Loops, characters and tables *)

Lemma for_loop_S {S : Type} n (body : S -> nat -> S) s0 :
  for_loop (Datatypes.S n) body s0 = body (for_loop n body s0) n.
Proof.
  unfold for_loop. rewrite seq_S, fold_left_app. reflexivity.
Qed.

Lemma fold_seq_chars {S : Type} (f : S -> ascii -> S) (pre s : list ascii) (a : S) :
  fold_left (fun acc i => f acc (char_at (pre ++ s) i)) (seq (length pre) (length s)) a
  = fold_left f s a.
Proof.
  revert pre a. induction s as [|x s IH]; intros pre a; [reflexivity|].
  cbn [length seq fold_left].
  replace (char_at (pre ++ x :: s) (length pre)) with x.
  - replace (pre ++ x :: s) with ((pre ++ [x]) ++ s) by (rewrite <- app_assoc; reflexivity).
    replace (Datatypes.S (length pre)) with (length (pre ++ [x]))
      by (rewrite length_app; simpl; lia).
    apply IH.
  - unfold char_at. rewrite app_nth2, Nat.sub_diag by lia. reflexivity.
Qed.

(** A loop that only reads [s[i]] for [i < strlen(s)] is a fold over [s]. *)
Lemma for_loop_chars {S : Type} (f : S -> ascii -> S) (s : list ascii) (a : S) :
  for_loop (length s) (fun acc i => f acc (char_at s i)) a = fold_left f s a.
Proof. apply (fold_seq_chars f [] s a). Qed.

Lemma letter_index_inj c d : letter_index c = letter_index d -> c = d.
Proof.
  unfold letter_index. intros H.
  rewrite <- (ascii_nat_embedding c), <- (ascii_nat_embedding d).
  f_equal. lia.
Qed.

Lemma letter_of_index_index c :
  is_upper c = true -> letter_of_index (Z.to_nat (letter_index c)) = c.
Proof.
  unfold is_upper, letter_of_index, letter_index. intros H.
  apply andb_prop in H as [H1 H2].
  apply Z.leb_le in H1. apply Z.ltb_lt in H2.
  replace (65 + Z.to_nat (Z.of_nat (nat_of_ascii c) - 65))%nat with (nat_of_ascii c) by lia.
  apply ascii_nat_embedding.
Qed.

Lemma index_letter_of_index i :
  (i < 26)%nat -> letter_index (letter_of_index i) = Z.of_nat i
                  /\ is_upper (letter_of_index i) = true.
Proof.
  intros H. unfold is_upper, letter_index, letter_of_index.
  rewrite nat_ascii_embedding by lia.
  split; [lia|]. apply andb_true_intro; split; [apply Z.leb_le | apply Z.ltb_lt]; lia.
Qed.

Lemma is_upper_range c :
  is_upper c = true -> (0 <= letter_index c < 26)%Z.
Proof.
  unfold is_upper. intros H. apply andb_prop in H as [H1 H2].
  apply Z.leb_le in H1. apply Z.ltb_lt in H2. lia.
Qed.

Lemma upper_not_nul c : is_upper c = true -> c <> Ascii.zero.
Proof. intros H ->. discriminate H. Qed.

Lemma upper_not_star c : is_upper c = true -> c <> "*".
Proof. intros H ->. discriminate H. Qed.

Lemma toupper_upper c : is_upper c = true -> toupper c = c.
Proof.
  intros H. apply is_upper_range in H. unfold toupper, is_lower, letter_index in *.
  destruct (97 <=? nat_of_ascii c)%nat eqn:E; [|reflexivity].
  apply Nat.leb_le in E. lia.
Qed.

Lemma ascii_eqb_eq c d : Ascii.eqb c d = true <-> c = d.
Proof. apply Ascii.eqb_eq. Qed.

Lemma ascii_eqb_neq c d : Ascii.eqb c d = false <-> c <> d.
Proof. apply Ascii.eqb_neq. Qed.

Lemma arr_set_length t i v : length (arr_set t i v) = length t.
Proof. unfold arr_set. destruct (0 <=? i)%Z; [apply length_insert | reflexivity]. Qed.

Lemma arr_get_set_eq t i v :
  (0 <= i < Z.of_nat (length t))%Z -> arr_get (arr_set t i v) i = v.
Proof.
  intros H. unfold arr_get, arr_set.
  destruct (0 <=? i)%Z eqn:E; [|apply Z.leb_gt in E; lia].
  rewrite list_lookup_insert_eq by lia. reflexivity.
Qed.

Lemma arr_get_set_ne t i j v :
  (0 <= i)%Z -> (0 <= j)%Z -> i <> j -> arr_get (arr_set t i v) j = arr_get t j.
Proof.
  intros Hi Hj Hne. unfold arr_get, arr_set.
  destruct (0 <=? i)%Z eqn:E; [|reflexivity].
  destruct (0 <=? j)%Z; [|reflexivity].
  rewrite list_lookup_insert_ne by lia. reflexivity.
Qed.

Lemma represents_zero : represents zero_table (fun _ => 0%nat).
Proof.
  split; [reflexivity|]. intros c H. apply is_upper_range in H.
  unfold arr_get, zero_table.
  destruct (0 <=? letter_index c)%Z; [|reflexivity].
  rewrite lookup_replicate_2 by lia. reflexivity.
Qed.

Lemma represents_inc t f c :
  represents t f -> is_upper c = true ->
  represents (arr_inc t (letter_index c))
             (fun x => ((if Ascii.eqb c x then 1 else 0) + f x)%nat).
Proof.
  intros [Hlen Hget] Hc. split; [unfold arr_inc; rewrite arr_set_length; exact Hlen|].
  intros x Hx. unfold arr_inc.
  pose proof (is_upper_range _ Hc). pose proof (is_upper_range _ Hx).
  destruct (Ascii.eqb c x) eqn:E.
  - apply ascii_eqb_eq in E. subst x.
    rewrite arr_get_set_eq by lia. rewrite Hget by assumption. lia.
  - apply ascii_eqb_neq in E.
    rewrite arr_get_set_ne; [apply Hget; assumption | lia | lia |].
    intros Heq. apply E. apply letter_index_inj. exact Heq.
Qed.

Lemma represents_dec t f c :
  represents t f -> is_upper c = true -> (0 < f c)%nat ->
  represents (arr_dec t (letter_index c))
             (fun x => if Ascii.eqb c x then (f x - 1)%nat else f x).
Proof.
  intros [Hlen Hget] Hc Hpos. split; [unfold arr_dec; rewrite arr_set_length; exact Hlen|].
  intros x Hx. unfold arr_dec.
  pose proof (is_upper_range _ Hc). pose proof (is_upper_range _ Hx).
  destruct (Ascii.eqb c x) eqn:E.
  - apply ascii_eqb_eq in E. subst x.
    rewrite arr_get_set_eq by lia. rewrite Hget by assumption. lia.
  - apply ascii_eqb_neq in E.
    rewrite arr_get_set_ne; [apply Hget; assumption | lia | lia |].
    intros Heq. apply E. apply letter_index_inj. exact Heq.
Qed.

Lemma represents_ext t f g :
  represents t f -> (forall c, f c = g c) -> represents t g.
Proof. intros [Hl Hg] Hfg. split; [exact Hl|]. intros c Hc. rewrite <- Hfg. auto. Qed.

(** The tally loop counts multiplicities. *)
Lemma fold_tally_represents s t f :
  upper_word s -> represents t f ->
  represents (fold_left (fun t c => arr_inc t (letter_index c)) s t)
             (fun x => (occurrences x s + f x)%nat).
Proof.
  intros Hs. revert t f. induction Hs as [|c s Hc Hs IH]; intros t f Ht.
  - simpl. exact Ht.
  - cbn [fold_left]. eapply represents_ext.
    + apply IH. apply represents_inc; eassumption.
    + intros x. cbn [occurrences]. lia.
Qed.

Lemma tally_represents s :
  upper_word s -> represents (tally s) (fun x => occurrences x s).
Proof.
  intros Hs. eapply represents_ext.
  - apply (fold_tally_represents s zero_table _ Hs represents_zero).
  - intros c. simpl. lia.
Qed.

(** ** Feedback pattern: the loops compute the reference *)

Section FeedbackRefinement.

Lemma char_at_middle (pre : list ascii) x post : char_at (pre ++ x :: post) (length pre) = x.
Proof. unfold char_at. rewrite app_nth2, Nat.sub_diag by lia. reflexivity. Qed.

Lemma char_at_middle_at (pre : list ascii) x post k :
  length pre = k -> char_at (pre ++ x :: post) k = x.
Proof. intros <-. apply char_at_middle. Qed.

Lemma insert_middle (pre : list ascii) x y post :
  <[length pre := y]> (pre ++ x :: post) = (pre ++ [y]) ++ post.
Proof.
  rewrite insert_app_r_alt, Nat.sub_diag by lia. simpl.
  rewrite <- app_assoc. reflexivity.
Qed.

Lemma snoc_shift (pre : list ascii) x post : pre ++ x :: post = (pre ++ [x]) ++ post.
Proof. rewrite <- app_assoc. reflexivity. Qed.

Lemma snoc_length (pre : list ascii) x : length (pre ++ [x]) = S (length pre).
Proof. rewrite length_app. simpl. lia. Qed.

Lemma green_step_at gpre apre rpre g a gs ans rest t :
  length gpre = length rpre -> length apre = length rpre ->
  green_step (gpre ++ g :: gs) (apre ++ a :: ans) (rpre ++ "B" :: rest, t) (length rpre)
  = if Ascii.eqb g a
    then ((rpre ++ ["G"]) ++ rest, t)
    else ((rpre ++ ["B"]) ++ rest, arr_inc t (letter_index a)).
Proof.
  intros Hg Ha. unfold green_step.
  rewrite (char_at_middle_at gpre), !(char_at_middle_at apre) by assumption.
  destruct (Ascii.eqb g a).
  - rewrite insert_middle. reflexivity.
  - rewrite <- snoc_shift. reflexivity.
Qed.

Lemma green_char_is_G b : Ascii.eqb (green_char b) "G" = b.
Proof. destruct b; reflexivity. Qed.

Lemma yellow_step_at gpre rpre g gs b rest t :
  length gpre = length rpre ->
  yellow_step (gpre ++ g :: gs) (rpre ++ green_char b :: rest, t) (length rpre)
  = if b then ((rpre ++ ["G"]) ++ rest, t)
    else if (0 <? arr_get t (letter_index g))%Z
         then ((rpre ++ ["Y"]) ++ rest, arr_dec t (letter_index g))
         else ((rpre ++ ["B"]) ++ rest, t).
Proof.
  intros Hg. unfold yellow_step.
  rewrite char_at_middle, green_char_is_G.
  rewrite !(char_at_middle_at gpre) by assumption.
  destruct b; cbn [negb green_char].
  - rewrite <- snoc_shift. reflexivity.
  - destruct (0 <? arr_get t (letter_index g))%Z.
    + rewrite insert_middle. reflexivity.
    + rewrite <- snoc_shift. reflexivity.
Qed.

(** The first loop, started anywhere in the word. *)
Lemma green_loop gs : forall ans gpre apre rpre t f,
  length gs = length ans -> length gpre = length rpre -> length apre = length rpre ->
  upper_word ans -> represents t f ->
  green_post rpre gs ans f
    (fold_left (green_step (gpre ++ gs) (apre ++ ans))
               (seq (length rpre) (length gs))
               (rpre ++ replicate (length gs) "B", t)).
Proof.
  induction gs as [|g gs IH]; intros ans gpre apre rpre t f Hlen Hg Ha Hup Ht.
  - destruct ans; [|discriminate]. split; [reflexivity | exact Ht].
  - destruct ans as [|a ans]; [discriminate|].
    injection Hlen as Hlen. inversion Hup as [|? ? Hua Hup']; subst.
    cbn [length seq fold_left replicate].
    rewrite green_step_at by assumption.
    rewrite (snoc_shift gpre), (snoc_shift apre).
    unfold green_post. cbn [greens unmatched map].
    destruct (Ascii.eqb g a) eqn:E.
    + rewrite <- (snoc_length rpre "G").
      replace (rpre ++ green_char true :: map green_char (greens gs ans))
        with ((rpre ++ ["G"]) ++ map green_char (greens gs ans))
        by (rewrite <- app_assoc; reflexivity).
      apply IH; rewrite ?snoc_length; auto.
    + rewrite <- (snoc_length rpre "B").
      replace (rpre ++ green_char false :: map green_char (greens gs ans))
        with ((rpre ++ ["B"]) ++ map green_char (greens gs ans))
        by (rewrite <- app_assoc; reflexivity).
      assert (Hg' : length (gpre ++ [g]) = length (rpre ++ ["B"]))
        by (rewrite !snoc_length; auto).
      assert (Ha' : length (apre ++ [a]) = length (rpre ++ ["B"]))
        by (rewrite !snoc_length; auto).
      destruct (IH ans (gpre ++ [g]) (apre ++ [a]) (rpre ++ ["B"])
                  (arr_inc t (letter_index a))
                  (fun x => ((if Ascii.eqb a x then 1 else 0) + f x)%nat)
                  Hlen Hg' Ha' Hup' (represents_inc _ _ _ Ht Hua))
        as [IH1 IH2].
      split; [exact IH1|].
      eapply represents_ext; [exact IH2|].
      intros c. cbn [occurrences]. lia.
Qed.

Lemma push_mark (rpre : list ascii) (m : mark) (ms : list mark) :
  rpre ++ map mark_char (m :: ms) = (rpre ++ [mark_char m]) ++ map mark_char ms.
Proof. rewrite <- app_assoc. reflexivity. Qed.

(** The second loop, started anywhere in the word. *)
Lemma yellow_loop gs : forall gr gpre rpre t f,
  length gs = length gr -> length gpre = length rpre ->
  upper_word gs -> represents t f ->
  fst (fold_left (yellow_step (gpre ++ gs))
                 (seq (length rpre) (length gs))
                 (rpre ++ map green_char gr, t))
  = rpre ++ map mark_char (yellows gs gr f).
Proof.
  induction gs as [|g gs IH]; intros gr gpre rpre t f Hlen Hg Hup Ht.
  - destruct gr; [|discriminate]. reflexivity.
  - destruct gr as [|b gr]; [discriminate|].
    injection Hlen as Hlen. inversion Hup as [|? ? Hug Hup']; subst.
    cbn [length seq fold_left map].
    rewrite yellow_step_at by assumption.
    rewrite (snoc_shift gpre).
    destruct b; cbn [yellows].
    + rewrite <- (snoc_length rpre "G").
      rewrite (push_mark rpre Green).
      apply IH; rewrite ?snoc_length; auto.
    + pose proof Ht as [Hl Hget]. rewrite (Hget g Hug).
      destruct (0 <? f g)%nat eqn:E.
      * apply Nat.ltb_lt in E.
        replace (0 <? Z.of_nat (f g))%Z with true by (symmetry; apply Z.ltb_lt; lia).
        rewrite <- (snoc_length rpre "Y").
        rewrite (push_mark rpre Yellow).
        apply IH; rewrite ?snoc_length; auto.
        apply represents_dec; assumption.
      * apply Nat.ltb_ge in E.
        replace (0 <? Z.of_nat (f g))%Z with false by (symmetry; apply Z.ltb_ge; lia).
        rewrite <- (snoc_length rpre "B").
        rewrite (push_mark rpre Black).
        apply IH; rewrite ?snoc_length; auto.
Qed.

Lemma yellows_ext gs : forall gr f f',
  (forall c, f c = f' c) -> yellows gs gr f = yellows gs gr f'.
Proof.
  induction gs as [|g gs IH]; intros gr f f' H; [reflexivity|].
  destruct gr as [|[] gr]; cbn [yellows]; [reflexivity | f_equal; auto |].
  rewrite <- H. destruct (0 <? f g)%nat; f_equal; apply IH; auto.
  intros c. unfold take_one. rewrite H. reflexivity.
Qed.

Lemma greens_length gs : forall ans, length gs = length ans -> length (greens gs ans) = length gs.
Proof.
  induction gs as [|g gs IH]; intros [|a ans] H; try discriminate; [reflexivity|].
  simpl. f_equal. apply IH. simpl in H. lia.
Qed.

(** The program computes the reference pattern on upper-case words of
    equal length. *)
Lemma feedback_loops_refine n guess answer :
  length guess = n -> length answer = n -> upper_word guess -> upper_word answer ->
  fst (for_loop n (yellow_step guess)
         (for_loop n (green_step guess answer) (replicate n "B", zero_table)))
  = map mark_char (reference_pattern guess answer).
Proof.
  intros Hg Ha Hug Hua. unfold for_loop. subst n.
  pose proof (green_loop guess answer [] [] [] zero_table _
                (eq_sym Ha) eq_refl eq_refl Hua represents_zero) as [H1 H2].
  cbn [app length] in H1, H2.
  destruct (fold_left (green_step guess answer) (seq 0 (length guess))
              (replicate (length guess) "B", zero_table)) as [res t] eqn:E.
  simpl in H1, H2. subst res.
  pose proof (yellow_loop guess (greens guess answer) [] [] t _
                (eq_sym (greens_length guess answer (eq_sym Ha))) eq_refl Hug H2) as H3.
  simpl in H3. rewrite H3. unfold reference_pattern. f_equal.
  apply yellows_ext. intros c. lia.
Qed.

Lemma feedback_refines guess answer :
  wordle_word guess -> wordle_word answer ->
  get_feedback_pattern guess answer = map mark_char (reference_pattern guess answer).
Proof.
  intros [Hg Hug] [Ha Hua]. apply feedback_loops_refine; assumption.
Qed.

End FeedbackRefinement.

(** ** Feedback pattern: agreement with the reference, greedy Yellows *)

Section FeedbackFacts.

Lemma greens_self s : greens s s = replicate (length s) true.
Proof.
  induction s as [|c s IH]; [reflexivity|].
  cbn [greens length replicate]. rewrite Ascii.eqb_refl, IH. reflexivity.
Qed.

Lemma yellows_all_green s f :
  yellows s (replicate (length s) true) f = replicate (length s) Green.
Proof.
  induction s as [|c s IH]; [reflexivity|].
  cbn [length replicate yellows]. rewrite IH. reflexivity.
Qed.

Lemma reference_self s : reference_pattern s s = replicate (length s) Green.
Proof. unfold reference_pattern. rewrite greens_self. apply yellows_all_green. Qed.

Lemma map_mark_replicate n m : map mark_char (replicate n m) = replicate n (mark_char m).
Proof. induction n as [|n IH]; [reflexivity|]. simpl. rewrite IH. reflexivity. Qed.

(** Once a letter has no remaining count, none of its later positions
    is Yellow. *)
Lemma yellows_exhausted gs : forall gr f L j,
  f L = 0%nat -> gs !! j = Some L -> yellows gs gr f !! j <> Some Yellow.
Proof.
  induction gs as [|g gs IH]; intros gr f L j Hf Hj; [discriminate|].
  destruct gr as [|b gr]; [cbn [yellows]; discriminate|].
  destruct j as [|j].
  - injection Hj as ->. destruct b; cbn [yellows]; [discriminate|].
    rewrite Hf. discriminate.
  - cbn [lookup list_lookup] in Hj.
    destruct b; cbn [yellows]; [apply (IH gr f L j Hf Hj)|].
    destruct (0 <? f g)%nat eqn:E; cbn [lookup list_lookup].
    + apply (IH gr _ L j); [|exact Hj].
      unfold take_one. destruct (Ascii.eqb g L); lia.
    + apply (IH gr f L j Hf Hj).
Qed.

(** In the reference pattern a Black for a letter is never followed by
    a Yellow for the same letter. *)
Lemma yellows_black_before_yellow gs : forall gr f L i j,
  (i < j)%nat -> gs !! i = Some L -> gs !! j = Some L ->
  yellows gs gr f !! i = Some Black -> yellows gs gr f !! j <> Some Yellow.
Proof.
  induction gs as [|g gs IH]; intros gr f L i j Hij Hi Hj HB; [discriminate|].
  destruct gr as [|b gr]; [discriminate|].
  destruct j as [|j]; [lia|]. cbn [lookup list_lookup] in Hj.
  destruct i as [|i].
  - injection Hi as ->.
    destruct b; cbn [yellows] in *; [discriminate|].
    destruct (0 <? f L)%nat eqn:E; [discriminate|].
    apply Nat.ltb_ge in E. cbn [lookup list_lookup].
    apply (yellows_exhausted gs gr f L j); [lia | exact Hj].
  - cbn [lookup list_lookup] in Hi.
    destruct b; cbn [yellows] in *.
    + apply (IH gr f L i j); [lia | assumption..].
    + destruct (0 <? f g)%nat; cbn [lookup list_lookup] in *;
        eapply (IH gr _ L i j); try eassumption; lia.
Qed.

Lemma char_at_lookup (s : list ascii) i c :
  (i < length s)%nat -> char_at s i = c -> s !! i = Some c.
Proof.
  intros Hi <-. unfold char_at.
  destruct (s !! i) eqn:E.
  - erewrite nth_lookup_Some; [reflexivity | exact E].
  - apply lookup_ge_None in E. lia.
Qed.

Lemma mark_char_inj m m' : mark_char m = mark_char m' -> m = m'.
Proof. destruct m, m'; simpl; intros H; try reflexivity; discriminate H. Qed.

Lemma lookup_map_mark (ms : list mark) i m :
  map mark_char ms !! i = Some (mark_char m) -> ms !! i = Some m.
Proof.
  change (map mark_char ms) with (mark_char <$> ms).
  rewrite list_lookup_fmap. destruct (ms !! i) as [m'|]; [|discriminate].
  simpl. intros H. injection H as H. apply mark_char_inj in H. subst. reflexivity.
Qed.

Lemma reference_length gs : forall gr f,
  length gs = length gr -> length (yellows gs gr f) = length gs.
Proof.
  induction gs as [|g gs IH]; intros [|b gr] f H; try discriminate; [reflexivity|].
  injection H as H. cbn [yellows]. destruct b; [|destruct (0 <? f g)%nat];
    cbn [length]; f_equal; apply IH; assumption.
Qed.

End FeedbackFacts.

(** C4: for every pair of 5-letter upper-case words, [get_feedback_pattern]
    returns exactly the pattern of the two-pass reference definition
    (pass 1: Green iff the letters agree, the unmatched letters of the
    answer tallied; pass 2: over the non-Green positions, Yellow iff the
    guessed letter has a remaining count, which is decremented, Black
    otherwise); and a word evaluated against itself is all Green. *)
Theorem get_feedback_pattern_two_pass guess answer :
  wordle_word guess -> wordle_word answer ->
  get_feedback_pattern guess answer = map mark_char (reference_pattern guess answer)
  /\ get_feedback_pattern guess guess = w "GGGGG".
Proof.
  intros Hg Ha. split; [apply feedback_refines; assumption|].
  rewrite (feedback_refines guess guess Hg Hg), reference_self, map_mark_replicate.
  destruct Hg as [-> _]. reflexivity.
Qed.

Lemma get_feedback_pattern_two_pass_witness :
  get_feedback_pattern (w "LLAMA") (w "ALARM")
    = map mark_char (reference_pattern (w "LLAMA") (w "ALARM"))
  /\ get_feedback_pattern (w "LLAMA") (w "LLAMA") = w "GGGGG".
Proof.
  apply (get_feedback_pattern_two_pass (w "LLAMA") (w "ALARM")); literal_word.
Defined.

(** C9: in the pattern returned by [get_feedback_pattern], for any letter
    of the guess, every position of that letter marked Yellow lies
    strictly to the left of every position of it marked Black: the
    Yellows are handed out greedily from the left, and Black followed by
    Yellow for one letter does not occur. *)
Theorem yellow_left_of_black guess answer p q :
  wordle_word guess -> wordle_word answer ->
  (p < WORD_SIZE)%nat -> (q < WORD_SIZE)%nat ->
  char_at guess p = char_at guess q ->
  char_at (get_feedback_pattern guess answer) p = "Y" ->
  char_at (get_feedback_pattern guess answer) q = "B" ->
  (p < q)%nat.
Proof.
  intros Hg Ha Hp Hq Hsame HY HB.
  rewrite (feedback_refines guess answer Hg Ha) in HY, HB.
  destruct Hg as [Hlg Hug], Ha as [Hla Hua].
  assert (Hlen : length (map mark_char (reference_pattern guess answer)) = WORD_SIZE).
  { rewrite length_map. unfold reference_pattern.
    rewrite reference_length; [exact Hlg | symmetry; apply greens_length; congruence]. }
  apply char_at_lookup in HY; [|lia]. apply char_at_lookup in HB; [|lia].
  apply (lookup_map_mark _ _ Yellow) in HY. apply (lookup_map_mark _ _ Black) in HB.
  destruct (Nat.lt_trichotomy p q) as [Hlt|[Heq|Hgt]]; [exact Hlt | |].
  - subst q. rewrite HY in HB. discriminate.
  - exfalso. unfold reference_pattern in HY, HB.
    refine (yellows_black_before_yellow guess _ _ (char_at guess q) q p
              Hgt _ _ HB HY).
    + apply char_at_lookup; [lia | reflexivity].
    + apply char_at_lookup; [lia | exact Hsame].
Qed.

Lemma yellow_left_of_black_witness : (0 < 1)%nat.
Proof.
  apply (yellow_left_of_black (w "LLAMA") (w "BELOW") 0 1);
    first [literal_word | reflexivity | unfold WORD_SIZE; lia].
Defined.

(** ** Candidate filter: the four conditions *)

Section FilterFacts.

Lemma fold_count_occurrences (c : ascii) (s : list ascii) (n : Z) :
  fold_left (fun n x => if Ascii.eqb x c then (n + 1)%Z else n) s n
  = (n + Z.of_nat (occurrences c s))%Z.
Proof.
  revert n. induction s as [|x s IH]; intros n; cbn [fold_left occurrences]; [lia|].
  rewrite IH. destruct (Ascii.eqb x c); lia.
Qed.

Lemma word_count_occurrences (pWord : list ascii) (c : ascii) :
  length pWord = WORD_SIZE -> word_count pWord c = Z.of_nat (occurrences c pWord).
Proof.
  intros H. unfold word_count. rewrite <- H.
  rewrite (for_loop_chars (fun n x => if Ascii.eqb x c then (n + 1)%Z else n)).
  apply fold_count_occurrences.
Qed.

Lemma occurrences_pos_In c s : (0 < occurrences c s)%nat <-> In c s.
Proof.
  induction s as [|x s IH]; cbn [occurrences In]; [split; [lia | tauto]|].
  destruct (Ascii.eqb x c) eqn:E.
  - apply ascii_eqb_eq in E. split; [auto | lia].
  - apply ascii_eqb_neq in E. rewrite <- IH. split; [intros; right; lia|].
    intros [H|H]; [contradiction | lia].
Qed.

Lemma upper_word_In s c : upper_word s -> In c s -> is_upper c = true.
Proof. intros H Hin. unfold upper_word in H. rewrite List.Forall_forall in H. auto. Qed.

Lemma required_counts_ok_iff (pGood pWord : list ascii) :
  upper_word pGood -> length pWord = WORD_SIZE ->
  required_counts_ok pGood pWord = true <-> meets_required pGood pWord.
Proof.
  intros Hup Hlen. destruct (tally_represents pGood Hup) as [_ Hget].
  unfold required_counts_ok, meets_required. rewrite forallb_forall. split.
  - intros H c Hpos.
    assert (Hc : is_upper c = true)
      by (apply (upper_word_In pGood); [assumption | apply occurrences_pos_In; assumption]).
    pose proof (is_upper_range c Hc) as Hr.
    specialize (H (Z.to_nat (letter_index c))).
    rewrite Z2Nat.id, (letter_of_index_index c Hc), (Hget c Hc) in H by lia.
    rewrite (word_count_occurrences pWord c Hlen) in H.
    assert (Hin : In (Z.to_nat (letter_index c)) (seq 0 26)) by (apply in_seq; lia).
    specialize (H Hin).
    destruct (0 <? Z.of_nat (occurrences c pGood))%Z eqn:E;
      [|apply Z.ltb_ge in E; lia].
    apply negb_true_iff, Z.ltb_ge in H. lia.
  - intros H i Hi. apply in_seq in Hi.
    destruct (index_letter_of_index i) as [Hidx Hc]; [lia|].
    rewrite <- Hidx, (Hget _ Hc), (word_count_occurrences pWord _ Hlen).
    destruct (0 <? Z.of_nat (occurrences (letter_of_index i) pGood))%Z eqn:E;
      [|reflexivity].
    apply Z.ltb_lt in E. apply negb_true_iff, Z.ltb_ge.
    specialize (H (letter_of_index i)). lia.
Qed.

Lemma strchr_In s c : c <> Ascii.zero -> strchr s c = true <-> In c s.
Proof.
  intros Hc. unfold strchr.
  destruct (Ascii.eqb c Ascii.zero) eqn:E; [apply ascii_eqb_eq in E; contradiction|].
  rewrite existsb_exists. split.
  - intros [x [Hin Hx]]. apply ascii_eqb_eq in Hx. subst. assumption.
  - intros Hin. exists c. split; [assumption | apply Ascii.eqb_refl].
Qed.

Lemma In_char_at (s : list ascii) c :
  In c s <-> exists idx, (idx < length s)%nat /\ char_at s idx = c.
Proof.
  unfold char_at. split.
  - intros H. apply (In_nth s c Ascii.zero) in H. exact H.
  - intros [idx [Hlt <-]]. apply nth_In. exact Hlt.
Qed.

Lemma position_ok_iff st pWord idx :
  is_upper (char_at pWord idx) = true ->
  position_ok st pWord idx = true <->
  (~ In (char_at pWord idx) (pBad st))
  /\ (char_at (pMask st) idx <> "*" -> char_at pWord idx = char_at (pMask st) idx)
  /\ ~ forbidden_at (notMask st) idx (char_at pWord idx).
Proof.
  intros Hup. unfold position_ok.
  pose proof (strchr_In (pBad st) _ (upper_not_nul _ Hup)) as Hbad.
  destruct (strchr (pBad st) (char_at pWord idx)).
  { split; [discriminate|]. intros [H _]. exfalso. apply H, Hbad. reflexivity. }
  assert (Hnot : ~ In (char_at pWord idx) (pBad st))
    by (intros H; apply Hbad in H; discriminate).
  destruct (Ascii.eqb (char_at (pMask st) idx) "*") eqn:E1; cbn [negb andb].
  - apply ascii_eqb_eq in E1.
    rewrite forallb_forall. split.
    + intros H. split; [assumption|]. split; [intros H'; contradiction|].
      intros [_ [turn [Ht Hc]]].
      specialize (H turn). rewrite Hc, Ascii.eqb_refl in H.
      discriminate H. apply in_seq. lia.
    + intros [_ [_ H]] turn Ht. apply in_seq in Ht.
      apply negb_true_iff, ascii_eqb_neq. intros Heq. apply H.
      split; [apply upper_not_star; assumption|]. exists turn. split; [lia | exact Heq].
  - apply ascii_eqb_neq in E1.
    destruct (Ascii.eqb (char_at (pMask st) idx) (char_at pWord idx)) eqn:E2; cbn [negb].
    + apply ascii_eqb_eq in E2.
      rewrite forallb_forall. split.
      * intros H. split; [assumption|]. split; [intros _; symmetry; exact E2|].
        intros [_ [turn [Ht Hc]]].
        specialize (H turn). rewrite Hc, Ascii.eqb_refl in H.
        discriminate H. apply in_seq. lia.
      * intros [_ [_ H]] turn Ht. apply in_seq in Ht.
        apply negb_true_iff, ascii_eqb_neq. intros Heq. apply H.
        split; [apply upper_not_star; assumption|]. exists turn. split; [lia | exact Heq].
    + apply ascii_eqb_neq in E2. split; [discriminate|].
      intros [_ [H _]]. exfalso. apply E2. symmetry. apply H. exact E1.
Qed.

Lemma is_good_fit_bit st pWord : is_good_fit st pWord = 0%Z \/ is_good_fit st pWord = 1%Z.
Proof.
  unfold is_good_fit.
  destruct (required_counts_ok (pGood st) pWord); cbn [negb]; [|left; reflexivity].
  destruct (forallb (position_ok st pWord) (seq 0 WORD_SIZE)); [right | left]; reflexivity.
Qed.

(** [is_good_fit] returns 1 exactly on the words that meet the four
    conditions. *)
Lemma is_good_fit_iff st pWord :
  upper_word (pGood st) -> wordle_word pWord ->
  is_good_fit st pWord = 1%Z <-> passes st pWord.
Proof.
  intros Hgood [Hlen Hup]. unfold is_good_fit, passes.
  pose proof (required_counts_ok_iff (pGood st) pWord Hgood Hlen) as Hreq.
  assert (Hchars : forall idx, (idx < WORD_SIZE)%nat -> is_upper (char_at pWord idx) = true).
  { intros idx Hidx. apply (upper_word_In pWord); [assumption|].
    apply In_char_at. exists idx. split; [lia | reflexivity]. }
  assert (Hpos : forallb (position_ok st pWord) (seq 0 WORD_SIZE) = true <->
                 avoids_excluded (pBad st) pWord /\ matches_mask (pMask st) pWord
                 /\ avoids_forbidden (notMask st) pWord).
  { rewrite forallb_forall. split.
    - intros H. repeat split.
      + intros c Hc. apply In_char_at in Hc as [idx [Hidx <-]].
        rewrite Hlen in Hidx.
        apply (position_ok_iff st pWord idx (Hchars idx Hidx)), H, in_seq. lia.
      + intros idx Hidx.
        apply (position_ok_iff st pWord idx (Hchars idx Hidx)), H, in_seq. lia.
      + intros idx Hidx.
        apply (position_ok_iff st pWord idx (Hchars idx Hidx)), H, in_seq. lia.
    - intros [Hb [Hm Hf]] idx Hidx. apply in_seq in Hidx.
      apply position_ok_iff; [apply Hchars; lia|].
      split; [|split; [apply Hm; lia | apply Hf; lia]].
      apply Hb, In_char_at. exists idx. split; [lia | reflexivity]. }
  destruct (required_counts_ok (pGood st) pWord); cbn [negb].
  - destruct (forallb (position_ok st pWord) (seq 0 WORD_SIZE)).
    + split; [intros _ | reflexivity]. split; [apply Hreq; reflexivity | apply Hpos; reflexivity].
    + split; [discriminate|]. intros [_ H]. apply Hpos in H. discriminate.
  - split; [discriminate|]. intros [H _]. apply Hreq in H. discriminate.
Qed.

End FilterFacts.

(** ** Candidate filter: in-place compaction *)

Section FilterLoop.

Variable st : ConstraintState.

Lemma nth_drop_same {A : Type} (l l' : list A) i d :
  drop i l = drop i l' -> nth i l d = nth i l' d.
Proof.
  intros H. rewrite !nth_lookup, <- (Nat.add_0_r i), <- !lookup_drop, H. reflexivity.
Qed.

Lemma drop_S_same {A : Type} (l l' : list A) i :
  drop i l = drop i l' -> drop (S i) l = drop (S i) l'.
Proof.
  intros H. replace (S i) with (i + 1)%nat by lia.
  rewrite <- !drop_drop, H. reflexivity.
Qed.

Lemma lookup_nth_lt {A : Type} (l : list A) i d :
  (i < length l)%nat -> l !! i = Some (nth i l d).
Proof. intros H. destruct (nth_lookup_or_length l i d) as [E|E]; [exact E | lia]. Qed.

(** After [i] rounds the first [numNewAnswers] slots hold the (kept st) words
    of the first [i] candidates, in order, and the slots from [i] on are
    untouched. *)
Lemma filter_loop_invariant (cands : list (list ascii)) i :
  (i <= length cands)%nat ->
  let '(arr, m) := for_loop i (filter_step st) (cands, 0%Z) in
  m = Z.of_nat (length (List.filter (kept st) (take i cands)))
  /\ take (Z.to_nat m) arr = List.filter (kept st) (take i cands)
  /\ drop i arr = drop i cands
  /\ length arr = length cands.
Proof.
  induction i as [|i IH]; intros Hi.
  - cbn. rewrite take_0. auto.
  - rewrite for_loop_S.
    destruct (for_loop i (filter_step st) (cands, 0%Z)) as [arr m].
    destruct IH as (Hm & Htake & Hdrop & Hlen); [lia|].
    assert (Hlook : cands !! i = Some (nth i cands [])) by (apply lookup_nth_lt; lia).
    unfold filter_step.
    rewrite (nth_drop_same arr cands i [] Hdrop).
    rewrite (take_S_r cands i _ Hlook), List.filter_app. cbn [List.filter].
    assert (Hmi : (Z.to_nat m <= i)%nat).
    { rewrite Hm, Nat2Z.id. etransitivity; [apply List.filter_length_le|].
      rewrite length_take. lia. }
    assert (Hk : (kept st) (nth i cands []) = negb (is_good_fit st (nth i cands []) =? 0)%Z)
      by reflexivity.
    rewrite Hk.
    destruct (is_good_fit st (nth i cands []) =? 0)%Z; cbn [negb].
    + rewrite app_nil_r. repeat split; try assumption.
      apply drop_S_same, Hdrop.
    + repeat split.
      * rewrite length_app, Hm. simpl. lia.
      * replace (Z.to_nat (m + 1)) with (S (Z.to_nat m)) by lia.
        erewrite take_S_r; [|apply list_lookup_insert_eq; lia].
        rewrite take_insert_ge by lia. rewrite Htake. reflexivity.
      * rewrite drop_insert_lt by lia. apply drop_S_same, Hdrop.
      * rewrite length_insert. exact Hlen.
Qed.

Lemma Z_to_nat_le_length (cands : list (list ascii)) n :
  (n <= Z.of_nat (length cands))%Z -> (Z.to_nat n <= length cands)%nat.
Proof. lia. Qed.

(** [filter_possible_answers] leaves the (kept st) words of the first
    [numCurrentAnswers] candidates, in order, at the front of the array
    and returns their number. *)
Lemma filter_possible_answers_spec (cands : list (list ascii)) n :
  (n <= Z.of_nat (length cands))%Z ->
  let '(arr, m) := filter_possible_answers cands n st in
  m = Z.of_nat (length (List.filter (kept st) (take (Z.to_nat n) cands)))
  /\ take (Z.to_nat m) arr = List.filter (kept st) (take (Z.to_nat n) cands)
  /\ length arr = length cands.
Proof.
  intros Hn. unfold filter_possible_answers.
  pose proof (filter_loop_invariant cands (Z.to_nat n) (Z_to_nat_le_length _ _ Hn)) as H.
  destruct (for_loop (Z.to_nat n) (filter_step st) (cands, 0%Z)) as [arr m].
  tauto.
Qed.

(** On an array whose first [i] words all pass, [i] rounds change nothing. *)
Lemma filter_loop_fixed (arr : list (list ascii)) i :
  (i <= length arr)%nat ->
  Forall (fun x => (kept st) x = true) (take i arr) ->
  for_loop i (filter_step st) (arr, 0%Z) = (arr, Z.of_nat i).
Proof.
  induction i as [|i IH]; intros Hi Hall; [reflexivity|].
  assert (Hlook : arr !! i = Some (nth i arr [])) by (apply lookup_nth_lt; lia).
  rewrite (take_S_r arr i _ Hlook) in Hall.
  apply Forall_app in Hall as [Hall Hlast].
  rewrite for_loop_S, IH by (assumption || lia).
  unfold filter_step.
  inversion Hlast as [|? ? Hk _]; subst. unfold kept in Hk.
  destruct (is_good_fit st (nth i arr []) =? 0)%Z; [discriminate|].
  rewrite Nat2Z.id, list_insert_id by exact Hlook.
  f_equal. lia.
Qed.

End FilterLoop.

Lemma kept_true_iff st x : kept st x = true <-> is_good_fit st x = 1%Z.
Proof.
  unfold kept. destruct (is_good_fit_bit st x) as [H|H]; rewrite H; cbn;
    split; intros E; (reflexivity || discriminate E).
Qed.

(** C5: a candidate word survives filtering ([is_good_fit] returns 1, and
    [filter_possible_answers] keeps it among the candidates it was given)
    if and only if (a) it has every required letter at least as often as
    required, (b) it has no excluded letter, (c) it matches every fixed
    slot of the green mask and (d) at no position its letter was recorded
    as forbidden there in any turn. *)
Theorem survives_filter_iff st pWord cands n :
  upper_word (pGood st) -> wordle_word pWord ->
  (n <= Z.of_nat (length cands))%Z ->
  (is_good_fit st pWord = 1%Z <-> passes st pWord)
  /\ (In pWord (take (Z.to_nat (snd (filter_possible_answers cands n st)))
                     (fst (filter_possible_answers cands n st)))
      <-> In pWord (take (Z.to_nat n) cands) /\ passes st pWord).
Proof.
  intros Hgood Hword Hn.
  pose proof (is_good_fit_iff st pWord Hgood Hword) as Hfit.
  split; [exact Hfit|].
  pose proof (filter_possible_answers_spec st cands n Hn) as H.
  destruct (filter_possible_answers cands n st) as [arr m].
  destruct H as (_ & Htake & _). cbn [fst snd]. rewrite Htake.
  rewrite List.filter_In, kept_true_iff, Hfit. reflexivity.
Qed.

Lemma survives_filter_iff_witness :
  let st := state_crane_trace in
  let cands := [w "CRANE"; w "SLATE"; w "TRACE"] in
  (is_good_fit st (w "TRACE") = 1%Z <-> passes st (w "TRACE"))
  /\ (In (w "TRACE") (take (Z.to_nat (snd (filter_possible_answers cands 3 st)))
                           (fst (filter_possible_answers cands 3 st)))
      <-> In (w "TRACE") (take (Z.to_nat 3) cands) /\ passes st (w "TRACE")).
Proof.
  apply (survives_filter_iff state_crane_trace (w "TRACE")
           [w "CRANE"; w "SLATE"; w "TRACE"] 3).
  - repeat constructor.
  - literal_word.
  - simpl. lia.
Defined.

(** C8: filtering is idempotent: filtering the result of
    [filter_possible_answers] again under the same state returns the
    same array and the same count. *)
Theorem filter_idempotent st cands n :
  (n <= Z.of_nat (length cands))%Z ->
  let r := filter_possible_answers cands n st in
  filter_possible_answers (fst r) (snd r) st = r.
Proof.
  intros Hn r. subst r.
  pose proof (filter_possible_answers_spec st cands n Hn) as H.
  destruct (filter_possible_answers cands n st) as [arr m].
  destruct H as (Hm & Htake & Hlen). cbn [fst snd].
  unfold filter_possible_answers.
  rewrite filter_loop_fixed.
  - f_equal. lia.
  - rewrite Hm, Nat2Z.id, Hlen.
    etransitivity; [apply List.filter_length_le|]. rewrite length_take. lia.
  - rewrite Htake. apply List.Forall_forall. intros x Hx.
    apply List.filter_In in Hx. tauto.
Qed.

Lemma filter_idempotent_witness :
  let r := filter_possible_answers [w "CRANE"; w "SLATE"; w "TRACE"] 3 state_crane_trace in
  filter_possible_answers (fst r) (snd r) state_crane_trace = r.
Proof.
  apply (filter_idempotent state_crane_trace [w "CRANE"; w "SLATE"; w "TRACE"] 3).
  simpl. lia.
Defined.

(** ** Risk assessor *)

Section RiskFacts.

Lemma guess_counts_represents guess :
  wordle_word guess ->
  represents (for_loop WORD_SIZE
                (fun t i => arr_inc t (letter_index (char_at guess i))) zero_table)
             (fun x => occurrences x guess).
Proof.
  intros [Hlen Hup]. rewrite <- Hlen.
  rewrite (for_loop_chars (fun t c => arr_inc t (letter_index c))).
  apply (tally_represents guess Hup).
Qed.

Lemma is_guess_word_risky_iff guess pGood :
  wordle_word guess -> upper_word pGood ->
  is_guess_word_risky guess pGood = true <-> unconfirmed_repeat guess pGood.
Proof.
  intros Hw Hgood.
  destruct (guess_counts_represents guess Hw) as [_ Hg].
  destruct (tally_represents pGood Hgood) as [_ Hr].
  unfold is_guess_word_risky, unconfirmed_repeat. rewrite existsb_exists. split.
  - intros [i [Hi H]]. apply in_seq in Hi.
    destruct (index_letter_of_index i) as [Hidx Hc]; [lia|].
    rewrite <- Hidx, (Hg _ Hc), (Hr _ Hc) in H.
    apply andb_prop in H as [H1 H2]. apply Z.ltb_lt in H1, H2.
    exists (letter_of_index i). lia.
  - intros [c [H1 H2]].
    assert (Hc : is_upper c = true).
    { apply (upper_word_In guess); [apply Hw|]. apply occurrences_pos_In. lia. }
    pose proof (is_upper_range c Hc) as Hrange.
    exists (Z.to_nat (letter_index c)). split; [apply in_seq; lia|].
    rewrite Z2Nat.id, (Hg c Hc), (Hr c Hc) by lia.
    apply andb_true_intro. split; apply Z.ltb_lt; lia.
Qed.

Lemma NoDup_occurrences c s : NoDup s -> (occurrences c s <= 1)%nat.
Proof.
  induction 1 as [|x s Hx Hnd IH]; cbn [occurrences]; [lia|].
  destruct (Ascii.eqb x c) eqn:E; [|lia].
  apply ascii_eqb_eq in E. subst x.
  destruct (Nat.eq_dec (occurrences c s) 0) as [H0|H0]; [lia|].
  exfalso. apply Hx. apply list_elem_of_In, occurrences_pos_In. lia.
Qed.

End RiskFacts.

(** C10: [is_guess_word_risky] is antitone in the required letters: when
    every letter is required in [g] at most as often as in [g'], a word
    risky under [g'] is risky under [g] (more required letters can only
    clear the flag); and a word without a repeated letter is never risky. *)
Theorem is_guess_word_risky_antitone guess g g' :
  wordle_word guess -> upper_word g -> upper_word g' ->
  (forall c, (occurrences c g <= occurrences c g')%nat) ->
  (is_guess_word_risky guess g' = true -> is_guess_word_risky guess g = true)
  /\ (NoDup guess -> is_guess_word_risky guess g = false).
Proof.
  intros Hw Hg Hg' Hle. split.
  - rewrite !is_guess_word_risky_iff by assumption.
    intros [c [H1 H2]]. exists c. specialize (Hle c). lia.
  - intros Hnd. apply not_true_is_false.
    rewrite is_guess_word_risky_iff by assumption.
    intros [c [H1 _]]. pose proof (NoDup_occurrences c guess Hnd). lia.
Qed.

Lemma is_guess_word_risky_antitone_witness :
  (is_guess_word_risky (w "LLAMA") (w "LL") = true ->
   is_guess_word_risky (w "LLAMA") (w "L") = true)
  /\ (NoDup (w "LLAMA") -> is_guess_word_risky (w "LLAMA") (w "L") = false).
Proof.
  apply (is_guess_word_risky_antitone (w "LLAMA") (w "L") (w "LL")).
  - literal_word.
  - repeat constructor.
  - repeat constructor.
  - intros c. cbn [w list_ascii_of_string occurrences].
    destruct (Ascii.eqb "L" c); lia.
Defined.

(** ** Constraint updater *)

Section UpdateFacts.

Lemma extends_refl st : extends st st.
Proof. split; auto. Qed.

Lemma extends_trans st1 st2 st3 : extends st1 st2 -> extends st2 st3 -> extends st1 st3.
Proof.
  intros [H1 H2] [H3 H4]. split.
  - intros c. etransitivity; [apply H1 | apply H3].
  - auto.
Qed.

Lemma occurrences_app c s s' :
  occurrences c (s ++ s') = (occurrences c s + occurrences c s')%nat.
Proof. induction s as [|x s IH]; cbn [app occurrences]; [reflexivity|]. rewrite IH. lia. Qed.

Lemma occurrences_str_push c s x : (occurrences c s <= occurrences c (str_push s x))%nat.
Proof.
  unfold str_push. destruct (Ascii.eqb x Ascii.zero); [lia|].
  rewrite occurrences_app. lia.
Qed.

Lemma occurrences_raise_required c confirmed s x :
  (occurrences c s <= occurrences c (raise_required confirmed s x))%nat.
Proof.
  unfold raise_required.
  destruct (required_count s x <? arr_get confirmed (letter_index x))%Z;
    [apply occurrences_str_push | lia].
Qed.

Lemma char_at_insert (s : list ascii) i x k :
  char_at (<[i := x]> s) k = if decide (i = k /\ (i < length s)%nat) then x else char_at s k.
Proof.
  unfold char_at. rewrite !nth_lookup, list_lookup_insert.
  destruct (decide (i = k /\ (i < length s)%nat)); reflexivity.
Qed.

Lemma toupper_letter c : is_letter c = true -> is_upper (toupper c) = true.
Proof.
  unfold is_letter, toupper. destruct (is_lower c) eqn:E.
  - intros _. unfold is_lower in E. apply andb_prop in E as [E1 E2].
    apply Nat.leb_le in E1, E2.
    unfold is_upper, letter_index. rewrite nat_ascii_embedding by lia.
    apply andb_true_intro; split; [apply Z.leb_le | apply Z.ltb_lt]; lia.
  - rewrite orb_false_r. auto.
Qed.

Lemma update_step_extends guess result_pattern confirmed tryIdx st idx :
  toupper (char_at guess idx) <> "*" ->
  extends st (update_step guess result_pattern confirmed tryIdx st idx).
Proof.
  intros Hc. unfold update_step.
  destruct (Ascii.eqb (char_at result_pattern idx) "G");
    [|destruct (Ascii.eqb (char_at result_pattern idx) "Y");
      [|destruct (Ascii.eqb (char_at result_pattern idx) "B")]];
    split; cbn [pGood pMask]; auto using occurrences_raise_required.
  intros k Hk. rewrite char_at_insert.
  destruct (decide (idx = k /\ (idx < length (pMask st))%nat)); assumption.
Qed.

Lemma for_loop_extends n (body : ConstraintState -> nat -> ConstraintState) st :
  (forall s i, (i < n)%nat -> extends s (body s i)) -> extends st (for_loop n body st).
Proof.
  induction n as [|n IH]; intros H; [apply extends_refl|].
  rewrite for_loop_S. eapply extends_trans; [apply IH | apply H]; auto.
Qed.

Lemma update_game_constraints_extends t st :
  valid_turn t ->
  extends st (update_game_constraints (turn_guess t) (turn_feedback t) st (turn_index t)).
Proof.
  intros (Hlen & Hletters & _). unfold update_game_constraints.
  apply for_loop_extends. intros s i Hi. apply update_step_extends.
  apply upper_not_star, toupper_letter.
  rewrite List.Forall_forall in Hletters. apply Hletters.
  apply In_char_at. exists i. split; [lia | reflexivity].
Qed.

Lemma play_extends turns : forall st,
  Forall valid_turn turns -> extends st (play turns st).
Proof.
  induction turns as [|t turns IH]; intros st Hall; [apply extends_refl|].
  inversion Hall as [|? ? Ht Hrest]; subst. cbn [play fold_left].
  eapply extends_trans; [apply update_game_constraints_extends; exact Ht|].
  apply IH. exact Hrest.
Qed.

End UpdateFacts.

(** C7: in a single call of [update_game_constraints] and along every
    sequence of calls (5-letter guesses, feedback over B, G, Y, turn
    numbers 1 to 6), no letter's multiplicity in [pGood] decreases and no
    slot of the green mask that holds a letter goes back to ['*']. *)
Theorem update_game_constraints_monotone t turns st :
  valid_turn t -> Forall valid_turn turns ->
  extends st (update_game_constraints (turn_guess t) (turn_feedback t) st (turn_index t))
  /\ extends st (play turns st).
Proof.
  intros Ht Hall. split;
    [apply update_game_constraints_extends | apply play_extends]; assumption.
Qed.

Lemma update_game_constraints_monotone_witness :
  let t := mkTurn (w "LLAMA") (w "BGGYY") 1 in
  let turns := [mkTurn (w "LLAMA") (w "BGGYY") 1; mkTurn (w "crane") (w "YGGBG") 2] in
  extends initial_state
    (update_game_constraints (turn_guess t) (turn_feedback t) initial_state (turn_index t))
  /\ extends initial_state (play turns initial_state).
Proof.
  apply (update_game_constraints_monotone
           (mkTurn (w "LLAMA") (w "BGGYY") 1)
           [mkTurn (w "LLAMA") (w "BGGYY") 1; mkTurn (w "crane") (w "YGGBG") 2]
           initial_state).
  - unfold valid_turn. cbn [turn_guess turn_feedback turn_index]. literal_turn.
  - apply List.Forall_cons; [|apply List.Forall_cons; [|apply List.Forall_nil]];
      unfold valid_turn; cbn [turn_guess turn_feedback turn_index]; literal_turn.
Defined.

Lemma initial_state_excluded_not_required : excluded_not_required initial_state.
Proof. intros c H. destruct H. Qed.

(** C1: the guess LLAMA against the answer ALARM.  The evaluator marks
    the first L Black and the second L Green.  Position 0 is processed
    while [pGood] holds no L yet, so L is appended to [pBad]; position 1
    then appends L to [pGood].  The state reached from the initial one
    by this single evaluator-produced turn is reachable, has L both
    excluded and required, and makes the filter reject the answer. *)
Theorem black_before_green_excludes_required_letter :
  let guess := w "LLAMA" in
  let answer := w "ALARM" in
  let feedback := get_feedback_pattern guess answer in
  let st := update_game_constraints guess feedback initial_state 1 in
  reachable st
  /\ feedback = w "BGGYY"
  /\ pGood st = w "LAMA" /\ pBad st = w "L"
  /\ In "L" (pBad st) /\ (0 < occurrences "L" (pGood st))%nat
  /\ ~ excluded_not_required st
  /\ is_good_fit st answer = 0%Z.
Proof.
  cbv zeta.
  split; [apply reachable_turn; [apply reachable_initial | literal_word | literal_word | lia]|].
  assert (E : update_game_constraints (w "LLAMA")
                (get_feedback_pattern (w "LLAMA") (w "ALARM")) initial_state 1
              = {| pMask := w "*LA**";
                   notMask := [w "L**MA"; w "*****"; w "*****"; w "*****"; w "*****"; w "*****"];
                   pGood := w "LAMA"; pBad := w "L" |}) by (vm_compute; reflexivity).
  rewrite E. cbn [pGood pBad].
  split; [reflexivity|]. split; [reflexivity|]. split; [reflexivity|].
  split; [left; reflexivity|].
  split; [cbn; lia|].
  split; [|reflexivity].
  intros H. specialize (H "L" (or_introl eq_refl)). discriminate H.
Qed.

(** ** Admissible picks *)

Section PickFacts.

Variable pSortedMetrics : list GUESS_METRICS.

(** The search loop either finds nothing and leaves the result alone, or
    its primary word is the one it started with (when one was already
    found) or the word of a visited entry. *)
Lemma scan_picks_pick_word todo : forall pResult found_count,
  let '(r, fc) := scan_picks pSortedMetrics todo pResult found_count in
  (fc = found_count /\ r = pResult)
  \/ ((0 < fc)%Z
      /\ (((0 < found_count)%Z /\ pick_word r = pick_word pResult)
          \/ exists i, In i todo /\ pick_word r = word (metric_at pSortedMetrics i))).
Proof.
  induction todo as [|i todo IH]; intros pResult found_count; cbn [scan_picks];
    [left; auto|].
  destruct (admissible (metric_at pSortedMetrics i)).
  - destruct (found_count =? 0)%Z eqn:E0.
    + apply Z.eqb_eq in E0. subst found_count.
      specialize (IH {| pick_word := word (metric_at pSortedMetrics i);
                        alternate_word := alternate_word pResult |} (0 + 1)%Z).
      destruct (scan_picks pSortedMetrics todo _ (0 + 1)%Z) as [r fc].
      right. destruct IH as [[-> ->]|[Hfc [[_ Hp]|[j [Hj Hp]]]]].
      * split; [lia|]. right. exists i. split; [left; reflexivity | reflexivity].
      * split; [lia|]. right. exists i. split; [left; reflexivity | exact Hp].
      * split; [lia|]. right. exists j. split; [right; exact Hj | exact Hp].
    + apply Z.eqb_neq in E0. destruct (found_count =? 1)%Z eqn:E1.
      * apply Z.eqb_eq in E1. right. split; [lia|]. left. split; [lia | reflexivity].
      * specialize (IH pResult found_count).
        destruct (scan_picks pSortedMetrics todo pResult found_count) as [r fc].
        destruct IH as [H|[Hfc [H|[j [Hj Hp]]]]]; [left; exact H | right..].
        -- split; [lia|]. left. exact H.
        -- split; [lia|]. right. exists j. split; [right; exact Hj | exact Hp].
  - specialize (IH pResult found_count).
    destruct (scan_picks pSortedMetrics todo pResult found_count) as [r fc].
    destruct IH as [H|[Hfc [H|[j [Hj Hp]]]]]; [left; exact H | right..].
    + split; [lia|]. left. exact H.
    + split; [lia|]. right. exists j. split; [right; exact Hj | exact Hp].
Qed.

(** On a non-empty list the primary word is the word of one of the
    entries (so it is not the sentinel, which no 5-letter word equals). *)
Lemma find_top_linguistic_picks_primary (numMetrics : Z) :
  (0 < numMetrics)%Z ->
  exists i, (i < Z.to_nat numMetrics)%nat
            /\ pick_word (find_top_linguistic_picks pSortedMetrics numMetrics)
               = word (metric_at pSortedMetrics i).
Proof.
  intros Hn. unfold find_top_linguistic_picks.
  pose proof (scan_picks_pick_word (seq 0 (Z.to_nat numMetrics))
                {| pick_word := NONE; alternate_word := NONE |} 0%Z) as H.
  destruct (scan_picks pSortedMetrics (seq 0 (Z.to_nat numMetrics)) _ 0%Z) as [r fc].
  unfold backfill.
  destruct H as [[-> ->]|[Hfc [[Hlt _]|[i [Hi Hp]]]]]; [| lia |].
  - replace (0 <? 2)%Z with true by reflexivity.
    replace (0 <? numMetrics)%Z with true by (symmetry; apply Z.ltb_lt; lia).
    cbn [andb Z.eqb pick_word alternate_word].
    exists 0%nat. split; [lia|].
    destruct (1 <? numMetrics)%Z; cbn [andb].
    + replace (str_eqb NONE NONE) with true by reflexivity.
      destruct (negb (str_eqb (word (metric_at pSortedMetrics 1))
                              (word (metric_at pSortedMetrics 0)))); reflexivity.
    + destruct (numMetrics =? 1)%Z; reflexivity.
  - apply in_seq in Hi. exists i. split; [lia|]. rewrite <- Hp.
    destruct ((fc <? 2)%Z && (0 <? numMetrics)%Z); [|reflexivity].
    replace (fc =? 0)%Z with false by (symmetry; apply Z.eqb_neq; lia).
    destruct ((fc =? 1)%Z && (1 <? numMetrics)%Z).
    + destruct (str_eqb (alternate_word r) NONE); [|reflexivity].
      destruct (negb (str_eqb (word (metric_at pSortedMetrics 1)) (pick_word r)));
        reflexivity.
    + destruct (numMetrics =? 1)%Z; reflexivity.
Qed.

End PickFacts.

(** C2: two candidates remain, the first a plural noun, the second the
    only admissible entry.  The search loop makes the second entry the
    primary pick; the fallback then finds that the second entry is the
    pick itself and leaves the alternate at the sentinel, although the
    list has two members with distinct words. *)
Theorem sole_admissible_second_leaves_no_alternate :
  let metrics := [metric "CAKES" 1%float 60 "P" "N" false;
                  metric "CRANE" 1%float 50 "S" "N" false] in
  find_top_linguistic_picks metrics 2
    = {| pick_word := w "CRANE"; alternate_word := NONE |}
  /\ length metrics = 2%nat
  /\ word (metric_at metrics 0) <> word (metric_at metrics 1)
  /\ admissible (metric_at metrics 0) = false
  /\ admissible (metric_at metrics 1) = true.
Proof.
  cbv zeta. split; [vm_compute; reflexivity|].
  split; [reflexivity|]. split; [discriminate|]. split; reflexivity.
Qed.

(** ** Final-pick policy *)

Section FinalPickFacts.

Lemma str_eqb_eq a b : str_eqb a b = true -> a = b.
Proof. unfold str_eqb. apply bool_decide_eq_true_1. Qed.

(** A metric found by word carries that word. *)
Lemma find_metric_by_word_word word0 pArray num m :
  find_metric_by_word word0 pArray num = Some m -> word m = word0.
Proof.
  unfold find_metric_by_word.
  destruct (str_eqb word0 NONE); [discriminate|].
  destruct (List.find _ _) as [i|] eqn:E; [|discriminate].
  intros H. injection H as <-.
  apply find_some in E as [_ E]. apply str_eqb_eq. exact E.
Qed.

End FinalPickFacts.

(** C3: with candidates left, when both axis picks resolve to metrics
    [r] (rank axis) and [e] (entropy axis): for N > 25 the final pick is
    the entropy-axis pick exactly when |H(e) - H(r)|, the absolute
    value of the binary64 difference of the two entropies, exceeds
    0.50, and the rank-axis pick otherwise; for N <= 25 it is the first
    entry of the rank-sorted list whatever the axis picks are.  When an
    axis pick does not resolve, it is the first entry of the rank-sorted
    list.  The gap, the threshold 0.50 and the bound 25 are written out
    here; the program's own names for them do not occur. *)
Theorem determine_final_pick_policy
    pRankSorted pEntropySorted numPossibleAnswers rankPicks entropyPicks :
  (0 < numPossibleAnswers)%Z ->
  let final :=
    determine_final_pick pRankSorted pEntropySorted numPossibleAnswers
                         rankPicks entropyPicks in
  let pR_Pick := find_metric_by_word (pick_word rankPicks) pRankSorted numPossibleAnswers in
  let pE_Pick := find_metric_by_word (pick_word entropyPicks) pEntropySorted numPossibleAnswers in
  (forall r e, pR_Pick = Some r -> pE_Pick = Some e ->
     ((25 < numPossibleAnswers)%Z ->
        (PrimFloat.ltb 0.5 (PrimFloat.abs (PrimFloat.sub (entropy e) (entropy r))) = true ->
           final = of_metric e /\ final_word final = pick_word entropyPicks)
        /\ (PrimFloat.ltb 0.5 (PrimFloat.abs (PrimFloat.sub (entropy e) (entropy r))) = false ->
              final = of_metric r /\ final_word final = pick_word rankPicks))
     /\ ((numPossibleAnswers <= 25)%Z ->
           final = of_metric (metric_at pRankSorted 0)))
  /\ (pR_Pick = None \/ pE_Pick = None ->
        final = of_metric (metric_at pRankSorted 0)).
Proof.
  intros HN final pR_Pick pE_Pick. subst final. unfold determine_final_pick.
  fold pR_Pick pE_Pick. split.
  - intros r e Hr He.
    pose proof (find_metric_by_word_word _ _ _ _ Hr) as Hwr.
    pose proof (find_metric_by_word_word _ _ _ _ He) as Hwe.
    rewrite Hr, He.
    unfold entropy_diff, ENTROPY_RANK_THRESHOLD, LOW_POSSIBLE_ANSWER_COUNT. split.
    + intros Hlarge.
      rewrite (proj2 (Z.ltb_lt 25 numPossibleAnswers) Hlarge).
      split; intros Hgap; rewrite Hgap.
      * split; [reflexivity | exact Hwe].
      * split; [|reflexivity]. unfold of_metric. rewrite Hwr. reflexivity.
    + intros Hsmall.
      rewrite (proj2 (Z.ltb_ge 25 numPossibleAnswers) Hsmall).
      reflexivity.
  - replace (0 <? numPossibleAnswers)%Z with true by (symmetry; apply Z.ltb_lt; exact HN).
    intros [H|H]; rewrite H; [reflexivity|].
    destruct pR_Pick; reflexivity.
Qed.

(** The scenarios of the specification, every premise discharged: among
    thirty candidates a gap of 0.75 bits gives the entropy-axis pick and
    a gap of 0.25 bits the rank-axis pick; among ten candidates the
    first entry of the rank-sorted list wins over both picks; and a
    rank-axis pick that does not resolve gives that first entry too. *)
Lemma determine_final_pick_policy_witness :
  let cakes := metric "CAKES" 1%float 90 "P" "N" false in
  let slate := metric "SLATE" 2%float 80 "S" "N" false in
  let crane := metric "CRANE" 2.75%float 50 "S" "N" false in
  let crank := metric "CRANK" 2.25%float 50 "S" "N" false in
  let rest := replicate 7 (metric "ZZZZZ" 0%float 0 "N" "N" false) in
  determine_final_pick (thirty slate crane) (thirty crane slate) 30
    {| pick_word := w "SLATE"; alternate_word := w "CRANE" |}
    {| pick_word := w "CRANE"; alternate_word := w "SLATE" |}
  = of_metric crane
  /\ determine_final_pick (thirty slate crank) (thirty crank slate) 30
       {| pick_word := w "SLATE"; alternate_word := w "CRANK" |}
       {| pick_word := w "CRANK"; alternate_word := w "SLATE" |}
     = of_metric slate
  /\ determine_final_pick (cakes :: slate :: crane :: rest) (crane :: slate :: cakes :: rest) 10
       {| pick_word := w "SLATE"; alternate_word := w "CRANE" |}
       {| pick_word := w "CRANE"; alternate_word := w "SLATE" |}
     = of_metric cakes
  /\ determine_final_pick (thirty slate crane) (thirty crane slate) 30
       {| pick_word := NONE; alternate_word := NONE |}
       {| pick_word := w "CRANE"; alternate_word := w "SLATE" |}
     = of_metric slate.
Proof.
  intros cakes slate crane crank rest.
  split; [|split; [|split]].
  - destruct (determine_final_pick_policy (thirty slate crane) (thirty crane slate) 30
                {| pick_word := w "SLATE"; alternate_word := w "CRANE" |}
                {| pick_word := w "CRANE"; alternate_word := w "SLATE" |} eq_refl)
      as [Hresolved _].
    destruct (Hresolved slate crane eq_refl eq_refl) as [Hlarge _].
    destruct (Hlarge eq_refl) as [Hgap _].
    exact (proj1 (Hgap eq_refl)).
  - destruct (determine_final_pick_policy (thirty slate crank) (thirty crank slate) 30
                {| pick_word := w "SLATE"; alternate_word := w "CRANK" |}
                {| pick_word := w "CRANK"; alternate_word := w "SLATE" |} eq_refl)
      as [Hresolved _].
    destruct (Hresolved slate crank eq_refl eq_refl) as [Hlarge _].
    destruct (Hlarge eq_refl) as [_ Hnear].
    exact (proj1 (Hnear eq_refl)).
  - destruct (determine_final_pick_policy
                (cakes :: slate :: crane :: rest) (crane :: slate :: cakes :: rest) 10
                {| pick_word := w "SLATE"; alternate_word := w "CRANE" |}
                {| pick_word := w "CRANE"; alternate_word := w "SLATE" |} eq_refl)
      as [Hresolved _].
    destruct (Hresolved slate crane eq_refl eq_refl) as [_ Hsmall].
    apply Hsmall. intros H. discriminate H.
  - destruct (determine_final_pick_policy (thirty slate crane) (thirty crane slate) 30
                {| pick_word := NONE; alternate_word := NONE |}
                {| pick_word := w "CRANE"; alternate_word := w "SLATE" |} eq_refl)
      as [_ Hunresolved].
    apply Hunresolved. left. reflexivity.
Defined.

(** ** Entropy scorer: the histogram and the exact sum *)

Section EntropyFacts.












End EntropyFacts.



(** * Further properties of the engine *)

(** ** Feedback pattern: shape, Greens and duplicate letters *)

Section FeedbackMore.

Lemma yellows_marked c gs : forall gr f,
  length gs = length gr ->
  marked c gs (map mark_char (yellows gs gr f))
  = (green_count c gs gr + Nat.min (open_count c gs gr) (f c))%nat.
Proof.
  induction gs as [|g gs IH]; intros gr f Hlen; destruct gr as [|b gr];
    try discriminate; [reflexivity|].
  injection Hlen as Hlen. cbn [yellows green_count open_count].
  destruct b.
  - cbn [map mark_char marked]. rewrite (IH gr f Hlen).
    replace (Ascii.eqb "G" "G" || Ascii.eqb "G" "Y") with true by reflexivity.
    rewrite !andb_true_r, andb_false_r. lia.
  - cbn [negb]. rewrite andb_false_r, andb_true_r.
    destruct (0 <? f g)%nat eqn:E; cbn [map mark_char marked].
    + apply Nat.ltb_lt in E. rewrite (IH gr _ Hlen).
      replace (Ascii.eqb "Y" "G" || Ascii.eqb "Y" "Y") with true by reflexivity.
      rewrite andb_true_r. unfold take_one.
      destruct (Ascii.eqb g c) eqn:Ec.
      * apply ascii_eqb_eq in Ec. subst g. lia.
      * lia.
    + apply Nat.ltb_ge in E. rewrite (IH gr f Hlen).
      replace (Ascii.eqb "B" "G" || Ascii.eqb "B" "Y") with false by reflexivity.
      rewrite andb_false_r.
      destruct (Ascii.eqb g c) eqn:Ec; [|lia].
      apply ascii_eqb_eq in Ec. subst g. lia.
Qed.

Lemma occurrences_guess_split c gs : forall ans,
  length gs = length ans ->
  occurrences c gs
  = (green_count c gs (greens gs ans) + open_count c gs (greens gs ans))%nat.
Proof.
  induction gs as [|g gs IH]; intros [|a ans] Hlen; try discriminate; [reflexivity|].
  injection Hlen as Hlen. cbn [occurrences greens green_count open_count].
  rewrite (IH ans Hlen).
  destruct (Ascii.eqb g c), (Ascii.eqb g a); cbn; lia.
Qed.

Lemma occurrences_answer_split c gs : forall ans,
  length gs = length ans ->
  occurrences c ans
  = (green_count c gs (greens gs ans) + occurrences c (unmatched gs ans))%nat.
Proof.
  induction gs as [|g gs IH]; intros [|a ans] Hlen; try discriminate; [reflexivity|].
  injection Hlen as Hlen. cbn [occurrences greens green_count unmatched].
  rewrite (IH ans Hlen).
  destruct (Ascii.eqb g a) eqn:E.
  - apply ascii_eqb_eq in E. subst a. destruct (Ascii.eqb g c); cbn; lia.
  - rewrite andb_false_r. cbn [occurrences]. lia.
Qed.

(** The reference pattern marks a letter Green or Yellow as often as it
    occurs in both words. *)
Lemma reference_marked c guess answer :
  length guess = length answer ->
  marked c guess (map mark_char (reference_pattern guess answer))
  = Nat.min (occurrences c guess) (occurrences c answer).
Proof.
  intros Hlen. unfold reference_pattern.
  rewrite yellows_marked by (symmetry; apply greens_length; exact Hlen).
  rewrite (occurrences_guess_split c guess answer Hlen).
  rewrite (occurrences_answer_split c guess answer Hlen). lia.
Qed.

Lemma yellows_green_iff gs : forall gr f i,
  length gs = length gr ->
  nth i (map mark_char (yellows gs gr f)) Ascii.zero = "G" <-> nth i gr false = true.
Proof.
  induction gs as [|g gs IH]; intros gr f i Hlen; destruct gr as [|b gr];
    try discriminate.
  - destruct i; cbn; split; discriminate.
  - injection Hlen as Hlen. cbn [yellows]. destruct b.
    + destruct i as [|i]; cbn [map nth mark_char]; [tauto | apply IH; exact Hlen].
    + destruct (0 <? f g)%nat; destruct i as [|i]; cbn [map nth mark_char];
        try (split; discriminate); apply IH; exact Hlen.
Qed.

Lemma greens_nth gs : forall ans i,
  length gs = length ans -> (i < length gs)%nat ->
  nth i (greens gs ans) false = true <-> char_at gs i = char_at ans i.
Proof.
  induction gs as [|g gs IH]; intros [|a ans] i Hlen Hi; try discriminate;
    cbn [length] in Hi; [lia|].
  injection Hlen as Hlen. destruct i as [|i]; cbn [greens nth].
  - unfold char_at. cbn [nth]. apply ascii_eqb_eq.
  - unfold char_at in *. cbn [nth]. apply IH; [exact Hlen | lia].
Qed.

Lemma yellows_symbols gs : forall gr f,
  Forall feedback_symbol (map mark_char (yellows gs gr f)).
Proof.
  induction gs as [|g gs IH]; intros gr f; [constructor|].
  destruct gr as [|b gr]; [constructor|]. cbn [yellows].
  destruct b; [|destruct (0 <? f g)%nat]; cbn [map mark_char];
    constructor; unfold feedback_symbol; auto.
Qed.

Lemma char_at_ext (s s' : list ascii) :
  length s = length s' ->
  (forall i, (i < length s)%nat -> char_at s i = char_at s' i) -> s = s'.
Proof.
  intros Hlen H. apply (nth_ext s s' Ascii.zero Ascii.zero Hlen). exact H.
Qed.

(** A position is Green exactly when the two words agree there. *)
Lemma feedback_green_iff guess answer :
  wordle_word guess -> wordle_word answer ->
  forall i, (i < WORD_SIZE)%nat ->
    char_at (get_feedback_pattern guess answer) i = "G"
    <-> char_at guess i = char_at answer i.
Proof.
  intros Hg Ha i Hi. rewrite (feedback_refines guess answer Hg Ha).
  destruct Hg as [Hlg _], Ha as [Hla _].
  unfold char_at at 1, reference_pattern.
  rewrite yellows_green_iff by (symmetry; apply greens_length; congruence).
  apply greens_nth; [congruence | lia].
Qed.

(** A Yellow of a letter stands to the left of every Black of it. *)
Lemma feedback_yellow_before_black guess answer p q :
  wordle_word guess -> wordle_word answer ->
  (p < WORD_SIZE)%nat -> (q < WORD_SIZE)%nat ->
  char_at guess p = char_at guess q ->
  char_at (get_feedback_pattern guess answer) p = "Y" ->
  char_at (get_feedback_pattern guess answer) q = "B" ->
  (p < q)%nat.
Proof.
  intros Hg Ha Hp Hq Hsame HY HB.
  rewrite (feedback_refines guess answer Hg Ha) in HY, HB.
  destruct Hg as [Hlg Hug], Ha as [Hla Hua].
  assert (Hlen : length (map mark_char (reference_pattern guess answer)) = WORD_SIZE).
  { rewrite length_map. unfold reference_pattern.
    rewrite reference_length; [exact Hlg | symmetry; apply greens_length; congruence]. }
  apply char_at_lookup in HY; [|lia]. apply char_at_lookup in HB; [|lia].
  apply (lookup_map_mark _ _ Yellow) in HY. apply (lookup_map_mark _ _ Black) in HB.
  destruct (Nat.lt_trichotomy p q) as [Hlt|[Heq|Hgt]]; [exact Hlt | |].
  - subst q. rewrite HY in HB. discriminate.
  - exfalso. unfold reference_pattern in HY, HB.
    refine (yellows_black_before_yellow guess _ _ (char_at guess q) q p
              Hgt _ _ HB HY).
    + apply char_at_lookup; [lia | reflexivity].
    + apply char_at_lookup; [lia | exact Hsame].
Qed.

End FeedbackMore.

(** X1: the feedback of a guess against an answer (two words of five
    upper-case letters) has five symbols, each of them B, G or Y. *)
Theorem get_feedback_pattern_shape guess answer :
  wordle_word guess -> wordle_word answer ->
  length (get_feedback_pattern guess answer) = WORD_SIZE
  /\ Forall feedback_symbol (get_feedback_pattern guess answer).
Proof.
  intros Hg Ha. rewrite (feedback_refines guess answer Hg Ha).
  destruct Hg as [Hlg _], Ha as [Hla _]. split.
  - rewrite length_map. unfold reference_pattern.
    rewrite reference_length; [exact Hlg | symmetry; apply greens_length; congruence].
  - apply yellows_symbols.
Qed.

Lemma get_feedback_pattern_shape_witness :
  length (get_feedback_pattern (w "LLAMA") (w "ALARM")) = WORD_SIZE
  /\ Forall feedback_symbol (get_feedback_pattern (w "LLAMA") (w "ALARM")).
Proof.
  apply (get_feedback_pattern_shape (w "LLAMA") (w "ALARM")); literal_word.
Defined.

(** X2: duplicate-letter correctness.  For every letter, the positions
    of the guess that carry it and are marked Green or Yellow number
    exactly the smaller of its multiplicities in guess and answer. *)
Theorem get_feedback_pattern_marks_min c guess answer :
  wordle_word guess -> wordle_word answer ->
  marked c guess (get_feedback_pattern guess answer)
  = Nat.min (occurrences c guess) (occurrences c answer).
Proof.
  intros Hg Ha. rewrite (feedback_refines guess answer Hg Ha).
  apply reference_marked. destruct Hg as [-> _], Ha as [-> _]. reflexivity.
Qed.

Lemma get_feedback_pattern_marks_min_witness :
  marked "B" (w "ABBEY") (get_feedback_pattern (w "ABBEY") (w "BOBBY"))
  = Nat.min (occurrences "B" (w "ABBEY")) (occurrences "B" (w "BOBBY")).
Proof.
  apply (get_feedback_pattern_marks_min "B" (w "ABBEY") (w "BOBBY")); literal_word.
Defined.

(** X3: a position is Green exactly when guess and answer agree there,
    and the pattern is all Green exactly when the guess is the answer. *)
Theorem get_feedback_pattern_green_iff guess answer :
  wordle_word guess -> wordle_word answer ->
  (forall i, (i < WORD_SIZE)%nat ->
     char_at (get_feedback_pattern guess answer) i = "G"
     <-> char_at guess i = char_at answer i)
  /\ (get_feedback_pattern guess answer = w "GGGGG" <-> guess = answer).
Proof.
  intros Hg Ha.
  pose proof (feedback_green_iff guess answer Hg Ha) as Hpos.
  split; [exact Hpos|]. split.
  - intros Hall. apply char_at_ext; [destruct Hg as [-> _], Ha as [-> _]; reflexivity|].
    intros i Hi. apply Hpos; [destruct Hg as [<- _]; exact Hi|].
    rewrite Hall. destruct Hg as [Hlg _]. rewrite Hlg in Hi.
    unfold WORD_SIZE in Hi.
    destruct i as [|[|[|[|[|i]]]]]; try reflexivity; lia.
  - intros <-. rewrite (feedback_refines guess guess Hg Hg), reference_self,
      map_mark_replicate.
    destruct Hg as [-> _]. reflexivity.
Qed.

Lemma get_feedback_pattern_green_iff_witness :
  (forall i, (i < WORD_SIZE)%nat ->
     char_at (get_feedback_pattern (w "CRANE") (w "TRACE")) i = "G"
     <-> char_at (w "CRANE") i = char_at (w "TRACE") i)
  /\ (get_feedback_pattern (w "CRANE") (w "TRACE") = w "GGGGG"
      <-> w "CRANE" = w "TRACE").
Proof.
  apply (get_feedback_pattern_green_iff (w "CRANE") (w "TRACE")); literal_word.
Defined.

(** ** Entropy scorer: what the pattern list holds *)

Section HistogramFacts.

Lemma str_eqb_true_iff a b : str_eqb a b = true <-> a = b.
Proof. unfold str_eqb. apply bool_decide_eq_true. Qed.

Lemma str_eqb_false_iff a b : str_eqb a b = false <-> a <> b.
Proof. unfold str_eqb. apply bool_decide_eq_false. Qed.

Lemma node_count_count_pattern q p l :
  node_count q (count_pattern p l)
  = (node_count q l + if str_eqb p q then 1 else 0)%Z.
Proof.
  induction l as [|[word0 rank0] l IH]; cbn [count_pattern node_count].
  - destruct (str_eqb p q); lia.
  - destruct (str_eqb word0 p) eqn:E0; cbn [node_count].
    + apply str_eqb_true_iff in E0. subst word0.
      destruct (str_eqb p q); lia.
    + destruct (str_eqb word0 q) eqn:E1; [|exact IH].
      apply str_eqb_true_iff in E1. apply str_eqb_false_iff in E0.
      replace (str_eqb p q) with false; [lia|].
      symmetry. apply str_eqb_false_iff. congruence.
Qed.

Lemma keys_count_pattern p l :
  map fst (count_pattern p l)
  = if bool_decide (p ∈ map fst l) then map fst l else map fst l ++ [p].
Proof.
  induction l as [|[word0 rank0] l IH]; cbn [count_pattern map fst].
  - rewrite bool_decide_eq_false_2 by (apply not_elem_of_nil). reflexivity.
  - destruct (str_eqb word0 p) eqn:E0.
    + apply str_eqb_true_iff in E0. subst word0.
      rewrite bool_decide_eq_true_2 by (apply elem_of_cons; left; reflexivity).
      reflexivity.
    + apply str_eqb_false_iff in E0. cbn [map fst]. rewrite IH.
      destruct (bool_decide (p ∈ map fst l)) eqn:E1.
      * apply bool_decide_eq_true in E1.
        rewrite bool_decide_eq_true_2 by (apply elem_of_cons; right; exact E1).
        reflexivity.
      * apply bool_decide_eq_false in E1.
        rewrite bool_decide_eq_false_2; [reflexivity|].
        intros H. apply elem_of_cons in H as [H|H]; [congruence | contradiction].
Qed.

Lemma all_patterns_complete s :
  Forall feedback_symbol s -> s ∈ all_patterns (length s).
Proof.
  induction 1 as [|c s Hc Hs IH]; cbn [length all_patterns].
  - apply list_elem_of_singleton. reflexivity.
  - apply list_elem_of_In, in_flat_map. exists s.
    split; [apply list_elem_of_In; exact IH|].
    destruct Hc as [ -> | [ -> | -> ] ]; cbn; auto.
Qed.

Lemma all_patterns_length n : length (all_patterns n) = (3 ^ n)%nat.
Proof.
  induction n as [|n IH]; [reflexivity|].
  cbn [all_patterns]. rewrite Nat.pow_succ_r', <- IH. clear IH.
  induction (all_patterns n) as [|s l IHl]; [reflexivity|].
  cbn [flat_map length app]. rewrite IHl. lia.
Qed.

(** The patterns the evaluator produces on words of the game. *)
Lemma feedback_in_all_patterns guess answer :
  wordle_word guess -> wordle_word answer ->
  get_feedback_pattern guess answer ∈ all_patterns WORD_SIZE.
Proof.
  intros Hg Ha. rewrite (feedback_refines guess answer Hg Ha).
  destruct Hg as [Hlg _], Ha as [Hla _].
  assert (Hlen : length (map mark_char (reference_pattern guess answer)) = WORD_SIZE).
  { rewrite length_map. unfold reference_pattern.
    rewrite reference_length; [exact Hlg | symmetry; apply greens_length; congruence]. }
  rewrite <- Hlen. apply all_patterns_complete, yellows_symbols.
Qed.

(** After [n] answers: every pattern has as its count the number of
    answers that produce it, no pattern has two nodes, and every node
    carries the feedback of one of the answers. *)
Lemma pattern_counts_invariant guess (possibleAnswers : list (list ascii)) n :
  (n <= length possibleAnswers)%nat ->
  let l := for_loop n
             (fun pPatternCounts i =>
                count_pattern (get_feedback_pattern guess (nth i possibleAnswers []))
                              pPatternCounts) [] in
  (forall p, node_count p l = Z.of_nat (length (answers_with guess p possibleAnswers n)))
  /\ NoDup (map fst l)
  /\ (forall p, p ∈ map fst l ->
        exists answer, answer ∈ take n possibleAnswers
                       /\ get_feedback_pattern guess answer = p).
Proof.
  induction n as [|n IH]; intros Hn.
  - cbn. split; [intros p; unfold answers_with; rewrite take_0; reflexivity|].
    split; [constructor|]. intros p H. apply elem_of_nil in H. contradiction.
  - cbv zeta. rewrite for_loop_S.
    destruct IH as (Hcount & Hnd & Hsrc); [lia|].
    set (l := for_loop n _ []) in *.
    assert (Hlook : possibleAnswers !! n = Some (nth n possibleAnswers []))
      by (apply lookup_nth_lt; lia).
    set (a := nth n possibleAnswers []) in *.
    split; [|split].
    + intros p. rewrite node_count_count_pattern, Hcount.
      unfold answers_with. rewrite (take_S_r _ _ _ Hlook), List.filter_app, length_app.
      cbn [List.filter]. destruct (str_eqb (get_feedback_pattern guess a) p); cbn; lia.
    + rewrite keys_count_pattern.
      destruct (bool_decide (get_feedback_pattern guess a ∈ map fst l)) eqn:E;
        [exact Hnd|].
      apply bool_decide_eq_false in E.
      apply NoDup_app. split; [exact Hnd|]. split.
      * intros x Hx Hx'. apply list_elem_of_singleton in Hx'. subst x. contradiction.
      * apply NoDup_singleton.
    + intros p Hp. rewrite keys_count_pattern in Hp.
      rewrite (take_S_r _ _ _ Hlook).
      destruct (bool_decide (get_feedback_pattern guess a ∈ map fst l)).
      * destruct (Hsrc p Hp) as [x [Hx Hfx]]. exists x.
        split; [apply elem_of_app; left; exact Hx | exact Hfx].
      * apply elem_of_app in Hp as [Hp|Hp].
        -- destruct (Hsrc p Hp) as [x [Hx Hfx]]. exists x.
           split; [apply elem_of_app; left; exact Hx | exact Hfx].
        -- apply list_elem_of_singleton in Hp. subst p. exists a.
           split; [apply elem_of_app; right; apply list_elem_of_singleton|]; reflexivity.
Qed.

Lemma NoDup_subset_length (l k : list (list ascii)) :
  NoDup l -> (forall x, x ∈ l -> x ∈ k) -> (length l <= length k)%nat.
Proof.
  intros Hnd Hsub. apply submseteq_length, NoDup_submseteq; assumption.
Qed.

End HistogramFacts.

(** X4: the pattern list built by [calculate_entropy_score] is a
    histogram of the feedback of the guess: the count of every pattern
    is the number of candidate answers that produce it (0 without a
    node), and no pattern has two nodes. *)
Theorem pattern_counts_histogram guess possibleAnswers numPossibleAnswers :
  (0 <= numPossibleAnswers <= Z.of_nat (length possibleAnswers))%Z ->
  let l := pattern_counts guess possibleAnswers numPossibleAnswers in
  (forall p, node_count p l
             = Z.of_nat (length (answers_with guess p possibleAnswers
                                              (Z.to_nat numPossibleAnswers))))
  /\ NoDup (map fst l).
Proof.
  intros Hn. unfold pattern_counts.
  destruct (pattern_counts_invariant guess possibleAnswers (Z.to_nat numPossibleAnswers))
    as (H1 & H2 & _); [lia|].
  split; assumption.
Qed.

Lemma pattern_counts_histogram_witness :
  let l := pattern_counts (w "CRANE") [w "CRANE"; w "SLATE"; w "TRACE"] 3 in
  (forall p, node_count p l
             = Z.of_nat (length (answers_with (w "CRANE") p
                                   [w "CRANE"; w "SLATE"; w "TRACE"] (Z.to_nat 3))))
  /\ NoDup (map fst l).
Proof.
  apply (pattern_counts_histogram (w "CRANE") [w "CRANE"; w "SLATE"; w "TRACE"] 3).
  cbn. lia.
Defined.

(** X5: on words of the game the pattern list has at most as many nodes
    as there are candidate answers, and never more than 3^5 = 243. *)
Theorem pattern_counts_size guess possibleAnswers numPossibleAnswers :
  wordle_word guess -> Forall wordle_word possibleAnswers ->
  (0 <= numPossibleAnswers <= Z.of_nat (length possibleAnswers))%Z ->
  (Z.of_nat (length (pattern_counts guess possibleAnswers numPossibleAnswers))
   <= Z.min numPossibleAnswers 243)%Z.
Proof.
  intros Hg Hall Hn. unfold pattern_counts.
  destruct (pattern_counts_invariant guess possibleAnswers (Z.to_nat numPossibleAnswers))
    as (_ & Hnd & Hsrc); [lia|].
  set (l := for_loop _ _ []) in *.
  assert (Hkeys : length (map fst l) = length l) by apply length_map.
  assert (H243 : (length (map fst l) <= 243)%nat).
  { change 243%nat with (3 ^ WORD_SIZE)%nat. rewrite <- all_patterns_length.
    apply NoDup_subset_length; [exact Hnd|].
    intros p Hp. destruct (Hsrc p Hp) as [a [Ha <-]].
    apply feedback_in_all_patterns; [exact Hg|].
    rewrite List.Forall_forall in Hall. apply Hall, list_elem_of_In.
    eapply subseteq_take. exact Ha. }
  assert (HN : (length l <= Z.to_nat numPossibleAnswers)%nat).
  { subst l. clear.
    induction (Z.to_nat numPossibleAnswers) as [|n IH]; [reflexivity|].
    rewrite for_loop_S.
    set (l := for_loop n _ []) in *.
    generalize (get_feedback_pattern guess (nth n possibleAnswers [])). intros p.
    assert (Hstep : forall k : list node, (length (count_pattern p k) <= S (length k))%nat).
    { induction k as [|[word0 rank0] k IHk]; cbn [count_pattern length]; [lia|].
      destruct (str_eqb word0 p); cbn [length]; lia. }
    specialize (Hstep l). lia. }
  lia.
Qed.

Lemma pattern_counts_size_witness :
  (Z.of_nat (length (pattern_counts (w "CRANE") [w "CRANE"; w "SLATE"; w "TRACE"] 3))
   <= Z.min 3 243)%Z.
Proof.
  apply (pattern_counts_size (w "CRANE") [w "CRANE"; w "SLATE"; w "TRACE"] 3).
  - literal_word.
  - repeat (apply List.Forall_cons; [literal_word|]). apply List.Forall_nil.
  - cbn. lia.
Defined.

(** ** Constraint updater: the required counts after a turn *)

Section RequiredCounts.

Lemma fold_seq_chars2 {S : Type} (f : S -> ascii -> ascii -> S) (s1 : list ascii) :
  forall (s2 pre1 pre2 : list ascii) (a : S),
  length pre1 = length pre2 -> length s1 = length s2 ->
  fold_left (fun acc i => f acc (char_at (pre1 ++ s1) i) (char_at (pre2 ++ s2) i))
            (seq (length pre1) (length s1)) a
  = fold_left (fun acc xy => f acc (fst xy) (snd xy)) (combine s1 s2) a.
Proof.
  induction s1 as [|x s1 IH]; intros [|y s2] pre1 pre2 a Hpre Hlen;
    try discriminate; [reflexivity|].
  injection Hlen as Hlen. cbn [length seq fold_left combine fst snd].
  rewrite (char_at_middle_at pre1 x s1 (length pre1) eq_refl).
  rewrite (char_at_middle_at pre2 y s2 (length pre1) (eq_sym Hpre)).
  rewrite (snoc_shift pre1 x s1), (snoc_shift pre2 y s2).
  rewrite <- (snoc_length pre1 x).
  apply IH; [rewrite !snoc_length; congruence | exact Hlen].
Qed.

(** A loop that reads [s1[i]] and [s2[i]] is a fold over the pairs. *)
Lemma for_loop_chars2 {S : Type} (f : S -> ascii -> ascii -> S) (s1 s2 : list ascii) (a : S) :
  length s1 = length s2 ->
  for_loop (length s1) (fun acc i => f acc (char_at s1 i) (char_at s2 i)) a
  = fold_left (fun acc xy => f acc (fst xy) (snd xy)) (combine s1 s2) a.
Proof. intros H. apply (fold_seq_chars2 f s1 s2 [] [] a eq_refl H). Qed.

Lemma required_count_occurrences s c : required_count s c = Z.of_nat (occurrences c s).
Proof. unfold required_count. rewrite fold_count_occurrences. lia. Qed.

(** The table of step 1 holds, for every letter, the number of Green
    and Yellow positions of the guess that carry it. *)
Lemma confirmed_counts_fold (zs : list (ascii * ascii)) : forall t f,
  Forall (fun xy => is_upper (toupper (fst xy)) = true) zs ->
  represents t f ->
  represents
    (fold_left (fun t xy =>
                  if Ascii.eqb (snd xy) "G" || Ascii.eqb (snd xy) "Y"
                  then arr_inc t (letter_index (toupper (fst xy))) else t) zs t)
    (fun c => (marked c (map toupper (map fst zs)) (map snd zs) + f c)%nat).
Proof.
  induction zs as [|[g p] zs IH]; intros t f Hup Ht.
  - cbn. exact Ht.
  - inversion Hup as [|? ? Hg Hup']; subst. cbn [fst] in Hg.
    cbn [fold_left fst snd map]. 
    destruct (Ascii.eqb p "G" || Ascii.eqb p "Y") eqn:E.
    + eapply represents_ext; [apply IH; [exact Hup' | apply represents_inc; eassumption]|].
      intros c. cbn [marked map fst snd]. rewrite E, andb_true_r. lia.
    + eapply represents_ext; [apply IH; [exact Hup' | exact Ht]|].
      intros c. cbn [marked map fst snd]. rewrite E, andb_false_r. lia.
Qed.

Lemma combine_fst_snd (s1 : list ascii) : forall s2 : list ascii,
  length s1 = length s2 ->
  map fst (combine s1 s2) = s1 /\ map snd (combine s1 s2) = s2.
Proof.
  induction s1 as [|x s1 IH]; intros [|y s2] H; try discriminate; [split; reflexivity|].
  injection H as H. destruct (IH s2 H) as [H1 H2]. cbn [combine map fst snd].
  rewrite H1, H2. split; reflexivity.
Qed.

Lemma letters_toupper guess :
  Forall (fun c => is_letter c = true) guess ->
  forall s2 : list ascii,
  Forall (fun xy : ascii * ascii => is_upper (toupper (fst xy)) = true) (combine guess s2).
Proof.
  induction 1 as [|g guess Hg Hrest IH]; intros [|y s2]; cbn [combine]; try constructor.
  - cbn [fst]. apply toupper_letter. exact Hg.
  - apply IH.
Qed.

Lemma confirmed_counts_represents guess result_pattern :
  length guess = WORD_SIZE -> length result_pattern = WORD_SIZE ->
  Forall (fun c => is_letter c = true) guess ->
  represents (confirmed_counts guess result_pattern)
             (fun c => marked c (map toupper guess) result_pattern).
Proof.
  intros Hg Hp Hletters. unfold confirmed_counts. rewrite <- Hg.
  rewrite (for_loop_chars2
             (fun t g p => if Ascii.eqb p "G" || Ascii.eqb p "Y"
                           then arr_inc t (letter_index (toupper g)) else t)
             guess result_pattern zero_table) by congruence.
  destruct (combine_fst_snd guess result_pattern) as [H1 H2]; [congruence|].
  eapply represents_ext.
  - apply (confirmed_counts_fold (combine guess result_pattern) zero_table (fun _ => 0%nat)).
    + apply letters_toupper. exact Hletters.
    + exact represents_zero.
  - intros c. cbn beta. rewrite H1, H2. lia.
Qed.

(** The required letters are updated position by position, whatever
    the rest of the state is. *)
Lemma pGood_for_loop guess result_pattern confirmed tryIdx n : forall st,
  pGood (for_loop n (update_step guess result_pattern confirmed tryIdx) st)
  = for_loop n (fun s idx => good_step confirmed s (char_at guess idx)
                                       (char_at result_pattern idx)) (pGood st).
Proof.
  induction n as [|n IH]; intros st; [reflexivity|].
  rewrite !for_loop_S, <- IH.
  set (s := for_loop n _ st). unfold update_step, good_step.
  destruct (Ascii.eqb (char_at result_pattern n) "G"); [reflexivity|].
  destruct (Ascii.eqb (char_at result_pattern n) "Y"); [reflexivity|].
  destruct (Ascii.eqb (char_at result_pattern n) "B"); reflexivity.
Qed.

Lemma good_fold_occurrences confirmed F c (zs : list (ascii * ascii)) : forall s,
  represents confirmed F ->
  Forall (fun xy => is_upper (toupper (fst xy)) = true) zs ->
  occurrences c (fold_left (fun s xy => good_step confirmed s (fst xy) (snd xy)) zs s)
  = raised (F c) (occurrences c s) (marked c (map toupper (map fst zs)) (map snd zs)).
Proof.
  intros s Hrep Hup. revert s.
  induction Hup as [|[g p] zs Hg Hup IH]; intros s.
  - cbn. unfold raised. destruct (occurrences c s <? F c)%nat eqn:E; [|reflexivity].
    apply Nat.ltb_lt in E. lia.
  - cbn [fst] in Hg. cbn [fold_left fst snd map marked]. rewrite IH.
    unfold good_step.
    destruct (Ascii.eqb p "G" || Ascii.eqb p "Y") eqn:E.
    + rewrite andb_true_r. unfold raise_required.
      rewrite required_count_occurrences.
      destruct Hrep as [_ Hget]. rewrite (Hget _ Hg).
      unfold str_push.
      replace (Ascii.eqb (toupper g) Ascii.zero) with false
        by (symmetry; apply ascii_eqb_neq, upper_not_nul; exact Hg).
      destruct (Ascii.eqb (toupper g) c) eqn:Ec.
      * apply ascii_eqb_eq in Ec. subst c.
        destruct (Z.of_nat (occurrences (toupper g) s) <? Z.of_nat (F (toupper g)))%Z eqn:El.
        -- apply Z.ltb_lt in El. rewrite occurrences_app. cbn [occurrences].
           rewrite Ascii.eqb_refl. unfold raised.
           destruct (occurrences (toupper g) s <? F (toupper g))%nat eqn:E1;
             [|apply Nat.ltb_ge in E1; lia].
           destruct (occurrences (toupper g) s + (1 + 0) <? F (toupper g))%nat eqn:E2.
           ++ lia.
           ++ apply Nat.ltb_ge in E2. lia.
        -- apply Z.ltb_ge in El. unfold raised.
           destruct (occurrences (toupper g) s <? F (toupper g))%nat eqn:E1;
             [apply Nat.ltb_lt in E1; lia | reflexivity].
      * destruct (Z.of_nat (occurrences (toupper g) s) <? Z.of_nat (F (toupper g)))%Z;
          [|reflexivity].
        rewrite occurrences_app. cbn [occurrences]. rewrite Ec.
        rewrite !Nat.add_0_r. reflexivity.
    + rewrite andb_false_r. reflexivity.
Qed.

(** After a turn every letter is required as often as before or as
    often as this guess confirms it, whichever is more. *)
Lemma update_required_max c t st :
  valid_turn t ->
  occurrences c (pGood (update_game_constraints (turn_guess t) (turn_feedback t) st
                                                (turn_index t)))
  = Nat.max (occurrences c (pGood st))
            (marked c (map toupper (turn_guess t)) (turn_feedback t)).
Proof.
  intros (Hg & Hletters & Hp & _). unfold update_game_constraints.
  rewrite pGood_for_loop. unfold WORD_SIZE in *. rewrite <- Hg at 1.
  rewrite (for_loop_chars2 (good_step _) (turn_guess t) (turn_feedback t) (pGood st))
    by congruence.
  rewrite (good_fold_occurrences _ _ c _ (pGood st)
             (confirmed_counts_represents _ _ Hg Hp Hletters)
             (letters_toupper _ Hletters _)).
  destruct (combine_fst_snd (turn_guess t) (turn_feedback t)) as [H1 H2]; [congruence|].
  rewrite H1, H2. unfold raised.
  destruct (occurrences c (pGood st) <? _)%nat eqn:E.
  - apply Nat.ltb_lt in E. lia.
  - apply Nat.ltb_ge in E. lia.
Qed.

End RequiredCounts.

(** X6: after a turn (a guess of five letters, five feedback symbols)
    each letter's required count is the larger of its count before and
    the number of positions of the guess where that letter is marked
    Green or Yellow. *)
Theorem update_game_constraints_required c t st :
  valid_turn t ->
  occurrences c (pGood (update_game_constraints (turn_guess t) (turn_feedback t) st
                                                (turn_index t)))
  = Nat.max (occurrences c (pGood st))
            (marked c (map toupper (turn_guess t)) (turn_feedback t)).
Proof. apply update_required_max. Qed.

Lemma update_game_constraints_required_witness :
  occurrences "A" (pGood (update_game_constraints (w "llama") (w "BGGYY") initial_state 1))
  = Nat.max (occurrences "A" (pGood initial_state))
            (marked "A" (map toupper (w "llama")) (w "BGGYY")).
Proof.
  apply (update_game_constraints_required "A" (mkTurn (w "llama") (w "BGGYY") 1) initial_state).
  unfold valid_turn. cbn [turn_guess turn_feedback turn_index]. literal_turn.
Defined.

(** ** Constraint updater: what a turn records and keeps *)

Section UpdateRecords.

Lemma for_loop_ind {S : Type} (Q : nat -> S -> Prop) n (body : S -> nat -> S) s0 :
  Q 0%nat s0 ->
  (forall i s, (i < n)%nat -> Q i s -> Q (Datatypes.S i) (body s i)) ->
  Q n (for_loop n body s0).
Proof.
  intros H0 Hstep. induction n as [|n IH]; [exact H0|].
  rewrite for_loop_S. apply Hstep; [lia|]. apply IH. intros i s Hi. apply Hstep. lia.
Qed.

Lemma cell_set_cell (m : list (list ascii)) r c x r' c' :
  cell (set_cell m r c x) r' c'
  = if decide (r = r' /\ c = c' /\ (0 <= r)%Z /\ (Z.to_nat r < length m)%nat
               /\ (c < length (default [] (m !! Z.to_nat r)))%nat)
    then x else cell m r' c'.
Proof.
  unfold cell, set_cell.
  destruct (0 <=? r)%Z eqn:Er; [apply Z.leb_le in Er | apply Z.leb_gt in Er].
  - destruct (0 <=? r')%Z eqn:Er'; [apply Z.leb_le in Er' | apply Z.leb_gt in Er'].
    + rewrite list_lookup_insert.
      destruct (decide (Z.to_nat r = Z.to_nat r' /\ (Z.to_nat r < length m)%nat))
        as [[Heq Hlt]|Hno].
      * change (default [] (Some ?y)) with y. rewrite char_at_insert.
        assert (r = r') by lia. subst r'.
        destruct (decide (c = c' /\ (c < length (default [] (m !! Z.to_nat r)))%nat))
          as [[-> Hc]|Hno].
        -- rewrite decide_True by auto. reflexivity.
        -- rewrite decide_False by tauto. reflexivity.
      * rewrite decide_False; [reflexivity|]. intros (-> & _ & _ & Hlt & _). tauto.
    + rewrite decide_False; [reflexivity|]. intros (-> & _). lia.
  - rewrite decide_False; [reflexivity|]. intros (_ & _ & H & _). lia.
Qed.

Lemma set_cell_shape m r c x : table_shape m -> table_shape (set_cell m r c x).
Proof.
  intros [Hlen Hrows]. unfold set_cell. destruct (0 <=? r)%Z; [|split; assumption].
  split; [rewrite length_insert; exact Hlen|].
  destruct (m !! Z.to_nat r) as [row|] eqn:E.
  - change (default [] (Some row)) with row. apply Forall_insert; [exact Hrows|].
    rewrite length_insert. rewrite List.Forall_forall in Hrows.
    apply Hrows, list_elem_of_In, list_elem_of_lookup. eauto.
  - apply lookup_ge_None in E. rewrite list_insert_ge by exact E. exact Hrows.
Qed.

Lemma table_shape_row m r :
  table_shape m -> (0 <= r < 6)%Z ->
  (Z.to_nat r < length m)%nat /\ length (default [] (m !! Z.to_nat r)) = WORD_SIZE.
Proof.
  intros [Hlen Hrows] Hr. split; [lia|].
  destruct (m !! Z.to_nat r) as [row|] eqn:E.
  - change (default [] (Some row)) with row. rewrite List.Forall_forall in Hrows.
    apply Hrows, list_elem_of_In, list_elem_of_lookup. eauto.
  - apply lookup_ge_None in E. lia.
Qed.

Lemma upper_word_push s x : upper_word s -> is_upper x = true -> upper_word (str_push s x).
Proof.
  intros Hs Hx. unfold str_push. destruct (Ascii.eqb x Ascii.zero); [exact Hs|].
  apply Forall_app. split; [exact Hs | repeat constructor; exact Hx].
Qed.

Lemma update_step_well_formed guess result_pattern confirmed tryIdx st idx :
  is_upper (toupper (char_at guess idx)) = true ->
  well_formed st -> well_formed (update_step guess result_pattern confirmed tryIdx st idx).
Proof.
  intros Hc (Hmask & Hlen & Hrows & Hgood & Hbad & Hnd).
  pose proof (set_cell_shape (notMask st) (tryIdx - 1) idx (toupper (char_at guess idx))
                (conj Hlen Hrows)) as [Hlen' Hrows'].
  assert (Hraise : upper_word (raise_required confirmed (pGood st)
                                              (toupper (char_at guess idx)))).
  { unfold raise_required. destruct (_ <? _)%Z; [apply upper_word_push|]; assumption. }
  unfold update_step.
  destruct (Ascii.eqb (char_at result_pattern idx) "G").
  { repeat split; cbn [pMask notMask pGood pBad]; try assumption.
    rewrite length_insert. exact Hmask. }
  destruct (Ascii.eqb (char_at result_pattern idx) "Y").
  { repeat split; cbn [pMask notMask pGood pBad]; assumption. }
  destruct (Ascii.eqb (char_at result_pattern idx) "B");
    [|repeat split; assumption].
  repeat split; cbn [pMask notMask pGood pBad]; try assumption.
  - destruct (_ =? 0)%Z; [|exact Hbad].
    destruct (strchr (pBad st) _); [exact Hbad | apply upper_word_push; assumption].
  - destruct (_ =? 0)%Z; [|exact Hnd].
    destruct (strchr (pBad st) (toupper (char_at guess idx))) eqn:E; [exact Hnd|].
    unfold str_push. destruct (Ascii.eqb _ Ascii.zero); [exact Hnd|].
    apply NoDup_app. split; [exact Hnd|]. split; [|apply NoDup_singleton].
    intros x Hx Hx'. apply list_elem_of_singleton in Hx'. subst x.
    apply list_elem_of_In in Hx.
    apply (strchr_In _ _ (upper_not_nul _ Hc)) in Hx. congruence.
Qed.

Lemma guess_letter_upper guess idx :
  length guess = WORD_SIZE -> Forall (fun c => is_letter c = true) guess ->
  (idx < WORD_SIZE)%nat -> is_upper (toupper (char_at guess idx)) = true.
Proof.
  intros Hlen Hall Hidx. apply toupper_letter.
  rewrite List.Forall_forall in Hall. apply Hall, In_char_at.
  exists idx. split; [lia | reflexivity].
Qed.

Lemma update_well_formed t st :
  valid_turn t -> well_formed st ->
  well_formed (update_game_constraints (turn_guess t) (turn_feedback t) st (turn_index t)).
Proof.
  intros (Hg & Hletters & _) Hwf. unfold update_game_constraints.
  apply (for_loop_ind (fun _ s => well_formed s)); [exact Hwf|].
  intros i s Hi Hs. apply update_step_well_formed; [|exact Hs].
  apply guess_letter_upper; assumption.
Qed.

Lemma initial_state_well_formed : well_formed initial_state.
Proof.
  unfold well_formed, initial_state. cbn [pMask notMask pGood pBad].
  split; [reflexivity|]. split; [reflexivity|].
  split; [repeat (apply List.Forall_cons; [reflexivity|]); apply List.Forall_nil|].
  split; [apply List.Forall_nil|]. split; [apply List.Forall_nil | apply NoDup_nil_2].
Qed.

End UpdateRecords.

Section UpdateRecorded.

Lemma ltb_S_same n : (n <? S n)%nat = true /\ (n <? n)%nat = false.
Proof. split; [apply Nat.ltb_lt | apply Nat.ltb_ge]; lia. Qed.

Lemma ltb_S_other idx n : idx <> n -> (idx <? S n)%nat = (idx <? n)%nat.
Proof.
  intros Hne. destruct (idx <? n)%nat eqn:E.
  - apply Nat.ltb_lt in E. apply Nat.ltb_lt. lia.
  - apply Nat.ltb_ge in E. apply Nat.ltb_ge. lia.
Qed.

Lemma update_step_pMask guess result_pattern confirmed tryIdx s n :
  pMask (update_step guess result_pattern confirmed tryIdx s n)
  = if Ascii.eqb (char_at result_pattern n) "G"
    then <[n := toupper (char_at guess n)]> (pMask s) else pMask s.
Proof.
  unfold update_step. destruct (Ascii.eqb (char_at result_pattern n) "G"); [reflexivity|].
  destruct (Ascii.eqb (char_at result_pattern n) "Y"); [reflexivity|].
  destruct (Ascii.eqb (char_at result_pattern n) "B"); reflexivity.
Qed.

Lemma update_step_notMask guess result_pattern confirmed tryIdx s n :
  notMask (update_step guess result_pattern confirmed tryIdx s n)
  = if excludes (char_at result_pattern n)
    then set_cell (notMask s) (tryIdx - 1) n (toupper (char_at guess n)) else notMask s.
Proof.
  unfold update_step, excludes.
  destruct (Ascii.eqb (char_at result_pattern n) "G"); [reflexivity|].
  destruct (Ascii.eqb (char_at result_pattern n) "Y"); [reflexivity|].
  destruct (Ascii.eqb (char_at result_pattern n) "B"); reflexivity.
Qed.

Lemma update_step_recorded guess result_pattern confirmed tryIdx st n s :
  (1 <= tryIdx <= 6)%Z -> (n < WORD_SIZE)%nat ->
  well_formed s ->
  recorded guess result_pattern tryIdx st n s ->
  recorded guess result_pattern tryIdx st (S n)
           (update_step guess result_pattern confirmed tryIdx s n).
Proof.
  intros Ht Hn (Hlm & Hlen & Hrows & _) (Hmask & Hcell).
  destruct (table_shape_row (notMask s) (tryIdx - 1) (conj Hlen Hrows)) as [Hr Hrow];
    [lia|].
  destruct (ltb_S_same n) as [Hnn Hnn'].
  split.
  - intros idx Hidx. rewrite update_step_pMask.
    destruct (Nat.eq_dec idx n) as [->|Hne].
    + rewrite Hnn. cbn [andb].
      destruct (Ascii.eqb (char_at result_pattern n) "G").
      * rewrite char_at_insert, decide_True by (split; [reflexivity | lia]). reflexivity.
      * rewrite Hmask, Hnn' by exact Hidx. reflexivity.
    + rewrite (ltb_S_other idx n Hne), <- Hmask by exact Hidx.
      destruct (Ascii.eqb (char_at result_pattern n) "G"); [|reflexivity].
      rewrite char_at_insert, decide_False; [reflexivity|]. intros [H _]. congruence.
  - intros r idx Hidx. rewrite update_step_notMask.
    destruct (Nat.eq_dec idx n) as [->|Hne].
    + rewrite Hnn. cbn [andb].
      destruct (excludes (char_at result_pattern n)).
      * rewrite cell_set_cell.
        destruct (r =? tryIdx - 1)%Z eqn:Er;
          [apply Z.eqb_eq in Er | apply Z.eqb_neq in Er]; cbn [andb].
        -- subst r. rewrite decide_True by (repeat split; lia). reflexivity.
        -- rewrite decide_False by (intros (H & _); congruence).
           rewrite Hcell, Hnn' by exact Hidx. reflexivity.
      * rewrite andb_false_r, Hcell, Hnn' by exact Hidx. reflexivity.
    + rewrite (ltb_S_other idx n Hne), <- Hcell by exact Hidx.
      destruct (excludes (char_at result_pattern n)); [|reflexivity].
      rewrite cell_set_cell, decide_False; [reflexivity|].
      intros (_ & H & _). congruence.
Qed.

(** What a whole turn leaves in the mask and in the exclusion table. *)
Lemma update_recorded t st :
  valid_turn t -> well_formed st ->
  recorded (turn_guess t) (turn_feedback t) (turn_index t) st WORD_SIZE
    (update_game_constraints (turn_guess t) (turn_feedback t) st (turn_index t)).
Proof.
  intros (Hg & Hletters & _ & _ & Ht) Hwf. unfold update_game_constraints.
  apply (for_loop_ind
           (fun n s => well_formed s
                       /\ recorded (turn_guess t) (turn_feedback t) (turn_index t) st n s)).
  - split; [exact Hwf|]. split; intros; reflexivity.
  - intros i s Hi [Hs Hrec]. split.
    + apply update_step_well_formed; [|exact Hs]. apply guess_letter_upper; assumption.
    + apply update_step_recorded; assumption.
Qed.

End UpdateRecorded.

Lemma play_well_formed turns : forall st,
  Forall valid_turn turns -> well_formed st -> well_formed (play turns st).
Proof.
  induction turns as [|t turns IH]; intros st Hall Hwf; [exact Hwf|].
  inversion Hall as [|? ? Ht Hrest]; subst. cbn [play fold_left].
  apply IH; [exact Hrest|]. apply update_well_formed; assumption.
Qed.

(** The two letter strings only grow. *)
Lemma str_push_length s x : (length s <= length (str_push s x))%nat.
Proof.
  unfold str_push. destruct (Ascii.eqb x Ascii.zero); [lia|].
  rewrite length_app. lia.
Qed.

Lemma update_step_grows guess result_pattern confirmed tryIdx s idx :
  (length (pGood s)
   <= length (pGood (update_step guess result_pattern confirmed tryIdx s idx)))%nat
  /\ (length (pBad s)
      <= length (pBad (update_step guess result_pattern confirmed tryIdx s idx)))%nat.
Proof.
  assert (Hraise : forall c, (length (pGood s)
                              <= length (raise_required confirmed (pGood s) c))%nat).
  { intros c. unfold raise_required. destruct (_ <? _)%Z; [apply str_push_length | lia]. }
  unfold update_step.
  destruct (Ascii.eqb (char_at result_pattern idx) "G");
    [cbn [pGood pBad]; split; [apply Hraise | lia]|].
  destruct (Ascii.eqb (char_at result_pattern idx) "Y");
    [cbn [pGood pBad]; split; [apply Hraise | lia]|].
  destruct (Ascii.eqb (char_at result_pattern idx) "B"); [|split; lia].
  cbn [pGood pBad]. split; [lia|].
  destruct (_ =? 0)%Z; [|lia]. destruct (strchr _ _); [lia | apply str_push_length].
Qed.

Lemma update_loop_grows guess result_pattern confirmed tryIdx st n m :
  (n <= m)%nat ->
  (length (pGood (for_loop n (update_step guess result_pattern confirmed tryIdx) st))
   <= length (pGood (for_loop m (update_step guess result_pattern confirmed tryIdx) st)))%nat
  /\ (length (pBad (for_loop n (update_step guess result_pattern confirmed tryIdx) st))
      <= length (pBad (for_loop m (update_step guess result_pattern confirmed tryIdx)
                                st)))%nat.
Proof.
  induction 1 as [|m Hle [IH1 IH2]]; [split; lia|].
  rewrite (for_loop_S m).
  destruct (update_step_grows guess result_pattern confirmed tryIdx
              (for_loop m (update_step guess result_pattern confirmed tryIdx) st) m).
  split; lia.
Qed.

Lemma update_grows guess result_pattern tryIdx st :
  (length (pGood st)
   <= length (pGood (update_game_constraints guess result_pattern st tryIdx)))%nat
  /\ (length (pBad st)
      <= length (pBad (update_game_constraints guess result_pattern st tryIdx)))%nat.
Proof.
  unfold update_game_constraints.
  apply (update_loop_grows guess result_pattern
           (confirmed_counts guess result_pattern) tryIdx st 0 WORD_SIZE).
  unfold WORD_SIZE. lia.
Qed.

Lemma play_grows turns : forall st,
  (length (pGood st) <= length (pGood (play turns st)))%nat
  /\ (length (pBad st) <= length (pBad (play turns st)))%nat.
Proof.
  unfold play.
  induction turns as [|t turns IH]; intros st; cbn [fold_left]; [split; lia|].
  destruct (update_grows (turn_guess t) (turn_feedback t) (turn_index t) st).
  destruct (IH (update_game_constraints (turn_guess t) (turn_feedback t) st (turn_index t))).
  split; lia.
Qed.

Lemma play_app turns1 turns2 st :
  play (turns1 ++ turns2) st = play turns2 (play turns1 st).
Proof. unfold play. apply fold_left_app. Qed.

(** X7: along any sequence of valid turns after which the required and
    the excluded letters still fit the buffers of [main] (five letters
    in [char[6]], twenty-five in [char[26]]), they fit after every turn,
    so no turn writes outside a buffer, and after every turn the buffers
    are well formed: the mask keeps its five slots and the exclusion
    table its six rows of five, the required and the excluded letters
    stay upper case (guesses typed in lower case are folded), and no
    letter is listed twice among the excluded ones. *)
Theorem update_game_constraints_well_formed turns st :
  Forall valid_turn turns -> well_formed st -> fits_buffers (play turns st) ->
  forall k, well_formed (play (take k turns) st)
            /\ fits_buffers (play (take k turns) st).
Proof.
  intros Hall Hwf [Hgood Hbad] k. split.
  - apply play_well_formed; [apply Forall_take; exact Hall | exact Hwf].
  - rewrite <- (take_drop k turns), play_app in Hgood, Hbad.
    destruct (play_grows (drop k turns) (play (take k turns) st)).
    split; lia.
Qed.

Lemma update_game_constraints_well_formed_witness :
  let turns := [mkTurn (w "crane") (w "YGGBG") 1; mkTurn (w "slate") (w "BBGYG") 2] in
  (well_formed (play (take 1 turns) initial_state)
   /\ fits_buffers (play (take 1 turns) initial_state))
  /\ (well_formed (play (take 2 turns) initial_state)
      /\ fits_buffers (play (take 2 turns) initial_state)).
Proof.
  intros turns.
  assert (Hall : Forall valid_turn turns).
  { apply List.Forall_cons; [|apply List.Forall_cons; [|apply List.Forall_nil]];
      unfold valid_turn; cbn [turn_guess turn_feedback turn_index]; literal_turn. }
  assert (Hfits : fits_buffers (play turns initial_state)).
  { split; apply Nat.leb_le; vm_compute; reflexivity. }
  split;
    apply (update_game_constraints_well_formed turns initial_state Hall
             initial_state_well_formed Hfits).
Defined.

(** X8: what a turn records, when the letter strings still fit the
    buffers of [main] after it.  No position of the turn then writes
    outside a buffer; a Green fixes the slot of the mask to the
    (upper-cased) letter of the guess and all other slots keep their
    content; a Yellow or a Black writes the letter into the row of this
    turn of the exclusion table, at its position, and every other cell
    of the table keeps its content. *)
Theorem update_game_constraints_records t st :
  valid_turn t -> well_formed st ->
  fits_buffers (update_game_constraints (turn_guess t) (turn_feedback t) st (turn_index t)) ->
  (forall n, (n <= WORD_SIZE)%nat ->
     fits_buffers
       (for_loop n
          (update_step (turn_guess t) (turn_feedback t)
             (confirmed_counts (turn_guess t) (turn_feedback t)) (turn_index t))
          st))
  /\ (forall idx, (idx < WORD_SIZE)%nat ->
        char_at (pMask (update_game_constraints (turn_guess t) (turn_feedback t) st
                                                (turn_index t))) idx
        = if Ascii.eqb (char_at (turn_feedback t) idx) "G"
          then toupper (char_at (turn_guess t) idx) else char_at (pMask st) idx)
  /\ (forall r idx, (idx < WORD_SIZE)%nat ->
        cell (notMask (update_game_constraints (turn_guess t) (turn_feedback t) st
                                               (turn_index t))) r idx
        = if (r =? turn_index t - 1)%Z && excludes (char_at (turn_feedback t) idx)
          then toupper (char_at (turn_guess t) idx) else cell (notMask st) r idx).
Proof.
  intros Ht Hwf [Hgood Hbad]. destruct (update_recorded t st Ht Hwf) as [Hmask Hcell].
  split; [|split].
  - intros n Hn. unfold update_game_constraints in Hgood, Hbad.
    destruct (update_loop_grows (turn_guess t) (turn_feedback t)
                (confirmed_counts (turn_guess t) (turn_feedback t)) (turn_index t)
                st n WORD_SIZE Hn).
    split; lia.
  - intros idx Hidx. rewrite (Hmask idx Hidx).
    replace (idx <? WORD_SIZE)%nat with true by (symmetry; apply Nat.ltb_lt; exact Hidx).
    reflexivity.
  - intros r idx Hidx. rewrite (Hcell r idx Hidx).
    replace (idx <? WORD_SIZE)%nat with true by (symmetry; apply Nat.ltb_lt; exact Hidx).
    reflexivity.
Qed.

Lemma update_game_constraints_records_witness :
  let t := mkTurn (w "crane") (w "YGGBG") 1 in
  (forall n, (n <= WORD_SIZE)%nat ->
     fits_buffers
       (for_loop n
          (update_step (turn_guess t) (turn_feedback t)
             (confirmed_counts (turn_guess t) (turn_feedback t)) (turn_index t))
          initial_state))
  /\ (forall idx, (idx < WORD_SIZE)%nat ->
        char_at (pMask (update_game_constraints (turn_guess t) (turn_feedback t)
                                                initial_state (turn_index t))) idx
        = if Ascii.eqb (char_at (turn_feedback t) idx) "G"
          then toupper (char_at (turn_guess t) idx) else char_at (pMask initial_state) idx)
  /\ (forall r idx, (idx < WORD_SIZE)%nat ->
        cell (notMask (update_game_constraints (turn_guess t) (turn_feedback t)
                                               initial_state (turn_index t))) r idx
        = if (r =? turn_index t - 1)%Z && excludes (char_at (turn_feedback t) idx)
          then toupper (char_at (turn_guess t) idx) else cell (notMask initial_state) r idx).
Proof.
  apply (update_game_constraints_records (mkTurn (w "crane") (w "YGGBG") 1) initial_state).
  - unfold valid_turn. cbn [turn_guess turn_feedback turn_index]. literal_turn.
  - apply initial_state_well_formed.
  - split; apply Nat.leb_le; vm_compute; reflexivity.
Defined.

Section WrongGuess.

Lemma char_at_map_toupper (s : list ascii) idx :
  (idx < length s)%nat -> char_at (map toupper s) idx = toupper (char_at s idx).
Proof.
  intros H. unfold char_at.
  rewrite (nth_indep _ Ascii.zero (toupper Ascii.zero)) by (rewrite length_map; exact H).
  apply map_nth.
Qed.

Lemma not_all_green (fb : list ascii) :
  length fb = WORD_SIZE -> fb <> w "GGGGG" ->
  exists idx, (idx < WORD_SIZE)%nat /\ char_at fb idx <> "G".
Proof.
  intros Hlen Hne.
  destruct (existsb (fun idx => negb (Ascii.eqb (char_at fb idx) "G")) (seq 0 WORD_SIZE))
    eqn:E.
  - apply existsb_exists in E as [idx [Hin H]]. apply in_seq in Hin.
    exists idx. split; [lia|]. apply negb_true_iff, ascii_eqb_neq in H. exact H.
  - exfalso. apply Hne. apply char_at_ext; [exact Hlen|].
    intros i Hi. rewrite Hlen in Hi.
    assert (Hg : char_at fb i = "G").
    { destruct (Ascii.eqb (char_at fb i) "G") eqn:Eg; [apply ascii_eqb_eq; exact Eg|].
      exfalso. rewrite <- not_true_iff_false in E. apply E.
      apply existsb_exists. exists i. split; [apply in_seq; lia|]. rewrite Eg. reflexivity. }
    rewrite Hg. unfold WORD_SIZE in Hi.
    destruct i as [|[|[|[|[|i]]]]]; try reflexivity; lia.
Qed.

Lemma is_good_fit_position st pWord idx :
  (idx < WORD_SIZE)%nat -> position_ok st pWord idx = false -> is_good_fit st pWord = 0%Z.
Proof.
  intros Hidx H. unfold is_good_fit.
  destruct (negb (required_counts_ok (pGood st) pWord)); [reflexivity|].
  replace (forallb (position_ok st pWord) (seq 0 WORD_SIZE)) with false; [reflexivity|].
  symmetry. apply not_true_iff_false. intros Hall.
  rewrite forallb_forall in Hall. specialize (Hall idx).
  rewrite H in Hall. discriminate Hall. apply in_seq. lia.
Qed.

Lemma position_ok_excluded_cell st pWord idx r :
  (0 <= r < 6)%Z -> cell (notMask st) r idx = char_at pWord idx ->
  position_ok st pWord idx = false.
Proof.
  intros Hr Hcell. unfold position_ok.
  destruct (strchr (pBad st) (char_at pWord idx)); [reflexivity|].
  destruct (negb (Ascii.eqb (char_at (pMask st) idx) "*")
            && negb (Ascii.eqb (char_at (pMask st) idx) (char_at pWord idx)));
    [reflexivity|].
  apply not_true_iff_false. intros Hall. rewrite forallb_forall in Hall.
  specialize (Hall (Z.to_nat r)). rewrite Z2Nat.id, Hcell, Ascii.eqb_refl in Hall by lia.
  discriminate Hall. apply in_seq. lia.
Qed.

Lemma wrong_guess_rejected t st :
  valid_turn t -> well_formed st -> turn_feedback t <> w "GGGGG" ->
  is_good_fit (update_game_constraints (turn_guess t) (turn_feedback t) st (turn_index t))
              (map toupper (turn_guess t)) = 0%Z.
Proof.
  intros Ht Hwf Hne. pose proof Ht as (Hg & _ & Hfb & Hsym & Hidx).
  destruct (not_all_green _ Hfb Hne) as [idx [Hlt Hnot]].
  destruct (update_recorded t st Ht Hwf) as [_ Hcell].
  apply (is_good_fit_position _ _ idx Hlt).
  apply (position_ok_excluded_cell _ _ idx (turn_index t - 1)); [lia|].
  rewrite (Hcell _ idx Hlt), char_at_map_toupper by lia.
  replace (idx <? WORD_SIZE)%nat with true by (symmetry; apply Nat.ltb_lt; exact Hlt).
  rewrite Z.eqb_refl. cbn [andb].
  replace (excludes (char_at (turn_feedback t) idx)) with true; [reflexivity|].
  symmetry. unfold excludes.
  rewrite List.Forall_forall in Hsym.
  destruct (Hsym (char_at (turn_feedback t) idx)) as [E|[E|E]].
  - apply In_char_at. exists idx. split; [lia | reflexivity].
  - rewrite E. reflexivity.
  - contradiction.
  - rewrite E. reflexivity.
Qed.

End WrongGuess.

(** X9: a guess whose feedback is not all Green does not survive its
    own turn: after the update [is_good_fit] rejects the (upper-cased)
    guess, because each of its Yellow or Black positions now forbids its
    letter there. *)
Theorem guess_rejected_after_turn t st :
  valid_turn t -> well_formed st -> turn_feedback t <> w "GGGGG" ->
  is_good_fit (update_game_constraints (turn_guess t) (turn_feedback t) st (turn_index t))
              (map toupper (turn_guess t)) = 0%Z.
Proof. apply wrong_guess_rejected. Qed.

Lemma guess_rejected_after_turn_witness :
  is_good_fit (update_game_constraints (w "crane") (w "YGGBG") initial_state 1)
              (map toupper (w "crane")) = 0%Z.
Proof.
  apply (guess_rejected_after_turn (mkTurn (w "crane") (w "YGGBG") 1) initial_state).
  - unfold valid_turn. cbn [turn_guess turn_feedback turn_index]. literal_turn.
  - apply initial_state_well_formed.
  - discriminate.
Defined.

(** ** The answer under its own feedback *)

Section AnswerKept.

Lemma feedback_shape guess answer :
  wordle_word guess -> wordle_word answer ->
  length (get_feedback_pattern guess answer) = WORD_SIZE
  /\ Forall feedback_symbol (get_feedback_pattern guess answer).
Proof.
  intros Hg Ha. rewrite (feedback_refines guess answer Hg Ha).
  destruct Hg as [Hlg _], Ha as [Hla _]. split.
  - rewrite length_map. unfold reference_pattern.
    rewrite reference_length; [exact Hlg | symmetry; apply greens_length; congruence].
  - apply yellows_symbols.
Qed.

Lemma feedback_marked c guess answer :
  wordle_word guess -> wordle_word answer ->
  marked c guess (get_feedback_pattern guess answer)
  = Nat.min (occurrences c guess) (occurrences c answer).
Proof.
  intros Hg Ha. rewrite (feedback_refines guess answer Hg Ha).
  apply reference_marked. destruct Hg as [-> _], Ha as [-> _]. reflexivity.
Qed.

Lemma upper_is_letter c : is_upper c = true -> is_letter c = true.
Proof. intros H. unfold is_letter. rewrite H. reflexivity. Qed.

Lemma map_toupper_upper s : upper_word s -> map toupper s = s.
Proof.
  induction 1 as [|c s Hc Hs IH]; [reflexivity|].
  cbn [map]. rewrite IH, (toupper_upper c Hc). reflexivity.
Qed.

(** A turn answered by the evaluator is a valid turn. *)
Lemma evaluator_turn_valid guess answer tryIdx :
  wordle_word guess -> wordle_word answer -> (1 <= tryIdx <= 6)%Z ->
  valid_turn (mkTurn guess (get_feedback_pattern guess answer) tryIdx).
Proof.
  intros Hg Ha Ht. destruct (feedback_shape guess answer Hg Ha) as [Hlen Hsym].
  destruct Hg as [Hlg Hug]. unfold valid_turn. cbn [turn_guess turn_feedback turn_index].
  split; [exact Hlg|]. split; [|split; [exact Hlen | split; [exact Hsym | exact Ht]]].
  eapply Forall_impl; [exact Hug|]. intros c Hc. apply upper_is_letter. exact Hc.
Qed.

Lemma marked_at c (guess : list ascii) : forall (fb : list ascii) j,
  (j < length guess)%nat -> (j < length fb)%nat ->
  char_at guess j = c -> char_at fb j = "G" \/ char_at fb j = "Y" ->
  (1 <= marked c guess fb)%nat.
Proof.
  induction guess as [|g guess IH]; intros [|p fb] j Hj Hj' Hc Hp;
    cbn [length] in *; try lia.
  destruct j as [|j]; cbn [marked].
  - unfold char_at in Hc, Hp. cbn [nth] in Hc, Hp. subst g.
    rewrite Ascii.eqb_refl. destruct Hp as [-> | ->]; cbn; lia.
  - unfold char_at in *. cbn [nth] in Hc, Hp.
    specialize (IH fb j ltac:(lia) ltac:(lia) Hc Hp). lia.
Qed.

Lemma marked_exists c (guess : list ascii) : forall fb : list ascii,
  (1 <= marked c guess fb)%nat ->
  exists j, (j < length guess)%nat /\ char_at guess j = c
            /\ (char_at fb j = "G" \/ char_at fb j = "Y").
Proof.
  induction guess as [|g guess IH]; intros [|p fb] H; cbn [marked] in H; try lia.
  destruct (Ascii.eqb g c && (Ascii.eqb p "G" || Ascii.eqb p "Y")) eqn:E.
  - apply andb_prop in E as [Eg Ep]. apply ascii_eqb_eq in Eg.
    exists 0%nat. split; [cbn; lia|]. split; [exact Eg|].
    apply orb_prop in Ep as [Ep|Ep]; apply ascii_eqb_eq in Ep; [left | right]; exact Ep.
  - destruct (IH fb) as [j (Hj & Hc & Hp)]; [lia|].
    exists (S j). split; [cbn; lia|]. split; assumption.
Qed.

(** Without a Black before a Green of the same letter, a Black on a
    letter of the answer has a Green or Yellow of that letter to its
    left. *)
Lemma black_on_answer_letter guess answer n :
  wordle_word guess -> wordle_word answer ->
  ~ black_before_green guess (get_feedback_pattern guess answer) ->
  (n < WORD_SIZE)%nat ->
  char_at (get_feedback_pattern guess answer) n = "B" ->
  In (char_at guess n) answer ->
  exists j, (j < n)%nat /\ char_at guess j = char_at guess n
            /\ (char_at (get_feedback_pattern guess answer) j = "G"
                \/ char_at (get_feedback_pattern guess answer) j = "Y").
Proof.
  intros Hg Ha Hno Hn HB Hin.
  assert (Hm : (1 <= marked (char_at guess n) guess (get_feedback_pattern guess answer))%nat).
  { rewrite (feedback_marked _ guess answer Hg Ha).
    apply occurrences_pos_In in Hin.
    assert (In (char_at guess n) guess)
      by (apply In_char_at; exists n; split; [destruct Hg as [-> _]; exact Hn | reflexivity]).
    apply occurrences_pos_In in H. lia. }
  destruct (marked_exists _ _ _ Hm) as [j (Hj & Hc & Hp)].
  destruct Hg as [Hlg Hug]. rewrite Hlg in Hj.
  exists j. split; [|split; assumption].
  destruct (Nat.lt_trichotomy j n) as [Hlt|[Heq|Hgt]]; [exact Hlt | |].
  - subst j. rewrite HB in Hp. destruct Hp; discriminate.
  - exfalso. destruct Hp as [Hp|Hp].
    + apply Hno. exists n, j. repeat split; auto.
    + pose proof (feedback_yellow_before_black guess answer j n (conj Hlg Hug) Ha
                    Hj Hn Hc Hp HB). lia.
Qed.

Lemma update_step_pGood guess result_pattern confirmed tryIdx s n :
  pGood (update_step guess result_pattern confirmed tryIdx s n)
  = good_step confirmed (pGood s) (char_at guess n) (char_at result_pattern n).
Proof.
  unfold update_step, good_step.
  destruct (Ascii.eqb (char_at result_pattern n) "G"); [reflexivity|].
  destruct (Ascii.eqb (char_at result_pattern n) "Y"); [reflexivity|].
  destruct (Ascii.eqb (char_at result_pattern n) "B"); reflexivity.
Qed.

Lemma raise_required_has confirmed F s x :
  represents confirmed F -> is_upper x = true -> (1 <= F x)%nat ->
  (1 <= occurrences x (raise_required confirmed s x))%nat.
Proof.
  intros [_ Hget] Hx HF. unfold raise_required.
  rewrite required_count_occurrences, (Hget x Hx).
  destruct (Z.of_nat (occurrences x s) <? Z.of_nat (F x))%Z eqn:E.
  - unfold str_push.
    replace (Ascii.eqb x Ascii.zero) with false
      by (symmetry; apply ascii_eqb_neq, upper_not_nul; exact Hx).
    rewrite occurrences_app. cbn [occurrences]. rewrite Ascii.eqb_refl. lia.
  - apply Z.ltb_ge in E. lia.
Qed.

Lemma update_step_kept guess answer tryIdx n s :
  wordle_word guess -> wordle_word answer ->
  ~ black_before_green guess (get_feedback_pattern guess answer) ->
  (n < WORD_SIZE)%nat ->
  kept_so_far guess (get_feedback_pattern guess answer) answer n s ->
  kept_so_far guess (get_feedback_pattern guess answer) answer (S n)
    (update_step guess (get_feedback_pattern guess answer)
       (confirmed_counts guess (get_feedback_pattern guess answer)) tryIdx s n).
Proof.
  intros Hg Ha Hno Hn [Hreq Hbad].
  set (fb := get_feedback_pattern guess answer) in *.
  destruct (feedback_shape guess answer Hg Ha) as [Hlen _]. fold fb in Hlen.
  pose proof Hg as [Hlg Hug].
  assert (Hx : is_upper (char_at guess n) = true).
  { apply (upper_word_In guess); [exact Hug|]. apply In_char_at.
    exists n. split; [lia | reflexivity]. }
  assert (Hrep : represents (confirmed_counts guess fb) (fun c => marked c guess fb)).
  { eapply represents_ext.
    - apply (confirmed_counts_represents guess fb Hlg Hlen).
      eapply Forall_impl; [exact Hug|]. intros c Hc. apply upper_is_letter. exact Hc.
    - intros c. cbn beta. rewrite (map_toupper_upper guess Hug). reflexivity. }
  assert (Hext : extends s (update_step guess fb (confirmed_counts guess fb) tryIdx s n)).
  { apply update_step_extends. rewrite (toupper_upper _ Hx).
    apply upper_not_star. exact Hx. }
  split.
  - intros j Hj Hp. destruct (Nat.eq_dec j n) as [->|Hne].
    + rewrite update_step_pGood. unfold good_step.
      replace (Ascii.eqb (char_at fb n) "G" || Ascii.eqb (char_at fb n) "Y") with true
        by (destruct Hp as [-> | ->]; reflexivity).
      rewrite (toupper_upper _ Hx).
      apply (raise_required_has _ _ _ _ Hrep Hx).
      apply (marked_at _ guess fb n); [lia | lia | reflexivity | exact Hp].
    + destruct Hext as [Hocc _]. etransitivity; [apply (Hreq j); [lia | exact Hp]|].
      apply Hocc.
  - unfold update_step. rewrite (toupper_upper _ Hx).
    destruct (Ascii.eqb (char_at fb n) "G"); [exact Hbad|].
    destruct (Ascii.eqb (char_at fb n) "Y"); [exact Hbad|].
    destruct (Ascii.eqb (char_at fb n) "B") eqn:EB; [|exact Hbad].
    cbn [pBad]. apply ascii_eqb_eq in EB.
    destruct (required_count (pGood s) (char_at guess n) =? 0)%Z eqn:E0; [|exact Hbad].
    destruct (strchr (pBad s) (char_at guess n)); [exact Hbad|].
    apply Z.eqb_eq in E0. rewrite required_count_occurrences in E0.
    unfold str_push.
    replace (Ascii.eqb (char_at guess n) Ascii.zero) with false
      by (symmetry; apply ascii_eqb_neq, upper_not_nul; exact Hx).
    intros c Hc Hin. apply in_app_or in Hin as [Hin|Hin]; [exact (Hbad c Hc Hin)|].
    destruct Hin as [<-|[]].
    destruct (black_on_answer_letter guess answer n Hg Ha Hno Hn EB Hc)
      as [j (Hj & Hsame & Hp)].
    specialize (Hreq j Hj Hp). rewrite Hsame in Hreq. lia.
Qed.

End AnswerKept.

Section AnswerSurvives.

Lemma update_keeps_excluded guess answer tryIdx st :
  wordle_word guess -> wordle_word answer ->
  ~ black_before_green guess (get_feedback_pattern guess answer) ->
  avoids_excluded (pBad st) answer ->
  avoids_excluded
    (pBad (update_game_constraints guess (get_feedback_pattern guess answer) st tryIdx))
    answer.
Proof.
  intros Hg Ha Hno Hbad. unfold update_game_constraints.
  apply (for_loop_ind
           (kept_so_far guess (get_feedback_pattern guess answer) answer)).
  - split; [intros j Hj; lia | exact Hbad].
  - intros i s Hi Hs. apply update_step_kept; assumption.
Qed.

Lemma update_keeps_required guess answer tryIdx st :
  wordle_word guess -> wordle_word answer -> (1 <= tryIdx <= 6)%Z ->
  meets_required (pGood st) answer ->
  meets_required
    (pGood (update_game_constraints guess (get_feedback_pattern guess answer) st tryIdx))
    answer.
Proof.
  intros Hg Ha Ht Hreq c.
  pose proof (update_required_max c _ st (evaluator_turn_valid guess answer tryIdx Hg Ha Ht))
    as Hmax.
  cbn [turn_guess turn_feedback turn_index] in Hmax. rewrite Hmax.
  destruct Hg as [Hlg Hug]. rewrite (map_toupper_upper guess Hug).
  rewrite (feedback_marked c guess answer (conj Hlg Hug) Ha).
  specialize (Hreq c). lia.
Qed.

Lemma update_keeps_mask guess answer tryIdx st :
  wordle_word guess -> wordle_word answer -> (1 <= tryIdx <= 6)%Z -> well_formed st ->
  matches_mask (pMask st) answer ->
  matches_mask
    (pMask (update_game_constraints guess (get_feedback_pattern guess answer) st tryIdx))
    answer.
Proof.
  intros Hg Ha Ht Hwf Hmask idx Hidx.
  destruct (update_recorded _ st (evaluator_turn_valid guess answer tryIdx Hg Ha Ht) Hwf)
    as [Hrec _].
  cbn [turn_guess turn_feedback turn_index] in Hrec. rewrite (Hrec idx Hidx).
  replace (idx <? WORD_SIZE)%nat with true by (symmetry; apply Nat.ltb_lt; exact Hidx).
  cbn [andb].
  destruct (Ascii.eqb (char_at (get_feedback_pattern guess answer) idx) "G") eqn:E.
  - intros _. apply ascii_eqb_eq in E.
    apply (feedback_green_iff guess answer Hg Ha idx Hidx) in E.
    rewrite toupper_upper; [symmetry; exact E|].
    apply (upper_word_In guess); [apply Hg|]. apply In_char_at.
    exists idx. split; [destruct Hg as [-> _]; exact Hidx | reflexivity].
  - apply Hmask. exact Hidx.
Qed.

Lemma update_keeps_forbidden guess answer tryIdx st :
  wordle_word guess -> wordle_word answer -> (1 <= tryIdx <= 6)%Z -> well_formed st ->
  avoids_forbidden (notMask st) answer ->
  avoids_forbidden
    (notMask (update_game_constraints guess (get_feedback_pattern guess answer) st tryIdx))
    answer.
Proof.
  intros Hg Ha Ht Hwf Hforb idx Hidx [Hstar [turn0 [Hturn Hcell]]].
  destruct (update_recorded _ st (evaluator_turn_valid guess answer tryIdx Hg Ha Ht) Hwf)
    as [_ Hrec].
  cbn [turn_guess turn_feedback turn_index] in Hrec. rewrite (Hrec _ idx Hidx) in Hcell.
  replace (idx <? WORD_SIZE)%nat with true in Hcell
    by (symmetry; apply Nat.ltb_lt; exact Hidx).
  cbn [andb] in Hcell.
  destruct ((Z.of_nat turn0 =? tryIdx - 1)%Z
            && excludes (char_at (get_feedback_pattern guess answer) idx)) eqn:E.
  - apply andb_prop in E as [_ E]. unfold excludes in E.
    apply andb_prop in E as [E _]. apply negb_true_iff, ascii_eqb_neq in E.
    apply E. apply (feedback_green_iff guess answer Hg Ha idx Hidx).
    rewrite <- Hcell. symmetry. apply toupper_upper.
    apply (upper_word_In guess); [apply Hg|]. apply In_char_at.
    exists idx. split; [destruct Hg as [-> _]; exact Hidx | reflexivity].
  - apply (Hforb idx Hidx). split; [exact Hstar|]. exists turn0. split; assumption.
Qed.

Lemma NoDup_no_black_before_green guess fb :
  length guess = WORD_SIZE -> NoDup guess -> ~ black_before_green guess fb.
Proof.
  intros Hlen Hnd (i & j & Hij & Hj & Hsame & _).
  assert (Hi : guess !! i = Some (char_at guess i))
    by (apply char_at_lookup; [lia | reflexivity]).
  assert (Hj' : guess !! j = Some (char_at guess i))
    by (apply char_at_lookup; [lia | symmetry; exact Hsame]).
  pose proof (NoDup_lookup guess i j _ Hnd Hi Hj'). lia.
Qed.

Lemma safe_guess_no_black_before_green answer guess :
  safe_guess answer guess ->
  ~ black_before_green guess (get_feedback_pattern guess answer).
Proof.
  intros [[Hlen _] [Hnd|Hno]]; [|exact Hno].
  apply NoDup_no_black_before_green; assumption.
Qed.

Lemma initial_state_passes answer : passes initial_state answer.
Proof.
  unfold passes, initial_state. cbn [pGood pBad pMask notMask].
  split; [intros c H; cbn in H; lia|].
  split; [intros c _ H; destruct H|].
  split.
  - intros idx Hidx H. exfalso. apply H. unfold char_at.
    rewrite nth_lookup, lookup_replicate_2 by exact Hidx. reflexivity.
  - intros idx Hidx [Hstar [turn0 [Hturn Hcell]]]. apply Hstar. rewrite <- Hcell.
    unfold cell, char_at.
    replace (0 <=? Z.of_nat turn0)%Z with true by (symmetry; apply Z.leb_le; lia).
    rewrite Nat2Z.id, lookup_replicate_2 by exact Hturn.
    change (default [] (Some ?y)) with y.
    rewrite nth_lookup, lookup_replicate_2 by exact Hidx. reflexivity.
Qed.

(** A game against [answer] with safe guesses keeps the state well
    formed and the answer passing. *)
Lemma play_against_passes answer guesses : forall tryIdx st,
  wordle_word answer -> Forall (safe_guess answer) guesses ->
  (1 <= tryIdx)%Z -> (tryIdx + Z.of_nat (length guesses) <= 7)%Z ->
  well_formed st -> passes st answer ->
  well_formed (play_against answer tryIdx st guesses)
  /\ passes (play_against answer tryIdx st guesses) answer.
Proof.
  induction guesses as [|guess guesses IH]; intros tryIdx st Ha Hall Ht Hlen Hwf Hpass;
    [split; assumption|].
  inversion Hall as [|? ? Hsafe Hrest]; subst. cbn [length] in Hlen.
  cbn [play_against].
  pose proof Hsafe as [Hg _].
  assert (Hidx : (1 <= tryIdx <= 6)%Z) by lia.
  destruct Hpass as (Hp1 & Hp2 & Hp3 & Hp4).
  pose proof (safe_guess_no_black_before_green answer guess Hsafe) as Hno.
  apply (IH (tryIdx + 1)%Z _ Ha Hrest).
  - lia.
  - lia.
  - apply (update_well_formed (mkTurn guess (get_feedback_pattern guess answer) tryIdx)).
    + apply evaluator_turn_valid; [exact Hg | exact Ha | exact Hidx].
    + exact Hwf.
  - split; [exact (update_keeps_required guess answer tryIdx st Hg Ha Hidx Hp1)|].
    split; [exact (update_keeps_excluded guess answer tryIdx st Hg Ha Hno Hp2)|].
    split; [exact (update_keeps_mask guess answer tryIdx st Hg Ha Hidx Hwf Hp3)|].
    exact (update_keeps_forbidden guess answer tryIdx st Hg Ha Hidx Hwf Hp4).
Qed.

End AnswerSurvives.

(** X10: one turn answered by the evaluator never turns the required
    counts, the green mask or the positional exclusions against the
    answer; and the excluded letters stay clear of the answer too when
    the feedback has no Black to the left of a Green of the same
    letter. *)
Theorem answer_kept_by_turn guess answer tryIdx st :
  wordle_word guess -> wordle_word answer -> (1 <= tryIdx <= 6)%Z -> well_formed st ->
  let st' := update_game_constraints guess (get_feedback_pattern guess answer) st tryIdx in
  (meets_required (pGood st) answer -> meets_required (pGood st') answer)
  /\ (matches_mask (pMask st) answer -> matches_mask (pMask st') answer)
  /\ (avoids_forbidden (notMask st) answer -> avoids_forbidden (notMask st') answer)
  /\ (~ black_before_green guess (get_feedback_pattern guess answer) ->
      avoids_excluded (pBad st) answer -> avoids_excluded (pBad st') answer).
Proof.
  intros Hg Ha Ht Hwf. cbv zeta.
  split; [exact (update_keeps_required guess answer tryIdx st Hg Ha Ht)|].
  split; [exact (update_keeps_mask guess answer tryIdx st Hg Ha Ht Hwf)|].
  split; [exact (update_keeps_forbidden guess answer tryIdx st Hg Ha Ht Hwf)|].
  intros Hno. exact (update_keeps_excluded guess answer tryIdx st Hg Ha Hno).
Qed.

Lemma answer_kept_by_turn_witness :
  let guess := w "LLAMA" in
  let answer := w "ALARM" in
  let st' := update_game_constraints guess (get_feedback_pattern guess answer)
                                     initial_state 1 in
  (meets_required (pGood initial_state) answer -> meets_required (pGood st') answer)
  /\ (matches_mask (pMask initial_state) answer -> matches_mask (pMask st') answer)
  /\ (avoids_forbidden (notMask initial_state) answer
      -> avoids_forbidden (notMask st') answer)
  /\ (~ black_before_green guess (get_feedback_pattern guess answer) ->
      avoids_excluded (pBad initial_state) answer -> avoids_excluded (pBad st') answer).
Proof.
  apply (answer_kept_by_turn (w "LLAMA") (w "ALARM") 1 initial_state).
  - literal_word.
  - literal_word.
  - lia.
  - apply initial_state_well_formed.
Defined.

(** X11: in a game of up to six turns against a fixed answer, played
    from the initial state with guesses that have no repeated letter (or
    whose feedback has no Black before a Green of the same letter), the
    answer passes [is_good_fit] after every turn: the filter never
    removes it. *)
Theorem answer_survives_safe_game answer guesses :
  wordle_word answer -> Forall (safe_guess answer) guesses ->
  (length guesses <= 6)%nat ->
  is_good_fit (play_against answer 1 initial_state guesses) answer = 1%Z.
Proof.
  intros Ha Hall Hlen.
  destruct (play_against_passes answer guesses 1 initial_state Ha Hall)
    as [Hwf Hpass]; [lia | lia | apply initial_state_well_formed
                     | apply initial_state_passes |].
  apply is_good_fit_iff; [apply Hwf | exact Ha | exact Hpass].
Qed.

Lemma answer_survives_safe_game_witness :
  is_good_fit (play_against (w "TRACE") 1 initial_state [w "CRANE"; w "SLATE"])
              (w "TRACE") = 1%Z.
Proof.
  apply (answer_survives_safe_game (w "TRACE") [w "CRANE"; w "SLATE"]).
  - literal_word.
  - apply List.Forall_cons; [|apply List.Forall_cons; [|apply List.Forall_nil]];
      (split; [literal_word | left; repeat constructor; vm_compute; intros H;
                               repeat (apply elem_of_cons in H as [H|H]; [discriminate H|]);
                               apply elem_of_nil in H; exact H]).
  - cbn. lia.
Defined.

(** ** Candidate filter: what the compaction leaves where *)

(** X12: [filter_possible_answers] is a stable in-place compaction: the
    first [numNewAnswers] slots hold the words of the first
    [numCurrentAnswers] candidates on which [is_good_fit] is not 0, in
    their original order; the count is between 0 and
    [numCurrentAnswers]; the array keeps its length and the slots from
    [numCurrentAnswers] on are not written. *)
Theorem filter_possible_answers_stable st cands n :
  (0 <= n <= Z.of_nat (length cands))%Z ->
  take (Z.to_nat (snd (filter_possible_answers cands n st)))
       (fst (filter_possible_answers cands n st))
  = List.filter (fun pWord => negb (is_good_fit st pWord =? 0)%Z) (take (Z.to_nat n) cands)
  /\ (0 <= snd (filter_possible_answers cands n st) <= n)%Z
  /\ length (fst (filter_possible_answers cands n st)) = length cands
  /\ drop (Z.to_nat n) (fst (filter_possible_answers cands n st))
     = drop (Z.to_nat n) cands.
Proof.
  intros Hn. unfold filter_possible_answers.
  pose proof (filter_loop_invariant st cands (Z.to_nat n)
                (Z_to_nat_le_length _ _ (proj2 Hn))) as H.
  destruct (for_loop (Z.to_nat n) (filter_step st) (cands, 0%Z)) as [arr m].
  destruct H as (Hm & Htake & Hdrop & Hlen). cbn [fst snd].
  split; [exact Htake|]. split; [|split; assumption].
  rewrite Hm. split; [lia|].
  pose proof (List.filter_length_le (kept st) (take (Z.to_nat n) cands)) as Hle.
  rewrite length_take in Hle. lia.
Qed.

Lemma filter_possible_answers_stable_witness :
  let cands := [w "CRANE"; w "SLATE"; w "TRACE"; w "REACT"] in
  let st := state_crane_trace in
  take (Z.to_nat (snd (filter_possible_answers cands 3 st)))
       (fst (filter_possible_answers cands 3 st))
  = List.filter (fun pWord => negb (is_good_fit st pWord =? 0)%Z) (take (Z.to_nat 3) cands)
  /\ (0 <= snd (filter_possible_answers cands 3 st) <= 3)%Z
  /\ length (fst (filter_possible_answers cands 3 st)) = length cands
  /\ drop (Z.to_nat 3) (fst (filter_possible_answers cands 3 st))
     = drop (Z.to_nat 3) cands.
Proof.
  apply (filter_possible_answers_stable state_crane_trace
           [w "CRANE"; w "SLATE"; w "TRACE"; w "REACT"] 3).
  simpl. lia.
Defined.

(** ** Risk assessor: the flag in terms of repeated letters *)

Lemma occurrences_NoDup s : (forall c, (occurrences c s <= 1)%nat) -> NoDup s.
Proof.
  induction s as [|x s IH]; intros H; [apply NoDup_nil_2|].
  apply NoDup_cons_2.
  - intros Hx. apply list_elem_of_In, occurrences_pos_In in Hx.
    specialize (H x). cbn [occurrences] in H. rewrite Ascii.eqb_refl in H. lia.
  - apply IH. intros c. specialize (H c). cbn [occurrences] in H. lia.
Qed.

(** X13: [is_guess_word_risky] flags a five-letter guess exactly when
    some letter occurs at least twice in it and more often than in the
    required letters; with no required letter yet (the first turn) the
    unflagged words are exactly those without a repeated letter. *)
Theorem is_guess_word_risky_repeats guess pGood0 :
  wordle_word guess -> upper_word pGood0 ->
  (is_guess_word_risky guess pGood0 = true
   <-> exists c, (2 <= occurrences c guess)%nat
                 /\ (occurrences c pGood0 < occurrences c guess)%nat)
  /\ (is_guess_word_risky guess (pGood initial_state) = false <-> NoDup guess).
Proof.
  intros Hw Hgood. split; [exact (is_guess_word_risky_iff guess pGood0 Hw Hgood)|].
  assert (Hnil : upper_word (pGood initial_state)) by apply List.Forall_nil.
  pose proof (is_guess_word_risky_iff guess _ Hw Hnil) as Hiff.
  split.
  - intros Hf. apply occurrences_NoDup. intros c.
    destruct (le_lt_dec (occurrences c guess) 1) as [Hle|Hgt]; [exact Hle|].
    exfalso. assert (Ht : is_guess_word_risky guess (pGood initial_state) = true).
    { apply Hiff. exists c. split; [exact Hgt | cbn; lia]. }
    rewrite Hf in Ht. discriminate Ht.
  - intros Hnd. apply not_true_is_false. intros Ht. apply Hiff in Ht as [c [H1 _]].
    pose proof (NoDup_occurrences c guess Hnd). lia.
Qed.

Lemma is_guess_word_risky_repeats_witness :
  (is_guess_word_risky (w "LLAMA") (w "L") = true
   <-> exists c, (2 <= occurrences c (w "LLAMA"))%nat
                 /\ (occurrences c (w "L") < occurrences c (w "LLAMA"))%nat)
  /\ (is_guess_word_risky (w "LLAMA") (pGood initial_state) = false
      <-> NoDup (w "LLAMA")).
Proof.
  apply (is_guess_word_risky_repeats (w "LLAMA") (w "L")).
  - literal_word.
  - repeat constructor.
Defined.

(** ** Look-up of a metric by word *)

Lemma find_seq_Some (f : nat -> bool) n : forall a i,
  List.find f (seq a n) = Some i
  <-> (a <= i < a + n)%nat /\ f i = true /\ forall j, (a <= j < i)%nat -> f j = false.
Proof.
  induction n as [|n IH]; intros a i; cbn [seq List.find].
  - split; [discriminate | intros [H _]; lia].
  - destruct (f a) eqn:E.
    + split.
      * intros H. injection H as <-. split; [lia|]. split; [exact E|]. intros j Hj. lia.
      * intros (Hi & Hfi & Hlt). f_equal.
        destruct (Nat.eq_dec a i) as [Hai|Hai]; [exact Hai|].
        rewrite Hlt in E by lia. discriminate E.
    + rewrite IH. split.
      * intros (Hi & Hfi & Hlt). split; [lia|]. split; [exact Hfi|].
        intros j Hj. destruct (Nat.eq_dec j a) as [->|Hja]; [exact E | apply Hlt; lia].
      * intros (Hi & Hfi & Hlt).
        assert (Hne : a <> i) by (intros ->; rewrite Hfi in E; discriminate E).
        split; [lia|]. split; [exact Hfi|]. intros j Hj. apply Hlt. lia.
Qed.

Lemma find_seq_None (f : nat -> bool) n a :
  List.find f (seq a n) = None <-> forall i, (a <= i < a + n)%nat -> f i = false.
Proof.
  split.
  - intros H i Hi. apply (find_none _ _ H). apply in_seq. lia.
  - intros H. destruct (List.find f (seq a n)) as [i|] eqn:E; [|reflexivity].
    apply find_seq_Some in E as (Hi & Hfi & _). rewrite H in Hfi by lia. discriminate Hfi.
Qed.

(** X14: [find_metric_by_word] returns the first entry among the first
    [num] whose word equals the searched word, and nothing exactly when
    the searched word is the sentinel or no such entry has it. *)
Theorem find_metric_by_word_first word0 pArray num :
  (forall m,
     find_metric_by_word word0 pArray num = Some m
     <-> word0 <> NONE
         /\ exists i, (i < Z.to_nat num)%nat
                      /\ m = metric_at pArray i
                      /\ word (metric_at pArray i) = word0
                      /\ forall j, (j < i)%nat -> word (metric_at pArray j) <> word0)
  /\ (find_metric_by_word word0 pArray num = None
      <-> word0 = NONE
          \/ forall i, (i < Z.to_nat num)%nat -> word (metric_at pArray i) <> word0).
Proof.
  unfold find_metric_by_word.
  destruct (str_eqb word0 NONE) eqn:EN.
  - apply str_eqb_true_iff in EN. split.
    + intros m. split; [discriminate | intros [H _]; contradiction].
    + split; [intros _; left; exact EN | reflexivity].
  - apply str_eqb_false_iff in EN.
    destruct (List.find _ _) as [i|] eqn:E.
    + apply find_seq_Some in E as (Hi & Hfi & Hlt). apply str_eqb_true_iff in Hfi.
      split.
      * intros m. split.
        -- intros H. injection H as <-. split; [exact EN|]. exists i.
           split; [lia|]. split; [reflexivity|]. split; [exact Hfi|].
           intros j Hj. apply str_eqb_false_iff. apply Hlt. lia.
        -- intros (_ & k & Hk & -> & Hwk & Hbefore). f_equal. f_equal.
           destruct (lt_eq_lt_dec i k) as [[Hik|Hik]|Hik]; [|exact Hik|].
           ++ exfalso. exact (Hbefore i Hik Hfi).
           ++ exfalso. specialize (Hlt k). apply str_eqb_false_iff in Hlt; [|lia].
              exact (Hlt Hwk).
      * split; [discriminate|]. intros [H|H]; [contradiction|].
        exfalso. apply (H i); [lia | exact Hfi].
    + pose proof (proj1 (find_seq_None _ _ _) E) as Hnone. split.
      * intros m. split; [discriminate|]. intros (_ & k & Hk & _ & Hwk & _).
        exfalso. specialize (Hnone k). apply str_eqb_false_iff in Hnone; [|lia].
        exact (Hnone Hwk).
      * split; [|reflexivity]. intros _. right. intros i Hi.
        apply str_eqb_false_iff. apply Hnone. lia.
Qed.

(** ** Admissible picks: the complete case analysis *)

Section PickCases.

Variable pSortedMetrics : list GUESS_METRICS.

(** With the primary word found, the search loop stops at the next
    admissible entry. *)
Lemma scan_picks_second todo : forall pResult,
  scan_picks pSortedMetrics todo pResult 1
  = match List.filter (fun i => admissible (metric_at pSortedMetrics i)) todo with
    | [] => (pResult, 1%Z)
    | j :: _ => ({| pick_word := pick_word pResult;
                    alternate_word := word (metric_at pSortedMetrics j) |}, 2%Z)
    end.
Proof.
  induction todo as [|i todo IH]; intros pResult; cbn [scan_picks List.filter];
    [reflexivity|].
  destruct (admissible (metric_at pSortedMetrics i)).
  - reflexivity.
  - apply IH.
Qed.

Lemma scan_picks_first todo : forall pResult,
  scan_picks pSortedMetrics todo pResult 0
  = match List.filter (fun i => admissible (metric_at pSortedMetrics i)) todo with
    | [] => (pResult, 0%Z)
    | [i] => ({| pick_word := word (metric_at pSortedMetrics i);
                 alternate_word := alternate_word pResult |}, 1%Z)
    | i :: j :: _ => ({| pick_word := word (metric_at pSortedMetrics i);
                         alternate_word := word (metric_at pSortedMetrics j) |}, 2%Z)
    end.
Proof.
  induction todo as [|i todo IH]; intros pResult; cbn [scan_picks List.filter];
    [reflexivity|].
  destruct (admissible (metric_at pSortedMetrics i)).
  - cbn [Z.eqb Z.add]. rewrite scan_picks_second.
    destruct (List.filter (fun i => admissible (metric_at pSortedMetrics i)) todo)
      as [|j rest]; reflexivity.
  - apply IH.
Qed.

End PickCases.

(** X15: [find_top_linguistic_picks] returns the words of the first two
    admissible entries; when only one entry is admissible, that entry
    and as alternate the second entry of the list (the sentinel if the
    list has one entry or the second entry carries the primary word);
    when none is admissible, the first entry of the list with the same
    alternate; on an empty list both words are the sentinel. *)
Theorem find_top_linguistic_picks_cases pSortedMetrics numMetrics :
  find_top_linguistic_picks pSortedMetrics numMetrics
  = picks_by_admissible pSortedMetrics numMetrics.
Proof.
  unfold find_top_linguistic_picks, picks_by_admissible.
  rewrite scan_picks_first.
  destruct (List.filter _ (seq 0 (Z.to_nat numMetrics))) as [|i [|j rest]] eqn:E;
    unfold backfill, fallback_alternate; cbn [pick_word alternate_word Z.ltb Z.eqb Z.compare andb].
  - destruct (0 <? numMetrics)%Z eqn:E0; [|reflexivity].
    cbn [pick_word alternate_word Z.eqb andb].
    destruct (1 <? numMetrics)%Z eqn:E1; cbn [andb].
    + replace (str_eqb NONE NONE) with true by reflexivity.
      destruct (negb (str_eqb _ _)); reflexivity.
    + destruct (numMetrics =? 1)%Z; reflexivity.
  - assert (Hin : In i (seq 0 (Z.to_nat numMetrics))).
    { apply (proj1 (List.filter_In (fun i => admissible (metric_at pSortedMetrics i)) i
                      (seq 0 (Z.to_nat numMetrics)))).
      rewrite E. left. reflexivity. }
    apply in_seq in Hin.
    replace (0 <? numMetrics)%Z with true by (symmetry; apply Z.ltb_lt; lia).
    cbn [pick_word alternate_word Z.eqb andb].
    destruct (1 <? numMetrics)%Z eqn:E1; cbn [andb].
    + replace (str_eqb NONE NONE) with true by reflexivity.
      destruct (negb (str_eqb _ _)); reflexivity.
    + destruct (numMetrics =? 1)%Z; reflexivity.
  - reflexivity.
Qed.

(** ** The recommendation: picks always resolve *)

Lemma find_metric_by_word_present word0 pArray num i :
  word0 <> NONE -> (i < Z.to_nat num)%nat -> word (metric_at pArray i) = word0 ->
  exists k, (k < Z.to_nat num)%nat
            /\ find_metric_by_word word0 pArray num = Some (metric_at pArray k)
            /\ word (metric_at pArray k) = word0.
Proof.
  intros Hne Hi Hw. unfold find_metric_by_word.
  replace (str_eqb word0 NONE) with false by (symmetry; apply str_eqb_false_iff; exact Hne).
  destruct (List.find _ _) as [k|] eqn:E.
  - apply find_some in E as [Hk E]. apply in_seq in Hk. apply str_eqb_true_iff in E.
    exists k. split; [lia|]. split; [reflexivity | exact E].
  - exfalso. pose proof (find_none _ _ E i) as H. cbv beta in H.
    rewrite (proj2 (str_eqb_true_iff _ _) Hw) in H.
    assert (Hin : In i (seq 0 (Z.to_nat num))) by (apply in_seq; lia).
    specialize (H Hin). discriminate H.
Qed.

Lemma axis_pick_resolves pSortedMetrics numMetrics :
  (0 < numMetrics)%Z -> five_letter_words pSortedMetrics numMetrics ->
  exists k, (k < Z.to_nat numMetrics)%nat
            /\ find_metric_by_word
                 (pick_word (find_top_linguistic_picks pSortedMetrics numMetrics))
                 pSortedMetrics numMetrics
               = Some (metric_at pSortedMetrics k)
            /\ word (metric_at pSortedMetrics k)
               = pick_word (find_top_linguistic_picks pSortedMetrics numMetrics).
Proof.
  intros Hn Hwords.
  destruct (find_top_linguistic_picks_primary pSortedMetrics numMetrics Hn) as [i [Hi Hp]].
  apply (find_metric_by_word_present _ pSortedMetrics numMetrics i).
  - rewrite Hp. intros Hnone. pose proof (Hwords i Hi) as Hlen.
    rewrite Hnone in Hlen. discriminate Hlen.
  - exact Hi.
  - symmetry. exact Hp.
Qed.

(** X16: in the recommendation of a turn with candidates left, whose
    entries carry five-character words, both axis picks resolve to
    entries [r] and [e] of their buffers, so the branch for an
    unresolved pick is never taken: with more than 25 candidates the
    recommendation is [e] when |H(e) - H(r)|, the absolute value of the
    binary64 difference of their entropies, exceeds 0.50 and [r]
    otherwise, and with at most 25 candidates it is the first entry of
    the rank buffer.  The gap, 0.50 and 25 are written out. *)
Theorem recommendation_resolves pRankSorted pEntropySorted numPossibleAnswers :
  (0 < numPossibleAnswers)%Z ->
  five_letter_words pRankSorted numPossibleAnswers ->
  five_letter_words pEntropySorted numPossibleAnswers ->
  exists i j,
    (i < Z.to_nat numPossibleAnswers)%nat /\ (j < Z.to_nat numPossibleAnswers)%nat
    /\ word (metric_at pRankSorted i)
       = pick_word (find_top_linguistic_picks pRankSorted numPossibleAnswers)
    /\ word (metric_at pEntropySorted j)
       = pick_word (find_top_linguistic_picks pEntropySorted numPossibleAnswers)
    /\ recommendation pRankSorted pEntropySorted numPossibleAnswers
       = if (25 <? numPossibleAnswers)%Z
         then if PrimFloat.ltb 0.5
                   (PrimFloat.abs (PrimFloat.sub (entropy (metric_at pEntropySorted j))
                                                 (entropy (metric_at pRankSorted i))))
              then of_metric (metric_at pEntropySorted j)
              else of_metric (metric_at pRankSorted i)
         else of_metric (metric_at pRankSorted 0).
Proof.
  intros Hn HR HE.
  destruct (axis_pick_resolves pRankSorted numPossibleAnswers Hn HR) as (i & Hi & Hfr & Hwr).
  destruct (axis_pick_resolves pEntropySorted numPossibleAnswers Hn HE) as (j & Hj & Hfe & Hwe).
  exists i, j. split; [exact Hi|]. split; [exact Hj|].
  split; [exact Hwr|]. split; [exact Hwe|].
  unfold recommendation, determine_final_pick. cbv zeta. rewrite Hfr, Hfe.
  unfold entropy_diff, ENTROPY_RANK_THRESHOLD, LOW_POSSIBLE_ANSWER_COUNT.
  destruct (25 <? numPossibleAnswers)%Z; [|reflexivity].
  destruct (PrimFloat.ltb 0.5
              (PrimFloat.abs (PrimFloat.sub (entropy (metric_at pEntropySorted j))
                                            (entropy (metric_at pRankSorted i)))));
    [reflexivity|].
  unfold of_metric. rewrite Hwr. reflexivity.
Qed.

Lemma thirty_five_letter_words a b :
  length (word a) = WORD_SIZE -> length (word b) = WORD_SIZE ->
  five_letter_words (thirty a b) 30.
Proof.
  intros Ha Hb i Hi. change (Z.to_nat 30) with 30%nat in Hi.
  do 30 (destruct i as [|i]; [first [exact Ha | exact Hb | reflexivity]|]). lia.
Qed.

Lemma recommendation_resolves_witness :
  let slate := metric "SLATE" 2%float 80 "S" "N" false in
  let crane := metric "CRANE" 2.75%float 50 "S" "N" false in
  exists i j,
    (i < Z.to_nat 30)%nat /\ (j < Z.to_nat 30)%nat
    /\ word (metric_at (thirty slate crane) i)
       = pick_word (find_top_linguistic_picks (thirty slate crane) 30)
    /\ word (metric_at (thirty crane slate) j)
       = pick_word (find_top_linguistic_picks (thirty crane slate) 30)
    /\ recommendation (thirty slate crane) (thirty crane slate) 30
       = if (25 <? 30)%Z
         then if PrimFloat.ltb 0.5
                   (PrimFloat.abs
                      (PrimFloat.sub (entropy (metric_at (thirty crane slate) j))
                                     (entropy (metric_at (thirty slate crane) i))))
              then of_metric (metric_at (thirty crane slate) j)
              else of_metric (metric_at (thirty slate crane) i)
         else of_metric (metric_at (thirty slate crane) 0).
Proof.
  intros slate crane.
  apply (recommendation_resolves (thirty slate crane) (thirty crane slate) 30).
  - lia.
  - apply thirty_five_letter_words; reflexivity.
  - apply thirty_five_letter_words; reflexivity.
Defined.

(** ** Input lines: what [trim] removes *)

Section TrimFacts.

Lemma trim_scan_app xs : forall ys current keep,
  trim_scan (xs ++ ys) current keep
  = trim_scan ys (current + length xs) (trim_scan xs current keep).
Proof.
  induction xs as [|x xs IH]; intros ys current keep; cbn [app trim_scan length].
  - rewrite Nat.add_0_r. reflexivity.
  - rewrite IH. f_equal. lia.
Qed.

Lemma trim_scan_blanks ws : forall current keep,
  Forall (fun c => is_blank c = true) ws -> trim_scan ws current keep = keep.
Proof.
  induction ws as [|x ws IH]; intros current keep H; [reflexivity|].
  inversion H as [|? ? Hx Hws]; subst. cbn [trim_scan]. rewrite Hx. cbn [negb].
  apply IH. exact Hws.
Qed.

(** A string is all blanks, or ends in a character that is not a blank
    followed by blanks only. *)
Lemma blank_tail_split (str : list ascii) :
  Forall (fun c => is_blank c = true) str
  \/ exists pre c ws, str = pre ++ c :: ws /\ is_blank c = false
                      /\ Forall (fun c => is_blank c = true) ws.
Proof.
  induction str as [|x str IH]; [left; constructor|].
  destruct IH as [Hall|(pre & c & ws & -> & Hc & Hws)].
  - destruct (is_blank x) eqn:E.
    + left. constructor; assumption.
    + right. exists [], x, str. auto.
  - right. exists (x :: pre), c, ws. auto.
Qed.

Lemma trim_blanks ws : Forall (fun c => is_blank c = true) ws -> trim ws = [].
Proof. intros H. unfold trim. rewrite trim_scan_blanks by exact H. apply take_0. Qed.

Lemma trim_ends pre c ws :
  is_blank c = false -> Forall (fun c => is_blank c = true) ws ->
  trim (pre ++ c :: ws) = pre ++ [c].
Proof.
  intros Hc Hws. unfold trim.
  change (c :: ws) with ([c] ++ ws). rewrite app_assoc.
  rewrite (trim_scan_app (pre ++ [c]) ws), trim_scan_blanks by exact Hws.
  rewrite (trim_scan_app pre [c]). cbn [trim_scan]. rewrite Hc. cbn [negb].
  replace (S (0 + length pre)) with (length (pre ++ [c])) by (rewrite length_app; simpl; lia).
  apply take_app_length.
Qed.

End TrimFacts.

(** X17: [trim] cuts the string after its last character that is not a
    space, tab, line feed or carriage return: the result is a prefix of
    the input, what it drops is blanks only, the result does not end in
    a blank, and leading blanks in front of such a character are kept.
    Trimming twice is trimming once. *)
Theorem trim_cuts_trailing_blanks (str : list ascii) :
  (exists tail, str = trim str ++ tail /\ Forall (fun c => is_blank c = true) tail)
  /\ (forall pre c, trim str = pre ++ [c] -> is_blank c = false)
  /\ (forall c, In c str -> is_blank c = false -> hd_error (trim str) = hd_error str)
  /\ trim (trim str) = trim str.
Proof.
  destruct (blank_tail_split str) as [Hall|(pre & c & ws & -> & Hc & Hws)].
  - rewrite (trim_blanks str Hall). split; [exists str; split; [reflexivity | exact Hall]|].
    split; [intros pre c H; destruct pre; discriminate H|].
    split; [|reflexivity].
    intros c Hin Hc. rewrite List.Forall_forall in Hall. rewrite (Hall c Hin) in Hc.
    discriminate Hc.
  - rewrite (trim_ends pre c ws Hc Hws). split.
    + exists ws. split; [|exact Hws]. rewrite <- app_assoc. reflexivity.
    + split.
      * intros pre' c' H. apply app_inj_tail in H as [_ <-]. exact Hc.
      * split; [intros _ _ _; destruct pre; reflexivity|].
        change [c] with (c :: []). apply trim_ends; [exact Hc | constructor].
Qed.

(** ** The end of the game: what the solved test announces *)

Section SolvedFacts.

Variable answer : list ascii.
Hypothesis Hanswer : wordle_word answer.

Lemma wordle_word_char_upper s idx :
  wordle_word s -> (idx < WORD_SIZE)%nat -> is_upper (char_at s idx) = true.
Proof.
  intros [Hlen Hup] Hidx. apply (upper_word_In s); [exact Hup|].
  apply In_char_at. exists idx. split; [rewrite Hlen; exact Hidx | reflexivity].
Qed.

(** The mask cell after one turn answered by the evaluator. *)
Lemma update_mask_cell guess tryIdx st idx :
  wordle_word guess -> (1 <= tryIdx <= 6)%Z -> well_formed st -> (idx < WORD_SIZE)%nat ->
  char_at (pMask (update_game_constraints guess (get_feedback_pattern guess answer)
                                          st tryIdx)) idx
  = if Ascii.eqb (char_at (get_feedback_pattern guess answer) idx) "G"
    then char_at guess idx else char_at (pMask st) idx.
Proof using Hanswer.
  intros Hg Ht Hwf Hidx.
  pose proof (update_recorded (mkTurn guess (get_feedback_pattern guess answer) tryIdx) st
                (evaluator_turn_valid guess answer tryIdx Hg Hanswer Ht) Hwf) as [Hmask _].
  cbn [turn_guess turn_feedback turn_index] in Hmask.
  rewrite (Hmask idx Hidx).
  replace (idx <? WORD_SIZE)%nat with true by (symmetry; apply Nat.ltb_lt; exact Hidx).
  cbn [andb]. rewrite (toupper_upper _ (wordle_word_char_upper guess idx Hg Hidx)).
  reflexivity.
Qed.

Lemma update_keeps_filled guess tryIdx st :
  wordle_word guess -> (1 <= tryIdx <= 6)%Z -> well_formed st ->
  mask_filled st ->
  mask_filled (update_game_constraints guess (get_feedback_pattern guess answer) st tryIdx).
Proof using Hanswer.
  intros Hg Ht Hwf Hfull idx Hidx.
  rewrite (update_mask_cell guess tryIdx st idx Hg Ht Hwf Hidx).
  destruct (Ascii.eqb _ "G"); [|exact (Hfull idx Hidx)].
  apply upper_not_star. apply wordle_word_char_upper; assumption.
Qed.

Lemma update_answer_fills tryIdx st :
  (1 <= tryIdx <= 6)%Z -> well_formed st ->
  mask_filled (update_game_constraints answer (get_feedback_pattern answer answer) st tryIdx).
Proof using Hanswer.
  intros Ht Hwf idx Hidx.
  rewrite (update_mask_cell answer tryIdx st idx Hanswer Ht Hwf Hidx).
  replace (Ascii.eqb (char_at (get_feedback_pattern answer answer) idx) "G") with true.
  - apply upper_not_star. apply wordle_word_char_upper; assumption.
  - symmetry. apply ascii_eqb_eq.
    apply (feedback_green_iff answer answer Hanswer Hanswer idx Hidx). reflexivity.
Qed.

(** Whatever the guesses, the mask agrees with the answer, and it is
    filled from the turn in which the answer itself is guessed. *)
Lemma play_against_mask guesses : forall tryIdx st,
  Forall wordle_word guesses ->
  (1 <= tryIdx)%Z -> (tryIdx + Z.of_nat (length guesses) <= 7)%Z ->
  well_formed st -> matches_mask (pMask st) answer ->
  well_formed (play_against answer tryIdx st guesses)
  /\ matches_mask (pMask (play_against answer tryIdx st guesses)) answer
  /\ (mask_filled st \/ In answer guesses ->
      mask_filled (play_against answer tryIdx st guesses)).
Proof using Hanswer.
  induction guesses as [|guess guesses IH]; intros tryIdx st Hall Ht Hlen Hwf Hmask.
  - cbn [play_against]. split; [exact Hwf|]. split; [exact Hmask|].
    intros [H|H]; [exact H | destruct H].
  - inversion Hall as [|? ? Hg Hrest]; subst. cbn [length] in Hlen.
    cbn [play_against].
    assert (Hidx : (1 <= tryIdx <= 6)%Z) by lia.
    pose proof (update_well_formed (mkTurn guess (get_feedback_pattern guess answer) tryIdx) st
                  (evaluator_turn_valid guess answer tryIdx Hg Hanswer Hidx) Hwf) as Hwf'.
    cbn [turn_guess turn_feedback turn_index] in Hwf'.
    pose proof (update_keeps_mask guess answer tryIdx st Hg Hanswer Hidx Hwf Hmask) as Hmask'.
    destruct (IH (tryIdx + 1)%Z _ Hrest ltac:(lia) ltac:(lia) Hwf' Hmask')
      as (H1 & H2 & H3).
    split; [exact H1|]. split; [exact H2|].
    intros [Hfull|[Heq|Hin]]; apply H3.
    + left. exact (update_keeps_filled guess tryIdx st Hg Hidx Hwf Hfull).
    + left. subst guess. exact (update_answer_fills tryIdx st Hidx Hwf).
    + right. exact Hin.
Qed.

Lemma solved_true_iff st :
  length (pMask st) = WORD_SIZE -> solved st = true <-> mask_filled st.
Proof.
  intros Hlen. unfold solved, strchr, mask_filled. cbn [Ascii.eqb Bool.eqb andb].
  rewrite negb_true_iff. split.
  - intros Hnone idx Hidx Hstar.
    assert (Hex : existsb (Ascii.eqb "*") (pMask st) = true).
    { apply existsb_exists. exists "*". split; [|reflexivity].
      apply In_char_at. exists idx. split; [rewrite Hlen; exact Hidx | exact Hstar]. }
    rewrite Hex in Hnone. discriminate Hnone.
  - intros Hfull. apply not_true_is_false. intros Hex.
    apply existsb_exists in Hex as [c [Hin Hc]]. apply ascii_eqb_eq in Hc. subst c.
    apply In_char_at in Hin as [idx [Hidx Hstar]]. rewrite Hlen in Hidx.
    exact (Hfull idx Hidx Hstar).
Qed.

Lemma initial_mask_matches : matches_mask (pMask initial_state) answer.
Proof. apply initial_state_passes. Qed.

End SolvedFacts.

(** X18: in a game of up to six five-letter guesses against a fixed
    answer, played from the initial state, the test of the game loop
    ([strchr(mask, '*') == NULL]) succeeds only with the mask equal to
    the answer, and it succeeds once the answer has been guessed. *)
Theorem solved_announces_answer answer guesses :
  wordle_word answer -> Forall wordle_word guesses -> (length guesses <= 6)%nat ->
  (solved (play_against answer 1 initial_state guesses) = true ->
   pMask (play_against answer 1 initial_state guesses) = answer)
  /\ (In answer guesses -> solved (play_against answer 1 initial_state guesses) = true).
Proof.
  intros Ha Hall Hlen.
  destruct (play_against_mask answer Ha guesses 1 initial_state Hall)
    as (Hwf & Hmask & Hfill);
    [lia | lia | apply initial_state_well_formed | apply initial_mask_matches |].
  pose proof Hwf as [Hmlen _]. split.
  - intros Hs. apply (solved_true_iff _ Hmlen) in Hs.
    apply (nth_ext _ _ Ascii.zero Ascii.zero); [rewrite Hmlen; symmetry; apply Ha|].
    intros idx Hidx. rewrite Hmlen in Hidx. symmetry.
    exact (Hmask idx Hidx (Hs idx Hidx)).
  - intros Hin. apply (solved_true_iff _ Hmlen). apply Hfill. right. exact Hin.
Qed.

Lemma solved_announces_answer_witness :
  (solved (play_against (w "TRACE") 1 initial_state [w "CRANE"; w "TRACE"]) = true ->
   pMask (play_against (w "TRACE") 1 initial_state [w "CRANE"; w "TRACE"]) = w "TRACE")
  /\ (In (w "TRACE") [w "CRANE"; w "TRACE"] ->
      solved (play_against (w "TRACE") 1 initial_state [w "CRANE"; w "TRACE"]) = true).
Proof.
  apply (solved_announces_answer (w "TRACE") [w "CRANE"; w "TRACE"]).
  - literal_word.
  - apply List.Forall_cons; [literal_word|].
    apply List.Forall_cons; [literal_word | apply List.Forall_nil].
  - cbn. lia.
Defined.

(** ** One round of the game loop: update, then filter *)

Section RoundFacts.

Lemma all_green_same guess answer :
  wordle_word guess -> wordle_word answer ->
  get_feedback_pattern guess answer = w "GGGGG" -> guess = answer.
Proof.
  intros Hg Ha Hfb.
  apply (nth_ext _ _ Ascii.zero Ascii.zero);
    [destruct Hg as [-> _], Ha as [-> _]; reflexivity|].
  intros idx Hidx. destruct Hg as [Hlen Hup]. rewrite Hlen in Hidx.
  apply (feedback_green_iff guess answer (conj Hlen Hup) Ha idx Hidx).
  rewrite Hfb. do 5 (destruct idx as [|idx]; [reflexivity|]).
  unfold WORD_SIZE in Hidx. lia.
Qed.

Lemma filter_length_lt {A : Type} (f : A -> bool) (l : list A) x :
  In x l -> f x = false -> (length (List.filter f l) < length l)%nat.
Proof.
  induction l as [|y l IH]; intros Hin Hx; [destruct Hin|].
  cbn [List.filter length]. pose proof (List.filter_length_le f l) as Hle.
  destruct Hin as [->|Hin].
  - rewrite Hx. lia.
  - specialize (IH Hin Hx). destruct (f y); cbn [length]; lia.
Qed.

End RoundFacts.

(** X19: one round of the game loop against a fixed answer (update with
    the evaluator's feedback, then filter), from a well-formed state
    that admits the answer, with a wrong guess that has no repeated
    letter (or no Black before a Green of the same letter): the answer
    stays among the candidates, the guess does not, so at least one
    candidate remains, and the list gets strictly shorter when the
    guess was one of the candidates. *)
Theorem wrong_guess_shrinks_candidates answer guess tryIdx st cands n :
  wordle_word answer -> safe_guess answer guess -> guess <> answer ->
  (1 <= tryIdx <= 6)%Z -> well_formed st -> passes st answer ->
  (0 <= n <= Z.of_nat (length cands))%Z -> In answer (take (Z.to_nat n) cands) ->
  let st' := update_game_constraints guess (get_feedback_pattern guess answer) st tryIdx in
  let arr := fst (filter_possible_answers cands n st') in
  let m := snd (filter_possible_answers cands n st') in
  In answer (take (Z.to_nat m) arr)
  /\ ~ In guess (take (Z.to_nat m) arr)
  /\ (1 <= m <= n)%Z
  /\ (In guess (take (Z.to_nat n) cands) -> (m < n)%Z).
Proof.
  intros Ha Hsafe Hne Ht Hwf Hpass Hn Hin. cbv zeta.
  pose proof Hsafe as [Hg _].
  pose proof (safe_guess_no_black_before_green answer guess Hsafe) as Hno.
  pose proof (evaluator_turn_valid guess answer tryIdx Hg Ha Ht) as Hvalid.
  pose proof (update_well_formed _ st Hvalid Hwf) as Hwf'.
  pose proof (wrong_guess_rejected _ st Hvalid Hwf) as Hrej.
  cbn [turn_guess turn_feedback turn_index] in Hwf', Hrej.
  rewrite (map_toupper_upper guess (proj2 Hg)) in Hrej.
  assert (Hfb : get_feedback_pattern guess answer <> w "GGGGG")
    by (intros H; apply Hne; exact (all_green_same guess answer Hg Ha H)).
  specialize (Hrej Hfb).
  destruct Hpass as (Hp1 & Hp2 & Hp3 & Hp4).
  set (st' := update_game_constraints guess (get_feedback_pattern guess answer) st tryIdx)
    in *.
  assert (Hpass' : passes st' answer).
  { split; [exact (update_keeps_required guess answer tryIdx st Hg Ha Ht Hp1)|].
    split; [exact (update_keeps_excluded guess answer tryIdx st Hg Ha Hno Hp2)|].
    split; [exact (update_keeps_mask guess answer tryIdx st Hg Ha Ht Hwf Hp3)|].
    exact (update_keeps_forbidden guess answer tryIdx st Hg Ha Ht Hwf Hp4). }
  assert (Hgood' : upper_word (pGood st')) by apply Hwf'.
  assert (Hka : kept st' answer = true).
  { apply kept_true_iff. apply (is_good_fit_iff st' answer Hgood' Ha). exact Hpass'. }
  assert (Hkg : kept st' guess = false).
  { unfold kept. rewrite Hrej. reflexivity. }
  pose proof (filter_possible_answers_spec st' cands n (proj2 Hn)) as H.
  destruct (filter_possible_answers cands n st') as [arr m].
  destruct H as (Hm & Htake & _). cbn [fst snd]. rewrite Htake.
  assert (Hina : In answer (List.filter (kept st') (take (Z.to_nat n) cands)))
    by (apply List.filter_In; split; assumption).
  pose proof (List.filter_length_le (kept st') (take (Z.to_nat n) cands)) as Hle.
  rewrite length_take in Hle.
  split; [exact Hina|].
  split; [intros Hing; apply List.filter_In in Hing as [_ Hk]; rewrite Hkg in Hk;
          discriminate Hk|].
  split.
  - rewrite Hm. split; [|lia].
    destruct (List.filter (kept st') (take (Z.to_nat n) cands)); [destruct Hina|].
    cbn [length]. lia.
  - intros Hing. rewrite Hm.
    pose proof (filter_length_lt (kept st') _ guess Hing Hkg) as Hlt.
    rewrite length_take in Hlt. lia.
Qed.

Lemma wrong_guess_shrinks_candidates_witness :
  let cands := [w "CRANE"; w "SLATE"; w "TRACE"; w "REACT"] in
  let st' := update_game_constraints (w "CRANE")
               (get_feedback_pattern (w "CRANE") (w "TRACE")) initial_state 1 in
  let arr := fst (filter_possible_answers cands 4 st') in
  let m := snd (filter_possible_answers cands 4 st') in
  In (w "TRACE") (take (Z.to_nat m) arr)
  /\ ~ In (w "CRANE") (take (Z.to_nat m) arr)
  /\ (1 <= m <= 4)%Z
  /\ (In (w "CRANE") (take (Z.to_nat 4) cands) -> (m < 4)%Z).
Proof.
  apply (wrong_guess_shrinks_candidates (w "TRACE") (w "CRANE") 1 initial_state
           [w "CRANE"; w "SLATE"; w "TRACE"; w "REACT"] 4).
  - literal_word.
  - split; [literal_word|]. left. repeat constructor; vm_compute; intros H;
      repeat (apply elem_of_cons in H as [H|H]; [discriminate H|]);
      apply elem_of_nil in H; exact H.
  - discriminate.
  - lia.
  - apply initial_state_well_formed.
  - apply initial_state_passes.
  - simpl. lia.
  - simpl. right. right. left. reflexivity.
Defined.

(** ** The result typed in: what the validation loop lets through *)

Section ValidateFacts.

Lemma symbol_test c :
  negb (Ascii.eqb c "B") && negb (Ascii.eqb c "G") && negb (Ascii.eqb c "Y") = false
  <-> feedback_symbol c.
Proof.
  unfold feedback_symbol. split.
  - intros H. destruct (Ascii.eqb c "B") eqn:EB; [left; apply ascii_eqb_eq; exact EB|].
    destruct (Ascii.eqb c "G") eqn:EG; [right; left; apply ascii_eqb_eq; exact EG|].
    destruct (Ascii.eqb c "Y") eqn:EY; [right; right; apply ascii_eqb_eq; exact EY|].
    discriminate H.
  - intros [ -> | [ -> | -> ] ]; reflexivity.
Qed.

(** The loop from offset [length pre] over [k] positions. *)
Lemma validate_from_spec k : forall pre suf,
  (snd (validate_from (pre ++ suf) (seq (length pre) k)) = true
   <-> (k <= length suf)%nat /\ Forall (fun c => feedback_symbol (toupper c)) (take k suf))
  /\ (snd (validate_from (pre ++ suf) (seq (length pre) k)) = true ->
      fst (validate_from (pre ++ suf) (seq (length pre) k))
      = pre ++ map toupper (take k suf) ++ drop k suf).
Proof.
  induction k as [|k IH]; intros pre suf; cbn [seq validate_from].
  - cbn [fst snd]. rewrite take_0, drop_0. split; [|reflexivity].
    split; [intros _; split; [lia | constructor] | reflexivity].
  - destruct suf as [|c suf].
    + rewrite app_nil_r. rewrite list_insert_ge by lia.
      unfold char_at. rewrite nth_overflow by lia.
      cbn [snd fst]. split; [|discriminate].
      split; [discriminate | intros [H _]; cbn in H; lia].
    + assert (Hins : <[length pre := toupper (char_at (pre ++ c :: suf) (length pre))]>
                       (pre ++ c :: suf) = (pre ++ [toupper c]) ++ suf).
      { unfold char_at. rewrite app_nth2, Nat.sub_diag by lia. cbn [nth].
        rewrite insert_app_r_alt, Nat.sub_diag by lia. cbn [insert list_insert].
        rewrite <- app_assoc. reflexivity. }
      rewrite Hins.
      assert (Hch : char_at ((pre ++ [toupper c]) ++ suf) (length pre) = toupper c).
      { unfold char_at. rewrite <- app_assoc. rewrite app_nth2, Nat.sub_diag by lia.
        reflexivity. }
      rewrite Hch.
      destruct (negb (Ascii.eqb (toupper c) "B") && negb (Ascii.eqb (toupper c) "G")
                && negb (Ascii.eqb (toupper c) "Y")) eqn:E.
      * cbn [snd fst]. split; [|discriminate].
        split; [discriminate|]. intros [_ H]. cbn [take] in H.
        inversion H as [|? ? Hc _]; subst. apply symbol_test in Hc.
        rewrite Hc in E. discriminate E.
      * apply symbol_test in E.
        replace (S (length pre)) with (length (pre ++ [toupper c]))
          by (rewrite length_app; simpl; lia).
        destruct (IH (pre ++ [toupper c]) suf) as [Hiff Hfst]. split.
        -- rewrite Hiff. cbn [length take]. split.
           ++ intros [Hk Hall]. split; [lia|]. constructor; assumption.
           ++ intros [Hk Hall]. inversion Hall; subst. split; [lia | assumption].
        -- intros H. rewrite (Hfst H). cbn [take drop map].
           rewrite <- app_assoc. reflexivity.
Qed.

End ValidateFacts.

(** X20: the validation loop over the result typed in (at most five
    characters fit the buffer) lets through exactly the inputs of five
    characters that are b, g or y in either case, and what it then
    leaves in the buffer is the input in upper case: five symbols out
    of B, G, Y. *)
Theorem validate_result_accepts (result_input : list ascii) :
  (length result_input <= WORD_SIZE)%nat ->
  (snd (validate_result result_input) = true
   <-> length result_input = WORD_SIZE
       /\ Forall (fun c => feedback_symbol (toupper c)) result_input)
  /\ (snd (validate_result result_input) = true ->
      fst (validate_result result_input) = map toupper result_input
      /\ length (fst (validate_result result_input)) = WORD_SIZE
      /\ Forall feedback_symbol (fst (validate_result result_input))).
Proof.
  intros Hlen. unfold validate_result.
  destruct (validate_from_spec WORD_SIZE [] result_input) as [Hiff Hfst].
  cbn [app length] in Hiff, Hfst.
  assert (Hiff' : snd (validate_from result_input (seq 0 WORD_SIZE)) = true
                  <-> length result_input = WORD_SIZE
                      /\ Forall (fun c => feedback_symbol (toupper c)) result_input).
  { rewrite Hiff. split.
    - intros [Hk Hall]. assert (Heq : length result_input = WORD_SIZE) by lia.
      split; [exact Heq|]. rewrite <- Heq, firstn_all in Hall. exact Hall.
    - intros [Heq Hall]. split; [lia|]. rewrite <- Heq, firstn_all. exact Hall. }
  split; [exact Hiff'|].
  intros H. pose proof (proj1 Hiff' H) as [Heq Hall].
  assert (Hval : fst (validate_from result_input (seq 0 WORD_SIZE))
                 = map toupper result_input).
  { rewrite (Hfst H), <- Heq, firstn_all, skipn_all, app_nil_r. reflexivity. }
  rewrite Hval.
  split; [reflexivity|]. split; [rewrite length_map; exact Heq|].
  apply Forall_map. exact Hall.
Qed.

Lemma validate_result_accepts_witness :
  (snd (validate_result (w "bgYbb")) = true
   <-> length (w "bgYbb") = WORD_SIZE
       /\ Forall (fun c => feedback_symbol (toupper c)) (w "bgYbb"))
  /\ (snd (validate_result (w "bgYbb")) = true ->
      fst (validate_result (w "bgYbb")) = map toupper (w "bgYbb")
      /\ length (fst (validate_result (w "bgYbb"))) = WORD_SIZE
      /\ Forall feedback_symbol (fst (validate_result (w "bgYbb")))).
Proof.
  apply (validate_result_accepts (w "bgYbb")). apply Nat.leb_le. reflexivity.
Defined.

(** ** Dictionary lines: reading back a well-formed line *)

Section DictionaryFacts.

Import Dictionary.

Lemma digit_cases d : (d < 10)%nat ->
  is_digit (digit d) = true /\ is_space (digit d) = false
  /\ Ascii.eqb (digit d) "-" = false /\ Ascii.eqb (digit d) "+" = false
  /\ (Z.of_nat (nat_of_ascii (digit d)) - 48)%Z = Z.of_nat d.
Proof.
  intros Hd. do 10 (destruct d as [|d]; [repeat split; reflexivity|]). lia.
Qed.

Lemma atoi_three_digits a b c :
  (a < 10)%nat -> (b < 10)%nat -> (c < 10)%nat ->
  atoi [digit a; digit b; digit c] = (100 * Z.of_nat a + 10 * Z.of_nat b + Z.of_nat c)%Z.
Proof.
  intros Ha Hb Hc.
  destruct (digit_cases a Ha) as (Da & Sa & Ma & Pa & Va).
  destruct (digit_cases b Hb) as (Db & _ & _ & _ & Vb).
  destruct (digit_cases c Hc) as (Dc & _ & _ & _ & Vc).
  cbn [atoi atoi_digits]. rewrite Sa, Ma, Pa, Da, Db, Dc, Va, Vb, Vc. lia.
Qed.

End DictionaryFacts.

(** X21: a dictionary line in the documented format (five characters
    of word, three decimal digits of rank, noun type, verb type) that
    ends in blanks or a line break is read back as the upper-cased word,
    the number the three digits write, and the two type characters,
    provided the verb type is not itself a blank. *)
Theorem parse_line_round_trip wd a b c n v ending :
  length wd = WORD_SIZE -> (a < 10)%nat -> (b < 10)%nat -> (c < 10)%nat ->
  is_blank v = false -> Forall (fun x => is_blank x = true) ending ->
  Dictionary.parse_line
    (wd ++ [digit a; digit b; digit c; n; v] ++ ending)
  = Some {| Dictionary.word := map toupper wd;
            Dictionary.rank := (100 * Z.of_nat a + 10 * Z.of_nat b + Z.of_nat c)%Z;
            Dictionary.nounType := n;
            Dictionary.verbType := v |}.
Proof.
  intros Hwd Ha Hb Hc Hv Hend. unfold Dictionary.parse_line.
  assert (Htrim : trim (wd ++ [digit a; digit b; digit c;
                               n; v] ++ ending)
                  = wd ++ [digit a; digit b; digit c; n; v]).
  { change ([digit a; digit b; digit c; n; v] ++ ending)
      with ([digit a; digit b; digit c; n] ++ v :: ending).
    rewrite app_assoc, (trim_ends _ v ending Hv Hend), <- app_assoc. reflexivity. }
  rewrite Htrim. cbv zeta. clear Htrim.
  destruct wd as [|c1 [|c2 [|c3 [|c4 [|c5 [|c6 wd]]]]]]; try discriminate Hwd.
  unfold char_at, WORD_SIZE. cbn [app length Nat.leb take drop map nth].
  rewrite (atoi_three_digits a b c Ha Hb Hc). reflexivity.
Qed.

Lemma parse_line_round_trip_witness :
  Dictionary.parse_line
    (w "crane" ++ [digit 0; digit 8; digit 5; "S"; "N"]
     ++ ["010"])
  = Some {| Dictionary.word := map toupper (w "crane");
            Dictionary.rank := (100 * Z.of_nat 0 + 10 * Z.of_nat 8 + Z.of_nat 5)%Z;
            Dictionary.nounType := "S";
            Dictionary.verbType := "N" |}.
Proof.
  apply (parse_line_round_trip (w "crane") 0 8 5 "S" "N" ["010"]).
  - reflexivity.
  - lia.
  - lia.
  - lia.
  - reflexivity.
  - repeat constructor.
Defined.

(** ** Dictionary table: what the reading loop stores *)

Lemma read_lines_from lines maxDictionary : forall table,
  (length table <= Z.to_nat maxDictionary)%nat ->
  fold_left
    (fun table buffer =>
       if (Z.of_nat (length table) <? maxDictionary)%Z then
         match Dictionary.parse_line buffer with
         | Some pEntry => table ++ [pEntry]
         | None => table
         end
       else table)
    lines table
  = table ++ take (Z.to_nat maxDictionary - length table)
                  (omap Dictionary.parse_line lines).
Proof.
  induction lines as [|buffer lines IH]; intros table Hlen; cbn [fold_left].
  - change (omap Dictionary.parse_line []) with (@nil Dictionary.WORD_ENTRY).
    rewrite take_nil, app_nil_r. reflexivity.
  - change (omap Dictionary.parse_line (buffer :: lines))
      with (match Dictionary.parse_line buffer with
            | Some y => y :: omap Dictionary.parse_line lines
            | None => omap Dictionary.parse_line lines
            end).
    destruct (Z.of_nat (length table) <? maxDictionary)%Z eqn:E.
    + apply Z.ltb_lt in E. destruct (Dictionary.parse_line buffer) as [pEntry|].
      * rewrite IH by (rewrite length_app; simpl; lia).
        rewrite length_app. cbn [length].
        replace (Z.to_nat maxDictionary - length table)%nat
          with (S (Z.to_nat maxDictionary - (length table + 1))) by lia.
        cbn [take]. rewrite <- app_assoc. reflexivity.
      * apply IH. exact Hlen.
    + apply Z.ltb_ge in E. rewrite IH by exact Hlen.
      replace (Z.to_nat maxDictionary - length table)%nat with 0%nat by lia.
      rewrite !take_0. reflexivity.
Qed.

(** X22: the reading loop of [get_dictionary_table] stores, in file
    order, the entries of the lines that have at least ten characters
    after trimming, and stops at [maxDictionary] entries: the table never
    holds more than that, whatever the file. *)
Theorem read_lines_bounded lines maxDictionary :
  Dictionary.read_lines lines maxDictionary
  = take (Z.to_nat maxDictionary) (omap Dictionary.parse_line lines)
  /\ (Z.of_nat (length (Dictionary.read_lines lines maxDictionary))
      <= Z.max 0 maxDictionary)%Z.
Proof.
  assert (H : Dictionary.read_lines lines maxDictionary
              = take (Z.to_nat maxDictionary) (omap Dictionary.parse_line lines)).
  { unfold Dictionary.read_lines. rewrite read_lines_from by (cbn; lia).
    cbn [app length]. rewrite Nat.sub_0_r. reflexivity. }
  split; [exact H|]. rewrite H, length_take. lia.
Qed.

(** ** Sort comparators: ties within [EPSILON] *)

(** X23: the comparators are not consistent orders.  Because entropies
    closer than [EPSILON] count as tied, [sortMetricsByEntropyDescending]
    can place a first entry before a second, the second before a third
    and the third before the first; and [sortMetricsByRankDescending]
    can report two ties in a row between entries it does not report as
    tied with each other. *)
Theorem comparators_not_transitive :
  (exists a b c,
     (sortMetricsByEntropyDescending a b < 0)%Z
     /\ (sortMetricsByEntropyDescending b c < 0)%Z
     /\ (sortMetricsByEntropyDescending c a < 0)%Z)
  /\ (exists a b c,
        sortMetricsByRankDescending a b = 0%Z
        /\ sortMetricsByRankDescending b c = 0%Z
        /\ sortMetricsByRankDescending a c <> 0%Z).
Proof.
  split.
  - exists (metric "CRANE" 0%float 3 "S" "N" false),
           (metric "SLATE" 0x1p-30%float 2 "S" "N" false),
           (metric "TRACE" 0x1p-29%float 1 "S" "N" false).
    split; [vm_compute; reflexivity|]. split; vm_compute; reflexivity.
  - exists (metric "CRANE" 0%float 1 "S" "N" false),
           (metric "SLATE" 0x1p-30%float 1 "S" "N" false),
           (metric "TRACE" 0x1p-29%float 1 "S" "N" false).
    split; [vm_compute; reflexivity|]. split; [vm_compute; reflexivity|].
    vm_compute. discriminate.
Qed.

(** ** The same turn entered twice *)

Section SameTurn.

Lemma update_step_pBad_keeps guess result_pattern confirmed tryIdx s idx x :
  In x (pBad s) -> In x (pBad (update_step guess result_pattern confirmed tryIdx s idx)).
Proof.
  intros Hin. unfold update_step.
  destruct (Ascii.eqb (char_at result_pattern idx) "G"); [exact Hin|].
  destruct (Ascii.eqb (char_at result_pattern idx) "Y"); [exact Hin|].
  destruct (Ascii.eqb (char_at result_pattern idx) "B"); [|exact Hin].
  cbn [pBad]. destruct (_ =? 0)%Z; [|exact Hin].
  destruct (strchr _ _); [exact Hin|].
  unfold str_push. destruct (Ascii.eqb _ Ascii.zero); [exact Hin|].
  apply in_or_app. left. exact Hin.
Qed.

Lemma update_step_blacks guess result_pattern confirmed tryIdx s n :
  is_upper (toupper (char_at guess n)) = true ->
  blacks_excluded guess result_pattern n s ->
  blacks_excluded guess result_pattern (S n)
    (update_step guess result_pattern confirmed tryIdx s n).
Proof.
  intros Hup Hinv j Hj HB Hzero.
  assert (Hmono : forall c, (occurrences c (pGood s)
                   <= occurrences c (pGood (update_step guess result_pattern confirmed
                                                        tryIdx s n)))%nat).
  { apply (update_step_extends guess result_pattern confirmed tryIdx s n).
    apply upper_not_star. exact Hup. }
  destruct (Nat.eq_dec j n) as [->|Hne].
  - clear Hinv Hmono. revert Hzero. unfold update_step. rewrite HB.
    cbn [Ascii.eqb Bool.eqb andb pGood pBad]. intros Hzero.
    rewrite required_count_occurrences, Hzero. cbn [Z.of_nat Z.eqb].
    destruct (strchr (pBad s) (toupper (char_at guess n))) eqn:E.
    + apply strchr_In in E; [exact E | apply upper_not_nul; exact Hup].
    + unfold str_push.
      replace (Ascii.eqb (toupper (char_at guess n)) Ascii.zero) with false
        by (symmetry; apply ascii_eqb_neq, upper_not_nul; exact Hup).
      apply in_or_app. right. left. reflexivity.
  - apply update_step_pBad_keeps. apply (Hinv j); [lia | exact HB|].
    specialize (Hmono (toupper (char_at guess j))). lia.
Qed.

Lemma update_blacks_excluded t st :
  valid_turn t ->
  blacks_excluded (turn_guess t) (turn_feedback t) WORD_SIZE
    (update_game_constraints (turn_guess t) (turn_feedback t) st (turn_index t)).
Proof.
  intros (Hlen & Hletters & _). unfold update_game_constraints.
  apply (for_loop_ind (blacks_excluded (turn_guess t) (turn_feedback t))).
  - intros j Hj. lia.
  - intros i s Hi Hinv. apply update_step_blacks; [|exact Hinv].
    apply guess_letter_upper; assumption.
Qed.

Lemma set_cell_same (m : list (list ascii)) r idx x :
  table_shape m -> (0 <= r < 6)%Z -> (idx < WORD_SIZE)%nat ->
  cell m r idx = x -> set_cell m r idx x = m.
Proof.
  intros Hshape Hr Hidx Hcell.
  destruct (table_shape_row m r Hshape Hr) as [Hrow Hlen].
  unfold set_cell, cell in *.
  replace (0 <=? r)%Z with true in * by (symmetry; apply Z.leb_le; lia).
  destruct (m !! Z.to_nat r) as [row|] eqn:E.
  - change (default [] (Some row)) with row in *.
    rewrite (list_insert_id row idx x); [apply list_insert_id; exact E|].
    apply char_at_lookup; [rewrite Hlen; exact Hidx | exact Hcell].
  - apply lookup_ge_None in E. lia.
Qed.

(** From a state in which everything the turn records is already
    recorded, one position of the turn changes nothing. *)
Lemma update_step_fixed guess result_pattern tryIdx s idx :
  length guess = WORD_SIZE -> length result_pattern = WORD_SIZE ->
  Forall (fun c => is_letter c = true) guess ->
  (1 <= tryIdx <= 6)%Z -> (idx < WORD_SIZE)%nat ->
  well_formed s ->
  recorded guess result_pattern tryIdx s WORD_SIZE s ->
  (forall c, (marked c (map toupper guess) result_pattern <= occurrences c (pGood s))%nat) ->
  blacks_excluded guess result_pattern WORD_SIZE s ->
  update_step guess result_pattern (confirmed_counts guess result_pattern) tryIdx s idx = s.
Proof.
  intros Hlen Hlenp Hletters Ht Hidx Hwf [Hmask Hcells] Hreq Hblack.
  pose proof (guess_letter_upper guess idx Hlen Hletters Hidx) as Hup.
  destruct (confirmed_counts_represents guess result_pattern Hlen Hlenp Hletters)
    as [_ Hconf].
  assert (Hraise : raise_required (confirmed_counts guess result_pattern) (pGood s)
                     (toupper (char_at guess idx)) = pGood s).
  { unfold raise_required. pose proof (Hconf _ Hup) as Hc. cbv beta in Hc.
    rewrite required_count_occurrences, Hc.
    specialize (Hreq (toupper (char_at guess idx))).
    replace (_ <? _)%Z with false by (symmetry; apply Z.ltb_ge; lia). reflexivity. }
  destruct Hwf as (Hml & Hnl & Hrows & _).
  assert (Hshape : table_shape (notMask s)) by (split; assumption).
  specialize (Hmask idx Hidx). specialize (Hcells (tryIdx - 1)%Z idx Hidx).
  replace (idx <? WORD_SIZE)%nat with true in Hmask, Hcells
    by (symmetry; apply Nat.ltb_lt; exact Hidx).
  rewrite Z.eqb_refl in Hcells. cbn [andb] in Hmask, Hcells.
  assert (Hrange : (0 <= tryIdx - 1 < 6)%Z) by lia.
  unfold update_step. rewrite Hraise.
  destruct (Ascii.eqb (char_at result_pattern idx) "G") eqn:EG.
  - rewrite list_insert_id; [destruct s; reflexivity|].
    apply char_at_lookup; [rewrite Hml; exact Hidx | exact Hmask].
  - destruct (Ascii.eqb (char_at result_pattern idx) "Y") eqn:EY.
    + apply ascii_eqb_eq in EY. rewrite EY in Hcells.
      change (excludes "Y") with true in Hcells. cbv iota in Hcells.
      rewrite (set_cell_same (notMask s) (tryIdx - 1)%Z idx _ Hshape Hrange Hidx Hcells).
      destruct s; reflexivity.
    + destruct (Ascii.eqb (char_at result_pattern idx) "B") eqn:EB; [|reflexivity].
      apply ascii_eqb_eq in EB. rewrite EB in Hcells.
      change (excludes "B") with true in Hcells. cbv iota in Hcells.
      rewrite (set_cell_same (notMask s) (tryIdx - 1)%Z idx _ Hshape Hrange Hidx Hcells).
      rewrite required_count_occurrences.
      destruct (occurrences (toupper (char_at guess idx)) (pGood s)) as [|k] eqn:E0;
        [|destruct s; reflexivity].
      cbn [Z.of_nat Z.eqb].
      rewrite (proj2 (strchr_In (pBad s) _ (upper_not_nul _ Hup))
                     (Hblack idx Hidx EB E0)).
      destruct s; reflexivity.
Qed.

Lemma for_loop_fixed {S : Type} n (body : S -> nat -> S) s :
  (forall i, (i < n)%nat -> body s i = s) -> for_loop n body s = s.
Proof.
  induction n as [|n IH]; intros H; [reflexivity|].
  rewrite for_loop_S, IH by (intros i Hi; apply H; lia). apply H. lia.
Qed.

End SameTurn.

(** X24: entering the same turn a second time changes nothing: on a
    well-formed state, [update_game_constraints] applied twice with the
    same guess, feedback and turn number gives the state of the first
    application. *)
Theorem update_game_constraints_idempotent t st :
  valid_turn t -> well_formed st ->
  update_game_constraints (turn_guess t) (turn_feedback t)
    (update_game_constraints (turn_guess t) (turn_feedback t) st (turn_index t))
    (turn_index t)
  = update_game_constraints (turn_guess t) (turn_feedback t) st (turn_index t).
Proof.
  intros Hvalid Hwf.
  pose proof (update_well_formed t st Hvalid Hwf) as Hwf'.
  pose proof (update_recorded t st Hvalid Hwf) as [Hmask Hcells].
  pose proof (update_blacks_excluded t st Hvalid) as Hblack.
  assert (Hreq : forall c,
            (marked c (map toupper (turn_guess t)) (turn_feedback t)
             <= occurrences c (pGood (update_game_constraints (turn_guess t)
                                        (turn_feedback t) st (turn_index t))))%nat)
    by (intros c; rewrite (update_required_max c t st Hvalid); lia).
  destruct Hvalid as (Hlen & Hletters & Hlenp & _ & Ht).
  set (s := update_game_constraints (turn_guess t) (turn_feedback t) st (turn_index t))
    in *.
  clearbody s. unfold update_game_constraints. apply for_loop_fixed.
  intros idx Hidx. apply update_step_fixed; try assumption.
  split.
  - intros i Hi. rewrite (Hmask i Hi).
    replace (i <? WORD_SIZE)%nat with true by (symmetry; apply Nat.ltb_lt; exact Hi).
    cbn [andb]. destruct (Ascii.eqb _ "G"); reflexivity.
  - intros r i Hi. rewrite (Hcells r i Hi).
    destruct ((i <? WORD_SIZE)%nat && (r =? turn_index t - 1)%Z && excludes _);
      reflexivity.
Qed.

Lemma update_game_constraints_idempotent_witness :
  update_game_constraints (w "crane") (w "YGGBG")
    (update_game_constraints (w "crane") (w "YGGBG") initial_state 1) 1
  = update_game_constraints (w "crane") (w "YGGBG") initial_state 1.
Proof.
  apply (update_game_constraints_idempotent (mkTurn (w "crane") (w "YGGBG") 1) initial_state).
  - unfold valid_turn. cbn [turn_guess turn_feedback turn_index]. literal_turn.
  - apply initial_state_well_formed.
Defined.
